(** * Bollywood Bias Buster: character extraction, bias scoring and rewriting

    A shallow embedding of [models/bias_detection_model.py]
    ([ComprehensiveGenderBiasDetector]), [models/bias_rewriter.py]
    ([LLMBiasRewriter]) and the rewrite scoring of
    [evaluation/metrics_evaluator.py], with the properties of the design
    document, and further properties of the code, proved over it.

    Conventions of the embedding.
    - A Python [str] is a [text], a list of characters.  The character
      functions ([lower_char], [is_word], [is_space] ...) follow Python on
      the ASCII range; non-ASCII input is outside the modelled domain.
    - Python [int] is [Z]; lengths and counters are [nat] and are injected
      into [Z] or [Q] where the code does arithmetic on them.
    - Python [float] arithmetic is idealised as exact rational arithmetic
      ([Q], compared with [==]): rounding is not modelled.
    - The [re] module is embedded as a small backtracking matcher over a
      regular-expression syntax tree; every pattern of the program is
      written in that syntax.
    - [random.choice] draws from an explicit random source threaded through
      the rewriting passes; the logger is an explicit list of records. *)

From Stdlib Require Import Ascii String.
From Stdlib Require Import List ZArith QArith Lia Lqa Bool Arith.
From Stdlib Require Import Sorted Permutation.
Import ListNotations.

Close Scope Q_scope.
Open Scope nat_scope.

(* ===================================================================== *)
(** ** Text and characters                                                *)
(* ===================================================================== *)

Module Text.

Definition text := list ascii.

(** A string literal of the source as a [text]. *)
Definition str (s : string) : text := list_ascii_of_string s.

Definition code (c : ascii) : nat := nat_of_ascii c.

Definition in_range (lo hi : nat) (c : ascii) : bool :=
  (lo <=? code c) && (code c <=? hi).

Definition is_upper (c : ascii) : bool := in_range 65 90 c.
Definition is_lower (c : ascii) : bool := in_range 97 122 c.
Definition is_digit (c : ascii) : bool := in_range 48 57 c.

(** [\w] on ASCII: letters, digits and the underscore. *)
Definition is_word (c : ascii) : bool :=
  is_upper c || is_lower c || is_digit c || (code c =? 95).

(** [\s] and [str.isspace] on ASCII: tab, newline, vertical tab, form feed,
    carriage return, the four separators 0x1c-0x1f and the space. *)
Definition is_space (c : ascii) : bool :=
  in_range 9 13 c || in_range 28 31 c || (code c =? 32).

Definition lower_char (c : ascii) : ascii :=
  if is_upper c then ascii_of_nat (code c + 32) else c.

Definition upper_char (c : ascii) : ascii :=
  if is_lower c then ascii_of_nat (code c - 32) else c.

(** [s.lower()] and [s.upper()]. *)
Definition lower (s : text) : text := map lower_char s.
Definition upper (s : text) : text := map upper_char s.

Definition ascii_eqb (a b : ascii) : bool := Ascii.eqb a b.

Fixpoint text_eqb (a b : text) : bool :=
  match a, b with
  | [], [] => true
  | x :: a', y :: b' => ascii_eqb x y && text_eqb a' b'
  | _, _ => false
  end.

(** [x in l] for a list or a set of strings. *)
Definition mem (x : text) (l : list text) : bool := existsb (text_eqb x) l.

(** [s.startswith(p)]. *)
Fixpoint startswith (p s : text) : bool :=
  match p with
  | [] => true
  | x :: p' =>
      match s with
      | [] => false
      | y :: s' => ascii_eqb x y && startswith p' s'
      end
  end.

(** [p in s] for strings: [p] occurs in [s] as a substring. *)
Fixpoint contains (p s : text) : bool :=
  startswith p s ||
  match s with
  | [] => false
  | _ :: s' => contains p s'
  end.

(** [s.count(p)]: occurrences of [p] in [s], scanned from the left without
    overlap.  [skip] is the number of characters of the current occurrence
    that are still to be passed over. *)
Fixpoint count_from (p : text) (skip : nat) (s : text) : nat :=
  match s with
  | [] => 0
  | _ :: s' =>
      match skip with
      | S j => count_from p j s'
      | O => if startswith p s
             then S (count_from p (length p - 1) s')
             else count_from p 0 s'
      end
  end.

Definition count (p s : text) : nat :=
  match p with
  | [] => S (length s)
  | _ => count_from p 0 s
  end.

(** [s.replace(old, new, 1)]: the first occurrence only. *)
Fixpoint replace_first (old new s : text) : text :=
  match s with
  | [] => match old with [] => new | _ => [] end
  | c :: s' =>
      if startswith old s then new ++ skipn (length old) s
      else c :: replace_first old new s'
  end.

(** [s.split()]: the maximal runs of non-blank characters. *)
Fixpoint split_ws (s : text) : list text :=
  match s with
  | [] => []
  | c :: s' =>
      if is_space c then
        match s' with
        | [] => []
        | _ => split_ws s'
        end
      else
        match s' with
        | [] => [[c]]
        | d :: _ =>
            if is_space d then [c] :: split_ws s'
            else match split_ws s' with
                 | w :: ws => (c :: w) :: ws
                 | [] => [[c]]
                 end
        end
  end.

(** [s.split(sep)] for a one-character separator. *)
Fixpoint split_char (sep : ascii) (s : text) : list text :=
  match s with
  | [] => [[]]
  | c :: s' =>
      if ascii_eqb c sep then [] :: split_char sep s'
      else match split_char sep s' with
           | l :: ls => (c :: l) :: ls
           | [] => [[c]]
           end
  end.

Fixpoint lstrip (s : text) : text :=
  match s with
  | c :: s' => if is_space c then lstrip s' else s
  | [] => []
  end.

(** [s.strip()]. *)
Definition strip (s : text) : text := rev (lstrip (rev (lstrip s))).

(** [sep.join(l)]. *)
Fixpoint join (sep : text) (l : list text) : text :=
  match l with
  | [] => []
  | [x] => x
  | x :: l' => x ++ sep ++ join sep l'
  end.

(** [any(k in s for k in keys)]. *)
Definition any_in (keys : list text) (s : text) : bool :=
  existsb (fun k => contains k s) keys.

(** [sum(1 for k in keys if k in s)]. *)
Definition count_in (keys : list text) (s : text) : nat :=
  length (filter (fun k => contains k s) keys).

(** [set(l)] as far as its size and intersections go: one occurrence of
    every element. *)
Fixpoint dedup (l : list text) : list text :=
  match l with
  | [] => []
  | x :: l' => if mem x l' then dedup l' else x :: dedup l'
  end.

End Text.
Import Text.

(* ===================================================================== *)
(** ** The [re] module                                                    *)
(* ===================================================================== *)

Module Re.

(** A character class: [mem] lists the members, [neg] is the leading [^]. *)
Record cset := { neg : bool; cmem : ascii -> bool }.

Definition one (c : ascii) : cset := {| neg := false; cmem := ascii_eqb c |}.
Definition cls (p : ascii -> bool) : cset := {| neg := false; cmem := p |}.
Definition ncls (p : ascii -> bool) : cset := {| neg := true; cmem := p |}.

(** [.] without DOTALL: anything but a newline. *)
Definition dot : cset := ncls (fun c => code c =? 10).

(** Membership; under IGNORECASE a character also matches through its
    other case. *)
Definition cs_mem (ic : bool) (cs : cset) (c : ascii) : bool :=
  xorb (neg cs)
       (cmem cs c || (ic && (cmem cs (lower_char c) || cmem cs (upper_char c)))).

(** The syntax of the patterns the program uses.  Repetition is only ever
    applied to a single character class. *)
Inductive regex :=
| RSet (cs : cset)
| RLit (l : text)
| RSeq (a b : regex)
| RAlt (a b : regex)
| ROpt (cs : cset)
| RStar (cs : cset)
| RPlus (cs : cset)
| RGroup (a : regex)
| RWordB
| RLook (a : regex).

(** The matcher's position: the character before it, the text after it,
    the number of characters consumed since the match began and the groups
    closed so far, in order. *)
Record mstate := {
  prev : option ascii;
  rest : text;
  used : nat;
  caps : list text
}.

Definition word_opt (o : option ascii) : bool :=
  match o with Some c => is_word c | None => false end.

(** [\b]: exactly one side is a word character. *)
Definition at_boundary (st : mstate) : bool :=
  xorb (word_opt (prev st)) (word_opt (hd_error (rest st))).

Definition step (c : ascii) (s' : text) (st : mstate) : mstate :=
  {| prev := Some c; rest := s'; used := S (used st); caps := caps st |}.

(** Greedy repetition of a class with backtracking: take as many as
    possible, give one back at a time while the continuation fails. *)
Fixpoint star (ic : bool) (cs : cset) (k : mstate -> option mstate)
         (p : option ascii) (s : text) (n : nat) (g : list text)
  : option mstate :=
  let here := {| prev := p; rest := s; used := n; caps := g |} in
  match s with
  | c :: s' =>
      if cs_mem ic cs c then
        match star ic cs k (Some c) s' (S n) g with
        | Some r => Some r
        | None => k here
        end
      else k here
  | [] => k here
  end.

Fixpoint lit (ic : bool) (l : text) (k : mstate -> option mstate)
         (st : mstate) : option mstate :=
  match l with
  | [] => k st
  | x :: l' =>
      match rest st with
      | c :: s' =>
          if cs_mem ic (one x) c then lit ic l' k (step c s' st) else None
      | [] => None
      end
  end.

(** The backtracking matcher in continuation-passing style: [k] is what
    remains to be matched after [r]. *)
Fixpoint rmatch (ic : bool) (r : regex) (k : mstate -> option mstate)
         (st : mstate) : option mstate :=
  match r with
  | RSet cs =>
      match rest st with
      | c :: s' => if cs_mem ic cs c then k (step c s' st) else None
      | [] => None
      end
  | RLit l => lit ic l k st
  | RSeq a b => rmatch ic a (rmatch ic b k) st
  | RAlt a b =>
      match rmatch ic a k st with
      | Some r => Some r
      | None => rmatch ic b k st
      end
  | ROpt cs =>
      let skip := k st in
      match rest st with
      | c :: s' =>
          if cs_mem ic cs c then
            match k (step c s' st) with
            | Some r => Some r
            | None => skip
            end
          else skip
      | [] => skip
      end
  | RStar cs => star ic cs k (prev st) (rest st) (used st) (caps st)
  | RPlus cs =>
      match rest st with
      | c :: s' =>
          if cs_mem ic cs c
          then star ic cs k (Some c) s' (S (used st)) (caps st)
          else None
      | [] => None
      end
  | RGroup a =>
      rmatch ic a
        (fun st' =>
           k {| prev := prev st'; rest := rest st'; used := used st';
                caps := caps st' ++ [firstn (used st' - used st) (rest st)] |})
        st
  | RWordB => if at_boundary st then k st else None
  | RLook a =>
      match rmatch ic a (fun st' => Some st') st with
      | Some _ => k st
      | None => None
      end
  end.

(** One attempt at one position. *)
Definition match_at (ic : bool) (r : regex) (p : option ascii) (s : text)
  : option mstate :=
  rmatch ic r (fun st => Some st)
         {| prev := p; rest := s; used := 0; caps := [] |}.

(** What a left-to-right scan makes of a text: characters outside any
    match, and matches with their groups. *)
Inductive seg :=
| Lit (c : ascii)
| Hit (m : text) (gs : list text).

Definition exhausted (cnt : option nat) : bool :=
  match cnt with Some O => true | _ => false end.

Definition spend (cnt : option nat) : option nat :=
  match cnt with Some n => Some (pred n) | None => None end.

(** The scan shared by [search], [findall], [sub] and [split]: leftmost
    matches, not overlapping, at most [cnt] of them when [cnt] is given.
    [skip] counts the characters of the current match still to be passed.
    Every pattern of the program consumes at least one character, so a
    match of length zero is treated as no match at that position. *)
Fixpoint scan (ic : bool) (r : regex) (cnt : option nat) (p : option ascii)
         (skip : nat) (s : text) : list seg :=
  match s with
  | [] => []
  | c :: s' =>
      match skip with
      | S j => scan ic r cnt (Some c) j s'
      | O =>
          match (if exhausted cnt then None else match_at ic r p s) with
          | Some st =>
              match used st with
              | O => Lit c :: scan ic r cnt (Some c) 0 s'
              | S j =>
                  Hit (firstn (S j) s) (caps st)
                  :: scan ic r (spend cnt) (Some c) j s'
              end
          | None => Lit c :: scan ic r cnt (Some c) 0 s'
          end
      end
  end.

Fixpoint hits (l : list seg) : list (text * list text) :=
  match l with
  | [] => []
  | Lit _ :: l' => hits l'
  | Hit m gs :: l' => (m, gs) :: hits l'
  end.

(** [re.search(r, s)]: the leftmost match, if any. *)
Definition search (ic : bool) (r : regex) (s : text)
  : option (text * list text) :=
  hd_error (hits (scan ic r (Some 1) None 0 s)).

Definition found (ic : bool) (r : regex) (s : text) : bool :=
  match search ic r s with Some _ => true | None => false end.

(** [re.findall(r, s)] for a pattern without groups. *)
Definition findall (ic : bool) (r : regex) (s : text) : list text :=
  map fst (hits (scan ic r None None 0 s)).

(** A replacement template: literal text and group references [\n]. *)
Inductive titem :=
| TLit (l : text)
| TRef (n : nat).

Definition expand (tpl : list titem) (gs : list text) : text :=
  concat (map (fun it => match it with
                         | TLit l => l
                         | TRef n => nth (n - 1) gs []
                         end) tpl).

Definition render (tpl : list titem) (sg : seg) : text :=
  match sg with
  | Lit c => [c]
  | Hit _ gs => expand tpl gs
  end.

(** [re.sub(r, tpl, s, count)]; [cnt = None] is the default: every
    match is replaced. *)
Definition sub (ic : bool) (r : regex) (tpl : list titem)
           (cnt : option nat) (s : text) : text :=
  concat (map (render tpl) (scan ic r cnt None 0 s)).

(** [re.split(r, s)]: the pieces between the matches. *)
Fixpoint pieces (l : list seg) : list text :=
  match l with
  | [] => [[]]
  | Lit c :: l' =>
      match pieces l' with
      | x :: xs => (c :: x) :: xs
      | [] => [[c]]
      end
  | Hit _ _ :: l' => [] :: pieces l'
  end.

Definition split (r : regex) (s : text) : list text :=
  pieces (scan false r None None 0 s).

End Re.
Import Re.

(* ===================================================================== *)
(** ** [bias_detection_model.py]: the detector                            *)
(* ===================================================================== *)

Module Detector.

Record Character := {
  name : text;
  gender : text;
  professions : list text;
  relationships : list text;
  agency_level : Z;
  appearance_descriptions : list text;
  dialogue_count : Z;
  screen_time : Q
}.

Record BiasScores := {
  occupation_gap : Q;
  agency_gap : Q;
  appearance_focus : Q;
  relationship_defining : Q;
  dialogue_imbalance : Q;
  screen_time_imbalance : Q;
  overall : Q
}.

(** *** The indicator taxonomy of [__init__] *)

Definition female_names : list text :=
  map str ["priya"; "simran"; "rani"; "meera"; "sonia"; "kavya"; "anjali";
           "pooja"; "neha"; "ritu"; "deepika"; "kareena"; "aishwarya"]%string.

Definition male_names : list text :=
  map str ["raj"; "rohit"; "vijay"; "arjun"; "rahul"; "amit"; "suresh";
           "ravi"; "kumar"; "dev"; "shah"; "khan"; "sharma"]%string.

Definition profession_terms : list text :=
  map str ["doctor"; "engineer"; "teacher"; "lawyer"; "businessman";
           "scientist"; "artist"; "writer"; "director"; "manager";
           "housewife"; "student"; "nurse"; "secretary"]%string.

Definition appearance_words : list text :=
  map str ["beautiful"; "pretty"; "gorgeous"; "stunning"; "attractive";
           "handsome"; "charming"; "elegant"; "lovely"; "cute"]%string.

Definition relationship_indicators : list text :=
  map str ["daughter of"; "son of"; "wife of"; "husband of";
           "mother of"; "father of"; "girlfriend"; "boyfriend";
           "sister of"; "brother of"]%string.

Definition active_verbs : list text :=
  map str ["decides"; "chooses"; "leads"; "creates"; "builds"; "fights";
           "runs"; "manages"]%string.

Definition passive_indicators : list text :=
  map str ["waits for"; "depends on"; "needs permission";
           "asks for help"]%string.

Definition common_words : list text :=
  map str ["The"; "And"; "But"; "For"; "With"; "From"; "This"; "That"]%string.

Definition female : text := str "female".
Definition male : text := str "male".
Definition unknown : text := str "unknown".

(** *** Evidence gathered from the local context of a name *)

(** [_detect_gender]: the name lists first, then the pronoun tally. *)
Definition _detect_gender (name context : text) : text :=
  let name_lower := lower name in
  if existsb (fun fn => contains fn name_lower) female_names then female
  else if existsb (fun mn => contains mn name_lower) male_names then male
  else
    let context_lower := lower context in
    let female_pronouns :=
      count (str "she") context_lower + count (str "her") context_lower in
    let male_pronouns :=
      count (str "he") context_lower + count (str "him") context_lower in
    if male_pronouns <? female_pronouns then female
    else if female_pronouns <? male_pronouns then male
    else unknown.

(** The three keyword searches share one loop: the keywords present in
    the lowercased text, in the order of the table. *)
Definition keywords_in (keys : list text) (t : text) : list text :=
  let text_lower := lower t in
  filter (fun k => contains k text_lower) keys.

Definition _find_professions (t : text) : list text :=
  keywords_in profession_terms t.

Definition _find_relationships (t : text) : list text :=
  keywords_in relationship_indicators t.

Definition _find_appearance_descriptions (t : text) : list text :=
  keywords_in appearance_words t.

(** [_calculate_agency_level]: the two loops over the keyword tables
    update the running score, which is clamped on return. *)
Definition _calculate_agency_level (t : text) : Z :=
  let text_lower := lower t in
  let agency_score := 5%Z in
  let agency_score :=
    fold_left (fun score verb =>
                 if contains verb text_lower then (score + 1)%Z else score)
              active_verbs agency_score in
  let agency_score :=
    fold_left (fun score indicator =>
                 if contains indicator text_lower then (score - 1)%Z
                 else score)
              passive_indicators agency_score in
  Z.max 1 (Z.min 10 agency_score).

(** [_count_dialogue]: lines that begin, once stripped and upper-cased,
    with the upper-cased name. *)
Definition _count_dialogue (name t : text) : Z :=
  let lines := split_char "010"%char t in
  fold_left (fun dialogue_count line =>
               if startswith (upper name) (upper (strip line))
               then (dialogue_count + 1)%Z else dialogue_count)
            lines 0%Z.

Definition of_nat (n : nat) : Q := inject_Z (Z.of_nat n).

(** [_estimate_screen_time]: mentions per hundred words. *)
Definition _estimate_screen_time (name t : text) : Q :=
  let mentions := count (lower name) (lower t) in
  let total_words := length (split_ws t) in
  (of_nat mentions / of_nat (Nat.max total_words 1) * 100)%Q.

Definition is_terminator (c : ascii) : bool :=
  ascii_eqb c "."%char || ascii_eqb c "!"%char || ascii_eqb c "?"%char.

(** [r'[.!?]+'] *)
Definition sentence_end_re : regex := RPlus (cls is_terminator).

(** [_analyze_character]: [None] when no sentence mentions the name. *)
Definition _analyze_character (nm t : text) : option Character :=
  let sentences := Re.split sentence_end_re t in
  let character_sentences :=
    filter (fun s => contains (lower nm) (lower s)) sentences in
  match character_sentences with
  | [] => None
  | _ =>
      let character_text := join (str " ") character_sentences in
      Some {| name := nm;
              gender := _detect_gender nm character_text;
              professions := _find_professions character_text;
              relationships := _find_relationships character_text;
              agency_level := _calculate_agency_level character_text;
              appearance_descriptions :=
                _find_appearance_descriptions character_text;
              dialogue_count := _count_dialogue nm t;
              screen_time := _estimate_screen_time nm t |}
  end.

(** *** Extraction *)

(** [r'\b[A-Z][a-z]+\b'] *)
Definition name_re : regex :=
  RSeq RWordB
       (RSeq (RSet (cls is_upper)) (RSeq (RPlus (cls is_lower)) RWordB)).

(** [name_counts[word] += 1] on a [defaultdict(int)]: the dictionary keeps
    its keys in the order of first insertion. *)
Fixpoint bump (w : text) (counts : list (text * nat)) : list (text * nat) :=
  match counts with
  | [] => [(w, 1)]
  | (k, n) :: counts' =>
      if text_eqb k w then (k, S n) :: counts'
      else (k, n) :: bump w counts'
  end.

Definition name_counts (words : list text) : list (text * nat) :=
  fold_left (fun counts w => bump w counts) words [].

(** The names kept as candidates: seen twice or more, not a capitalised
    function word. *)
Definition potential_names (t : text) : list text :=
  let words := findall false name_re t in
  map fst
      (filter (fun kc => (2 <=? snd kc) && negb (mem (fst kc) common_words))
              (name_counts words)).

(** The loop of [extract_characters_advanced] over the first ten names. *)
Fixpoint analyze_all (names : list text) (t : text) : list Character :=
  match names with
  | [] => []
  | nm :: names' =>
      match _analyze_character nm t with
      | Some character => character :: analyze_all names' t
      | None => analyze_all names' t
      end
  end.

Definition extract_characters_advanced (t : text) : list Character :=
  analyze_all (firstn 10 (potential_names t)) t.

(** *** Scoring *)

(** Python's [max(a, b)] and [min(a, b)] on numbers. *)
Definition qmax (a b : Q) : Q := if Qle_bool b a then a else b.
Definition qmin (a b : Q) : Q := if Qle_bool a b then a else b.

Definition qsum (l : list Q) : Q := fold_right Qplus 0%Q l.

(** [np.mean] of a list that the callers have checked to be non-empty. *)
Definition np_mean (l : list Q) : Q := (qsum l / of_nat (length l))%Q.

Definition nonempty {A : Type} (l : list A) : bool :=
  match l with [] => false | _ => true end.

Definition is_gender (g : text) (c : Character) : bool :=
  text_eqb (gender c) g.

Definition count_if {A : Type} (p : A -> bool) (l : list A) : nat :=
  length (filter p l).

Definition _calculate_occupation_gap (female_chars male_chars : list Character)
  : Q :=
  match female_chars with
  | [] => 0%Q
  | _ =>
      let female_with_prof :=
        count_if (fun c => nonempty (professions c)) female_chars in
      let male_with_prof :=
        count_if (fun c => nonempty (professions c)) male_chars in
      let female_prof_rate :=
        (of_nat female_with_prof / of_nat (length female_chars))%Q in
      let male_prof_rate :=
        (of_nat male_with_prof / of_nat (Nat.max (length male_chars) 1))%Q in
      qmax 0 ((male_prof_rate - female_prof_rate) * 100)%Q
  end.

Definition _calculate_agency_gap (female_chars male_chars : list Character)
  : Q :=
  match female_chars with
  | [] => 0%Q
  | _ =>
      let avg_female_agency :=
        np_mean (map (fun c => inject_Z (agency_level c)) female_chars) in
      let avg_male_agency :=
        match male_chars with
        | [] => 5%Q
        | _ => np_mean (map (fun c => inject_Z (agency_level c)) male_chars)
        end in
      qmax 0 ((avg_male_agency - avg_female_agency) * 10)%Q
  end.

Definition _calculate_appearance_focus
           (female_chars male_chars : list Character) : Q :=
  match female_chars with
  | [] => 0%Q
  | _ =>
      let female_appearance :=
        np_mean (map (fun c => of_nat (length (appearance_descriptions c)))
                     female_chars) in
      let male_appearance :=
        match male_chars with
        | [] => 0%Q
        | _ => np_mean (map (fun c =>
                               of_nat (length (appearance_descriptions c)))
                            male_chars)
        end in
      qmax 0 ((female_appearance - male_appearance) * 25)%Q
  end.

Definition _calculate_relationship_defining (female_chars : list Character)
  : Q :=
  match female_chars with
  | [] => 0%Q
  | _ =>
      let relationship_focused :=
        count_if (fun c => nonempty (relationships c)
                           && negb (nonempty (professions c)))
                 female_chars in
      (of_nat relationship_focused / of_nat (length female_chars) * 100)%Q
  end.

Definition zsum (l : list Z) : Z := fold_right Z.add 0%Z l.

Definition _calculate_dialogue_imbalance
           (female_chars male_chars : list Character) : Q :=
  if negb (nonempty female_chars) || negb (nonempty male_chars) then 0%Q
  else
    let total_female_dialogue := zsum (map dialogue_count female_chars) in
    let total_male_dialogue := zsum (map dialogue_count male_chars) in
    let total_dialogue := (total_female_dialogue + total_male_dialogue)%Z in
    if (total_dialogue =? 0)%Z then 0%Q
    else
      let female_dialogue_ratio :=
        (inject_Z total_female_dialogue / inject_Z total_dialogue)%Q in
      let expected_ratio :=
        (of_nat (length female_chars)
         / of_nat (length female_chars + length male_chars))%Q in
      qmax 0 ((expected_ratio - female_dialogue_ratio) * 100)%Q.

Definition _calculate_screen_time_imbalance
           (female_chars male_chars : list Character) : Q :=
  if negb (nonempty female_chars) || negb (nonempty male_chars) then 0%Q
  else
    let avg_female_screen_time := np_mean (map screen_time female_chars) in
    let avg_male_screen_time := np_mean (map screen_time male_chars) in
    qmax 0 ((avg_male_screen_time - avg_female_screen_time) * 2)%Q.

Definition calculate_comprehensive_bias_scores (characters : list Character)
  : BiasScores :=
  match characters with
  | [] => Build_BiasScores 0 0 0 0 0 0 0
  | _ =>
      let female_chars := filter (is_gender female) characters in
      let male_chars := filter (is_gender male) characters in
      let occupation_gap := _calculate_occupation_gap female_chars male_chars in
      let agency_gap := _calculate_agency_gap female_chars male_chars in
      let appearance_focus :=
        _calculate_appearance_focus female_chars male_chars in
      let relationship_defining :=
        _calculate_relationship_defining female_chars in
      let dialogue_imbalance :=
        _calculate_dialogue_imbalance female_chars male_chars in
      let screen_time_imbalance :=
        _calculate_screen_time_imbalance female_chars male_chars in
      let overall :=
        np_mean [occupation_gap; agency_gap; appearance_focus;
                 relationship_defining; dialogue_imbalance;
                 screen_time_imbalance] in
      Build_BiasScores occupation_gap agency_gap appearance_focus
                       relationship_defining dialogue_imbalance
                       screen_time_imbalance overall
  end.

End Detector.
Import Detector.

(* ===================================================================== *)
(** ** [bias_rewriter.py]: the rewriter                                   *)
(* ===================================================================== *)

Module Rewriter.

Record RewriteResult := {
  original_text : text;
  rewritten_text : text;
  quality_score : Q;
  bias_reduction : Q;
  improvements : list text;
  rewrite_type : text
}.

(** *** The random source

    [random.choice] reads the module-wide generator.  It is made explicit:
    a sequence of draws and the number of draws already made. *)

Record Rng := { draws : nat -> nat; pos : nat }.

Definition random_choice (l : list text) (g : Rng) : text * Rng :=
  (nth (draws g (pos g) mod length l) l [],
   {| draws := draws g; pos := S (pos g) |}).

(** *** Pattern vocabulary *)

Declare Scope re_scope.
Delimit Scope re_scope with re.
Notation "a ;; b" := (RSeq a b) (at level 61, right associativity) : re_scope.
Local Open Scope re_scope.

Definition upper_set : cset := cls is_upper.
Definition lower_set : cset := cls is_lower.
Definition word_set : cset := cls is_word.
Definition space_set : cset := cls is_space.
Definition comma : ascii := ","%char.
Definition period : ascii := "."%char.
Definition dquote : ascii := ascii_of_nat 34.
Definition newline : ascii := ascii_of_nat 10.

(** [[A-Z][a-z]+] and the group [([A-Z][a-z]+)] *)
Definition cap_word : regex := RSet upper_set ;; RPlus lower_set.
Definition cap_name : regex := RGroup cap_word.
(** [(\w+)] *)
Definition any_word : regex := RGroup (RPlus word_set).
(** [,?\s+] *)
Definition opt_comma_spaces : regex := ROpt (one comma) ;; RPlus space_set.
(** [([^,]+)] and [([^.]+)] *)
Definition to_comma : regex := RGroup (RPlus (ncls (ascii_eqb comma))).
Definition to_period : regex := RGroup (RPlus (ncls (ascii_eqb period))).

Definition L (s : string) : regex := RLit (str s).
Definition T (s : string) : titem := TLit (str s).

Definition rule := (regex * list titem)%type.

(** *** The tables of [__init__] *)

Definition professional_titles : list text :=
  map str ["doctor"; "engineer"; "lawyer"; "teacher"; "scientist";
           "researcher"; "manager"; "director"; "consultant";
           "entrepreneur"; "artist"; "writer"; "journalist"; "designer";
           "architect"; "analyst"]%string.

Definition appearance_replacements : list (text * list text) :=
  map (fun kv => (str (fst kv), map str (snd kv)))
      [("beautiful", ["accomplished"; "talented"; "skilled"; "intelligent"]);
       ("pretty", ["capable"; "competent"; "experienced"; "knowledgeable"]);
       ("gorgeous", ["brilliant"; "innovative"; "creative"; "successful"]);
       ("stunning",
        ["impressive"; "remarkable"; "outstanding"; "exceptional"]);
       ("attractive", ["engaging"; "compelling"; "influential"; "respected"]);
       ("handsome",
        ["professional"; "accomplished"; "skilled"; "experienced"]);
       ("good-looking",
        ["well-regarded"; "respected"; "competent"; "capable"])]%string.

Definition agency_replacements : list (text * list text) :=
  map (fun kv => (str (fst kv), map str (snd kv)))
      [("waits for",
        ["actively seeks"; "pursues"; "works towards"; "strives for"]);
       ("hopes for",
        ["works towards"; "actively pursues"; "strives to achieve"]);
       ("wishes for", ["actively seeks"; "works to obtain"; "pursues"]);
       ("dreams of", ["works towards"; "actively pursues"; "strives for"]);
       ("receives", ["earns"; "achieves"; "obtains"; "secures"]);
       ("is given", ["earns"; "achieves"; "secures"; "obtains"]);
       ("gets", ["earns"; "achieves"; "secures"; "obtains"])]%string.

Definition relationship_patterns : list rule :=
  [ (any_word ;; opt_comma_spaces ;; L "daughter of " ;; to_comma,
     [TRef 1; T ", a professional and daughter of "; TRef 2]);
    (any_word ;; opt_comma_spaces ;; L "wife of " ;; to_comma,
     [TRef 1; T ", an accomplished professional and wife of "; TRef 2]);
    (any_word ;; opt_comma_spaces ;; L "sister of " ;; to_comma,
     [TRef 1; T ", an independent professional and sister of "; TRef 2]);
    (any_word ;; RPlus space_set ;; L "belongs to",
     [TRef 1; T ", a successful professional, belongs to"]) ].

Definition profession_additions : list text :=
  map str ["a skilled professional"; "an accomplished expert";
           "a talented specialist"; "an experienced professional";
           "a successful entrepreneur"; "a dedicated professional"]%string.

(** [rewrite_patterns['occupation_gap']] *)
Definition occupation_patterns : list rule :=
  [ (cap_name ;; opt_comma_spaces ;; L "daughter of " ;; to_comma,
     [TRef 1; T ", a professional and daughter of "; TRef 2]);
    (cap_name ;; opt_comma_spaces ;; L "wife of " ;; to_comma,
     [TRef 1; T ", a working professional and wife of "; TRef 2]);
    (cap_name ;; opt_comma_spaces ;; L "sister of " ;; to_comma,
     [TRef 1; T ", a career woman and sister of "; TRef 2]);
    (cap_name ;; L " belongs to " ;; to_period,
     [TRef 1; T " works professionally and belongs to "; TRef 2]) ].

Definition occupation_profession_additions : list text :=
  map str ["doctor"; "engineer"; "teacher"; "lawyer"; "businesswoman";
           "artist"; "writer"; "scientist"; "manager"; "consultant";
           "designer"; "architect"; "journalist"; "researcher";
           "entrepreneur"]%string.

(** [rewrite_patterns['agency_gap']['passive_to_active']] *)
Definition passive_to_active : list rule :=
  [ (cap_name ;; L " receives " ;; to_period,
     [TRef 1; T " chooses to accept "; TRef 2]);
    (cap_name ;; L " waits for " ;; to_period,
     [TRef 1; T " actively seeks "; TRef 2]);
    (cap_name ;; L " hopes for " ;; to_period,
     [TRef 1; T " works towards "; TRef 2]);
    (cap_name ;; L " follows " ;; to_period,
     [TRef 1; T " collaborates with "; TRef 2]);
    (cap_name ;; L " accepts " ;; to_period,
     [TRef 1; T " decides to embrace "; TRef 2]) ].

(** [rewrite_patterns['appearance_focus']['appearance_to_trait']] *)
Definition appearance_to_trait : list rule :=
  [ (L "beautiful " ;; cap_name, [T "intelligent "; TRef 1]);
    (L "pretty " ;; cap_name, [T "talented "; TRef 1]);
    (L "gorgeous " ;; cap_name, [T "skilled "; TRef 1]);
    (L "stunning " ;; cap_name, [T "accomplished "; TRef 1]);
    (L "attractive " ;; cap_name, [T "capable "; TRef 1]) ].

(** [rewrite_patterns['relationship_defining']['add_independence']] *)
Definition add_independence : list rule :=
  [ (cap_name ;; opt_comma_spaces ;; L "daughter of " ;; to_comma,
     [TRef 1; T ", an independent woman and daughter of "; TRef 2]);
    (cap_name ;; opt_comma_spaces ;; L "wife of " ;; to_comma,
     [TRef 1; T ", a self-reliant individual and wife of "; TRef 2]);
    (cap_name ;; L " belongs to " ;; to_period,
     [TRef 1; T " has her own identity and belongs to "; TRef 2]) ].

Definition occupation_gap_key : text := str "occupation_gap".
Definition agency_gap_key : text := str "agency_gap".
Definition appearance_focus_key : text := str "appearance_focus".
Definition relationship_defining_key : text := str "relationship_defining".

(** *** The structural rules of [rewrite_text_rule_based] *)

(** The body of each [for pattern, replacement in ...] loop: when the
    pattern is found, [re.sub] without a count rewrites the text and one
    annotation is appended. *)
Definition apply_rule (msg : text) (st : text * list text) (r : rule)
  : text * list text :=
  let '(t, imps) := st in
  if found false (fst r) t
  then (sub false (fst r) (snd r) None t, imps ++ [msg])
  else (t, imps).

Definition apply_rules (msg : text) (rules : list rule)
           (st : text * list text) : text * list text :=
  fold_left (apply_rule msg) rules st.

(** [r'([A-Z][a-z]+)(?=.*\b(?:she|her|daughter|wife|sister)\b)'] *)
Definition female_pattern : regex :=
  cap_name ;;
  RLook (RStar dot ;; RWordB ;;
         RAlt (L "she")
              (RAlt (L "her") (RAlt (L "daughter") (RAlt (L "wife")
                                                         (L "sister")))) ;;
         RWordB).

(** The tail of the [occupation_gap] branch: a random profession beside
    the first name followed by a female-context word, when none of the
    four basic professions is mentioned yet. *)
Definition inject_profession (t : text) (imps : list text) (g : Rng)
  : text * list text * Rng :=
  if any_in (map str ["doctor"; "engineer"; "teacher"; "lawyer"]%string)
            (lower t)
  then (t, imps, g)
  else
    let '(profession, g) := random_choice occupation_profession_additions g in
    match search false female_pattern t with
    | Some (_, gs) =>
        let nm := nth 0 gs [] in
        (replace_first nm (nm ++ str ", a " ++ profession ++ str ",") t,
         imps ++ [str "Added profession (" ++ profession
                  ++ str ") to female character"],
         g)
    | None => (t, imps, g)
    end.

(** One turn of [for bias_type in bias_types]. *)
Definition structural_step (st : text * list text * Rng) (bias_type : text)
  : text * list text * Rng :=
  let '(t, imps, g) := st in
  if text_eqb bias_type occupation_gap_key then
    let '(t, imps) :=
      apply_rules
        (str "Added professional identity to character introduction")
        occupation_patterns (t, imps) in
    inject_profession t imps g
  else if text_eqb bias_type agency_gap_key then
    (apply_rules (str "Converted passive action to active agency")
                 passive_to_active (t, imps), g)
  else if text_eqb bias_type appearance_focus_key then
    (apply_rules (str "Replaced appearance description with character trait")
                 appearance_to_trait (t, imps), g)
  else if text_eqb bias_type relationship_defining_key then
    (apply_rules (str "Added independent identity alongside relationship")
                 add_independence (t, imps), g)
  else (t, imps, g).

Definition structural_phase (t : text) (bias_types : list text) (g : Rng)
  : text * list text * Rng :=
  fold_left structural_step bias_types (t, [], g).

(** *** The four dedicated passes *)

(** The loop shared by [_reduce_appearance_focus] and [_increase_agency]:
    for every key present in the lowercased text, replace its first
    occurrence, whatever its case, by a randomly chosen alternative. *)
Definition replace_pass (note : text -> text -> text)
           (table : list (text * list text)) (t : text) (g : Rng)
  : text * list text * Rng :=
  fold_left
    (fun (st : text * list text * Rng) (kv : text * list text) =>
       let '(t, imps, g) := st in
       if contains (fst kv) (lower t) then
         let '(replacement, g) := random_choice (snd kv) g in
         (sub true (RLit (fst kv)) [TLit replacement] (Some 1) t,
          imps ++ [note (fst kv) replacement], g)
       else (t, imps, g))
    table (t, [], g).

Definition _reduce_appearance_focus (t : text) (g : Rng)
  : text * list text * Rng :=
  replace_pass
    (fun appearance_word replacement =>
       str "Replaced appearance-focused " ++ [dquote] ++ appearance_word
       ++ [dquote] ++ str " with " ++ [dquote] ++ replacement ++ [dquote])
    appearance_replacements t g.

Definition _increase_agency (t : text) (g : Rng) : text * list text * Rng :=
  replace_pass
    (fun _ _ => str "Converted passive action to active agency")
    agency_replacements t g.

Definition female_indicators : list text :=
  map str ["she"; "her"; "daughter"; "wife"; "sister"; "mother"]%string.

(** [r'\b([A-Z][a-z]+)\b'] *)
Definition first_name_re : regex := RWordB ;; cap_name ;; RWordB.

Definition _add_professional_identity (t : text) (g : Rng)
  : text * list text * Rng :=
  let has_female_context := any_in female_indicators (lower t) in
  let '(t, imps, g) :=
    if has_female_context && negb (any_in professional_titles (lower t)) then
      let '(profession, g) := random_choice profession_additions g in
      match search false first_name_re t with
      | Some (_, gs) =>
          let nm := nth 0 gs [] in
          (replace_first nm (nm ++ str ", " ++ profession) t,
           [str "Added professional identity to character introduction"], g)
      | None => (t, [], g)
      end
    else (t, [], g) in
  if contains (str "daughter of") (lower t)
     && negb (contains (str "professional") (lower t))
  then
    (sub false (any_word ;; opt_comma_spaces ;; L "daughter of")
         [TRef 1; T ", a scientist, daughter of"] (Some 1) t,
     imps ++ [str "Added profession (scientist) to female character"], g)
  else (t, imps, g).

Definition _reduce_relationship_dependency (t : text)
  : text * list text :=
  fold_left
    (fun (st : text * list text) (r : rule) =>
       let '(t, imps) := st in
       if found true (fst r) t
       then (sub true (fst r) (snd r) (Some 1) t,
             imps ++ [str "Added independent identity alongside family relationship"])
       else (t, imps))
    relationship_patterns (t, []).

(** *** The two scores *)

Definition relationship_only : list text :=
  map str ["daughter of"; "wife of"; "sister of"; "belongs to"]%string.
Definition passive_verbs : list text :=
  map str ["receives"; "waits"; "hopes"; "follows"; "accepts"]%string.
Definition appearance_focus_words : list text :=
  map str ["beautiful"; "pretty"; "gorgeous"; "stunning"; "attractive"]%string.
Definition profession_words : list text :=
  map str ["doctor"; "engineer"; "teacher"; "lawyer"; "professional";
           "works"; "career"]%string.

(** The indicator families of [bias_indicators], in the order of the
    dictionary, without the [no_profession] entry that the loop skips. *)
Definition bias_indicators : list (list text) :=
  [relationship_only; passive_verbs; appearance_focus_words].

(** [sum of len(re.findall(pattern, s, re.IGNORECASE))] over all
    indicator patterns. *)
Definition indicator_hits (s : text) : nat :=
  fold_left
    (fun total patterns =>
       fold_left (fun total pattern =>
                    total + length (findall true (RLit pattern) s))
                 patterns total)
    bias_indicators 0.

Definition _calculate_bias_reduction (original rewritten : text)
           (bias_types : list text) : Q :=
  let original_bias_count := indicator_hits original in
  let rewritten_bias_count := indicator_hits rewritten in
  let original_professions := count_in profession_words (lower original) in
  let rewritten_professions := count_in profession_words (lower rewritten) in
  if original_bias_count =? 0 then 50%Q
  else
    let bias_reduction :=
      qmax 0 ((of_nat original_bias_count - of_nat rewritten_bias_count)
              / of_nat original_bias_count * 100)%Q in
    let profession_improvement :=
      qmin 30 ((of_nat rewritten_professions - of_nat original_professions)
               * 10)%Q in
    qmin 100 (bias_reduction + profession_improvement)%Q.

(** [r'[^\w\s.,!?;:-]'] *)
Definition unusual_char_re : regex :=
  RSet (ncls (fun c => is_word c || is_space c
                       || existsb (ascii_eqb c)
                                  (str ".,!?;:-"))).

Definition abs_diff (a b : nat) : nat := (a - b) + (b - a).

Definition length_preservation (original rewritten : text) : Q :=
  let length_ratio :=
    if 0 <? length original
    then (of_nat (length rewritten) / of_nat (length original))%Q
    else 1%Q in
  if Qle_bool (8 # 10) length_ratio && Qle_bool length_ratio (15 # 10)
  then 20%Q
  else if Qle_bool (6 # 10) length_ratio && Qle_bool length_ratio 2
  then 10%Q
  else 0%Q.

Definition name_preservation (original rewritten : text) : Q :=
  let original_names := dedup (findall false cap_word original) in
  let rewritten_names := dedup (findall false cap_word rewritten) in
  let name_preservation_ratio :=
    match original_names with
    | [] => 1%Q
    | _ =>
        (of_nat (length (filter (fun n => mem n rewritten_names)
                                original_names))
         / of_nat (length original_names))%Q
    end in
  (name_preservation_ratio * 20)%Q.

Definition narrative_flow (original rewritten : text) : Q :=
  let original_sentences := length (findall false sentence_end_re original) in
  let rewritten_sentences :=
    length (findall false sentence_end_re rewritten) in
  if abs_diff original_sentences rewritten_sentences <=? 2 then 20%Q
  else if abs_diff original_sentences rewritten_sentences <=? 4 then 10%Q
  else 0%Q.

Definition improvement_count (imps : list text) : Q :=
  qmin 20 (of_nat (length imps) * 5)%Q.

Definition readability (rewritten : text) : Q :=
  if nonempty rewritten && negb (found false unusual_char_re rewritten)
  then 20%Q else 0%Q.

(** [_calculate_quality_score]: the sum of the five [quality_factors]. *)
Definition _calculate_quality_score (original rewritten : text)
           (imps : list text) : Q :=
  qsum [length_preservation original rewritten;
        name_preservation original rewritten;
        narrative_flow original rewritten;
        improvement_count imps;
        readability rewritten].

(** *** [rewrite_text_rule_based]

    [preserved_elements] and [suggestions] are computed by the source but
    are not part of the returned record; they are left out. *)

Definition has_key (k : text) (bias_types : list text) : bool :=
  mem k bias_types.

Definition rewrite_text_rule_based (t : text) (bias_types : list text)
           (g : Rng) : RewriteResult * Rng :=
  let original := t in
  let '(rewritten, imps, g) := structural_phase t bias_types g in
  let '(rewritten, imps, g) :=
    if has_key appearance_focus_key bias_types then
      let '(t', more, g') := _reduce_appearance_focus rewritten g in
      (t', imps ++ more, g')
    else (rewritten, imps, g) in
  let '(rewritten, imps, g) :=
    if has_key agency_gap_key bias_types then
      let '(t', more, g') := _increase_agency rewritten g in
      (t', imps ++ more, g')
    else (rewritten, imps, g) in
  let '(rewritten, imps, g) :=
    if has_key occupation_gap_key bias_types then
      let '(t', more, g') := _add_professional_identity rewritten g in
      (t', imps ++ more, g')
    else (rewritten, imps, g) in
  let '(rewritten, imps) :=
    if has_key relationship_defining_key bias_types then
      let '(t', more) := _reduce_relationship_dependency rewritten in
      (t', imps ++ more)
    else (rewritten, imps) in
  ({| original_text := original;
      rewritten_text := rewritten;
      quality_score := _calculate_quality_score original rewritten imps;
      bias_reduction := _calculate_bias_reduction original rewritten bias_types;
      improvements := imps;
      rewrite_type := str "rule_based" |}, g).

(** *** [rewrite_text_llm]

    The hosted model is a parameter: given the system and user messages it
    either raises an exception or returns the contents of its choices. *)

Inductive exn := Exception (msg : text).

Definition exn_str (e : exn) : text := match e with Exception m => m end.

Inductive outcome A := Raises (e : exn) | Returns (a : A).
Arguments Raises {A} e.
Arguments Returns {A} a.

Definition ChatCompletion := text -> text -> outcome (list text).

Record LogRecord := { levelname : text; message : text }.

Definition bias_descriptions : list (text * text) :=
  map (fun kv => (str (fst kv), str (snd kv)))
      [("occupation_gap", "female characters lack professional identity");
       ("agency_gap", "female characters are passive rather than active");
       ("appearance_focus",
        "female characters are described primarily by appearance");
       ("relationship_defining",
        "female characters are defined only by relationships")]%string.

(** [d.get(k, default)] *)
Fixpoint dict_get (d : list (text * text)) (k default : text) : text :=
  match d with
  | [] => default
  | (k', v) :: d' => if text_eqb k' k then v else dict_get d' k default
  end.

Definition indent : text := str "        ".

Definition prompt_of (t : text) (bias_types : list text) : text :=
  let detected_biases :=
    map (fun bias => dict_get bias_descriptions bias bias) bias_types in
  let bias_list := join (str ", ") detected_biases in
  join [newline]
    [ [];
      indent ++ str "Rewrite the following text to eliminate gender bias while preserving the narrative flow and character relationships.";
      indent;
      indent ++ str "Detected biases: " ++ bias_list;
      indent;
      indent ++ str "Guidelines:";
      indent ++ str "1. Give female characters professional identities alongside family relationships";
      indent ++ str "2. Show female characters taking active decisions and actions";
      indent ++ str "3. Balance appearance descriptions with character traits and achievements";
      indent ++ str "4. Maintain all character names and core plot elements";
      indent ++ str "5. Keep the same tone and style";
      indent;
      indent ++ str "Original text: " ++ [dquote] ++ t ++ [dquote];
      indent;
      indent ++ str "Rewritten text:";
      indent ].

Definition system_message : text :=
  str "You are an expert script writer specializing in gender-inclusive content.".

Definition _analyze_llm_improvements (original rewritten : text)
           (bias_types : list text) : list text :=
  let in_original := fun ws => count_in ws (lower original) in
  let in_rewritten := fun ws => count_in ws (lower rewritten) in
  let passive_words := passive_verbs in
  let active_words :=
    map str ["decides"; "chooses"; "leads"; "creates"; "initiates"]%string in
  let independence_words :=
    map str ["independent"; "professional"; "career";
             "self-reliant"]%string in
  (if in_original profession_words <? in_rewritten profession_words
   then [str "Added professional identity to characters"] else [])
  ++ (if (in_original active_words <? in_rewritten active_words)
         || (in_rewritten passive_words <? in_original passive_words)
      then [str "Improved character agency and active voice"] else [])
  ++ (if in_rewritten appearance_focus_words
         <? in_original appearance_focus_words
      then [str "Reduced focus on physical appearance"] else [])
  ++ (if in_original independence_words <? in_rewritten independence_words
      then [str "Added independent identity alongside relationships"]
      else []).

(** [try: body except Exception as e: handler(e)] *)
Definition try_except {A : Type} (body : outcome A)
           (handler : exn -> outcome A) : outcome A :=
  match body with
  | Returns a => Returns a
  | Raises e => handler e
  end.

(** The body of the [try] block: the call, [choices[0]] of the response,
    and the scoring of the text returned. *)
Definition llm_attempt (api : ChatCompletion) (t : text)
           (bias_types : list text) : outcome RewriteResult :=
  match api system_message (prompt_of t bias_types) with
  | Raises e => Raises e
  | Returns choices =>
      match choices with
      | [] => Raises (Exception (str "list index out of range"))
      | content :: _ =>
          let rewritten := strip content in
          let imps := _analyze_llm_improvements t rewritten bias_types in
          let bias_reduction_score :=
            _calculate_bias_reduction t rewritten bias_types in
          let quality := _calculate_quality_score t rewritten imps in
          Returns {| original_text := t;
                     rewritten_text := rewritten;
                     quality_score := quality;
                     bias_reduction := bias_reduction_score;
                     improvements := imps;
                     rewrite_type := str "llm_based" |}
      end
  end.

Definition failure_record (e : exn) : LogRecord :=
  {| levelname := str "ERROR";
     message := str "LLM rewriting failed: " ++ exn_str e
                ++ str ". Using rule-based approach." |}.

(** [rewrite_text_llm]: the result, the random source afterwards and the
    records handed to the logger, or the exception that escapes. *)
Definition rewrite_text_llm (api : ChatCompletion) (t : text)
           (bias_types : list text) (g : Rng)
  : outcome (RewriteResult * Rng * list LogRecord) :=
  try_except
    (match llm_attempt api t bias_types with
     | Returns result => Returns (result, g, [])
     | Raises e => Raises e
     end)
    (fun e =>
       Returns (rewrite_text_rule_based t bias_types g, [failure_record e])).

End Rewriter.
Import Rewriter.

(* ===================================================================== *)
(** ** The remaining entry points of the two classes                      *)
(* ===================================================================== *)

Module Callers.

(** *** [analyze_movie_script] *)

Record Summary := {
  total_characters : nat;
  female_characters : nat;
  male_characters : nat;
  bias_level : text
}.

(** The dictionary returned by [analyze_movie_script]; the character
    dictionaries carry the fields of [Character] unchanged. *)
Record MovieAnalysis := {
  movie_title : text;
  characters : list Character;
  bias_scores : BiasScores;
  summary : Summary
}.

(** [a > b] on numbers. *)
Definition qgt (a b : Q) : bool := negb (Qle_bool a b).

Definition analyze_movie_script (script_text title : text) : MovieAnalysis :=
  let characters := extract_characters_advanced script_text in
  let bias_scores := calculate_comprehensive_bias_scores characters in
  {| movie_title := title;
     characters := characters;
     bias_scores := bias_scores;
     summary :=
       {| total_characters := length characters;
          female_characters := length (filter (is_gender female) characters);
          male_characters := length (filter (is_gender male) characters);
          bias_level :=
            if qgt (overall bias_scores) 60 then str "high"
            else if qgt (overall bias_scores) 30 then str "medium"
            else str "low" |} |}.

(** *** Sorting by quality

    [rewrites.sort(key=lambda x: x.quality_score, reverse=True)]: the sort
    is stable, so results of equal quality keep their order; an insertion
    sort that places a result before the first one not of higher quality
    gives the same list. *)
Fixpoint insert_by_quality (x : RewriteResult) (l : list RewriteResult)
  : list RewriteResult :=
  match l with
  | [] => [x]
  | y :: l' =>
      if qgt (quality_score y) (quality_score x)
      then y :: insert_by_quality x l'
      else x :: l
  end.

Definition sort_by_quality (l : list RewriteResult) : list RewriteResult :=
  fold_right insert_by_quality [] l.

(** *** [rewrite_multiple_alternatives] and [batch_rewrite]

    [random.seed(i)] puts the generator in a state that depends on [i]
    alone; [seed] is that state. *)
Definition rewrite_multiple_alternatives (seed : nat -> Rng) (t : text)
           (bias_types : list text) (num_alternatives : Z) (g : Rng)
  : list RewriteResult * Rng :=
  let '(alternatives, g) :=
    fold_left
      (fun (st : list RewriteResult * Rng) (i : nat) =>
         let '(alternatives, _) := st in
         let '(result, g) := rewrite_text_rule_based t bias_types (seed i) in
         (alternatives ++ [result], g))
      (seq 0 (Z.to_nat num_alternatives)) ([], g) in
  (sort_by_quality alternatives, g).

Definition batch_rewrite (texts : list text) (bias_types : list text)
           (g : Rng) : list RewriteResult * Rng :=
  fold_left
    (fun (st : list RewriteResult * Rng) (t : text) =>
       let '(results, g) := st in
       let '(result, g) := rewrite_text_rule_based t bias_types g in
       (results ++ [result], g))
    texts ([], g).

(** *** The instance state

    [_create_rule_based_variation] assigns to
    [rewrite_patterns['occupation_gap']['profession_additions']], the only
    attribute of the rewriter that changes after construction.  The
    functions below read it from the instance; with the list of
    [__init__] they are [rewrite_text_rule_based] and [rewrite_text_llm]. *)
Record LLMBiasRewriter := { profession_pool : list text }.

Definition __init__ : LLMBiasRewriter :=
  {| profession_pool := occupation_profession_additions |}.

Definition inject_profession_of (self : LLMBiasRewriter) (t : text)
           (imps : list text) (g : Rng) : text * list text * Rng :=
  if any_in (map str ["doctor"; "engineer"; "teacher"; "lawyer"]%string)
            (lower t)
  then (t, imps, g)
  else
    let '(profession, g) := random_choice (profession_pool self) g in
    match search false female_pattern t with
    | Some (_, gs) =>
        let nm := nth 0 gs [] in
        (replace_first nm (nm ++ str ", a " ++ profession ++ str ",") t,
         imps ++ [str "Added profession (" ++ profession
                  ++ str ") to female character"],
         g)
    | None => (t, imps, g)
    end.

Definition structural_step_of (self : LLMBiasRewriter)
           (st : text * list text * Rng) (bias_type : text)
  : text * list text * Rng :=
  let '(t, imps, g) := st in
  if text_eqb bias_type occupation_gap_key then
    let '(t, imps) :=
      apply_rules
        (str "Added professional identity to character introduction")
        occupation_patterns (t, imps) in
    inject_profession_of self t imps g
  else if text_eqb bias_type agency_gap_key then
    (apply_rules (str "Converted passive action to active agency")
                 passive_to_active (t, imps), g)
  else if text_eqb bias_type appearance_focus_key then
    (apply_rules (str "Replaced appearance description with character trait")
                 appearance_to_trait (t, imps), g)
  else if text_eqb bias_type relationship_defining_key then
    (apply_rules (str "Added independent identity alongside relationship")
                 add_independence (t, imps), g)
  else (t, imps, g).

Definition rewrite_text_rule_based_of (self : LLMBiasRewriter) (t : text)
           (bias_types : list text) (g : Rng) : RewriteResult * Rng :=
  let original := t in
  let '(rewritten, imps, g) :=
    fold_left (structural_step_of self) bias_types (t, [], g) in
  let '(rewritten, imps, g) :=
    if has_key appearance_focus_key bias_types then
      let '(t', more, g') := _reduce_appearance_focus rewritten g in
      (t', imps ++ more, g')
    else (rewritten, imps, g) in
  let '(rewritten, imps, g) :=
    if has_key agency_gap_key bias_types then
      let '(t', more, g') := _increase_agency rewritten g in
      (t', imps ++ more, g')
    else (rewritten, imps, g) in
  let '(rewritten, imps, g) :=
    if has_key occupation_gap_key bias_types then
      let '(t', more, g') := _add_professional_identity rewritten g in
      (t', imps ++ more, g')
    else (rewritten, imps, g) in
  let '(rewritten, imps) :=
    if has_key relationship_defining_key bias_types then
      let '(t', more) := _reduce_relationship_dependency rewritten in
      (t', imps ++ more)
    else (rewritten, imps) in
  ({| original_text := original;
      rewritten_text := rewritten;
      quality_score := _calculate_quality_score original rewritten imps;
      bias_reduction := _calculate_bias_reduction original rewritten bias_types;
      improvements := imps;
      rewrite_type := str "rule_based" |}, g).

Definition rewrite_text_llm_of (self : LLMBiasRewriter)
           (api : ChatCompletion) (t : text) (bias_types : list text)
           (g : Rng) : outcome (RewriteResult * Rng * list LogRecord) :=
  try_except
    (match llm_attempt api t bias_types with
     | Returns result => Returns (result, g, [])
     | Raises e => Raises e
     end)
    (fun e =>
       Returns (rewrite_text_rule_based_of self t bias_types g,
                [failure_record e])).

(** *** [_create_rule_based_variation] *)

Definition profession_sets : list (list text) :=
  [ map str ["doctor"; "engineer"; "teacher"; "lawyer";
             "businesswoman"]%string;
    map str ["artist"; "writer"; "scientist"; "manager";
             "consultant"]%string;
    map str ["designer"; "architect"; "journalist"; "researcher";
             "entrepreneur"]%string ].

(** The result, the random source and the instance afterwards.  The index
    comes from [range(count - 1)] and is never negative. *)
Definition _create_rule_based_variation (self : LLMBiasRewriter) (t : text)
           (bias_types : list text) (variation_index : nat) (g : Rng)
  : RewriteResult * Rng * LLMBiasRewriter :=
  let self :=
    if variation_index <? length profession_sets
    then {| profession_pool := nth variation_index profession_sets [] |}
    else self in
  let '(result, g) := rewrite_text_rule_based_of self t bias_types g in
  ({| original_text := original_text result;
      rewritten_text := rewritten_text result;
      quality_score :=
        qmax 60 (quality_score result - of_nat variation_index * 5)%Q;
      bias_reduction := bias_reduction result;
      improvements := improvements result;
      rewrite_type := rewrite_type result |}, g, self).

(** *** [generate_multiple_rewrites]

    [apis i] is the hosted model as it answers during turn [i] of the
    loop.  The bare [except:] hands every exception of the turn to the
    variation, which does not raise. *)
Definition generate_multiple_rewrites (self : LLMBiasRewriter)
           (apis : nat -> ChatCompletion) (t : text) (bias_types : list text)
           (count : Z) (g : Rng)
  : list RewriteResult * Rng * list LogRecord * LLMBiasRewriter :=
  let '(rule_based, g) := rewrite_text_rule_based_of self t bias_types g in
  let '(rewrites, g, log, self) :=
    fold_left
      (fun (st : list RewriteResult * Rng * list LogRecord * LLMBiasRewriter)
           (i : nat) =>
         let '(rewrites, g, log, self) := st in
         match rewrite_text_llm_of self (apis i) t bias_types g with
         | Returns (llm_rewrite, g', records) =>
             (rewrites ++ [llm_rewrite], g', log ++ records, self)
         | Raises _ =>
             let '(variation, g', self') :=
               _create_rule_based_variation self t bias_types i g in
             (rewrites ++ [variation], g', log, self')
         end)
      (seq 0 (Z.to_nat (count - 1))) ([rule_based], g, [], self) in
  (sort_by_quality rewrites, g, log, self).

End Callers.
Import Callers.

(* ===================================================================== *)
(** ** [metrics_evaluator.py]: scoring a rewrite                          *)
(* ===================================================================== *)

Module Evaluator.

(** The values an attribute of a result can hold. *)
Inductive value :=
| VText (t : text)
| VNum (q : Q)
| VList (l : list text).

(** [_evaluate_single_rewrite] takes any object and reads attributes off
    it by name; an object is what it answers to an attribute name. *)
Definition object := text -> outcome value.

Definition AttributeError (attr : text) : exn :=
  Exception (str "'RewriteResult' object has no attribute '" ++ attr
             ++ str "'").

(** The attributes of the dataclass [RewriteResult]. *)
Definition object_of (r : RewriteResult) : object :=
  fun attr =>
    if text_eqb attr (str "original_text") then Returns (VText (original_text r))
    else if text_eqb attr (str "rewritten_text")
    then Returns (VText (rewritten_text r))
    else if text_eqb attr (str "quality_score")
    then Returns (VNum (quality_score r))
    else if text_eqb attr (str "bias_reduction")
    then Returns (VNum (bias_reduction r))
    else if text_eqb attr (str "improvements")
    then Returns (VList (improvements r))
    else if text_eqb attr (str "rewrite_type")
    then Returns (VText (rewrite_type r))
    else Raises (AttributeError attr).

Definition bind {A B : Type} (m : outcome A) (f : A -> outcome B)
  : outcome B :=
  match m with
  | Returns a => f a
  | Raises e => Raises e
  end.

Notation "x <- m ;; k" := (bind m (fun x => k))
  (at level 61, m at next level, right associativity).

(** String methods are missing on the other kinds of value, division on
    text and lists. *)
Definition as_text (v : value) : outcome text :=
  match v with
  | VText t => Returns t
  | VNum _ => Raises (Exception (str "object has no attribute 'split'"))
  | VList _ => Raises (Exception (str "'list' object has no attribute 'split'"))
  end.

Definition as_number (v : value) : outcome Q :=
  match v with
  | VNum q => Returns q
  | _ => Raises (Exception (str "unsupported operand type(s) for /"))
  end.

Record QualityMetrics := {
  narrative_preservation : Q;
  character_preservation : Q;
  readability : Q;
  bias_improvement : Q;
  length_appropriateness : Q;
  overall_quality : Q
}.

(** [len([s for s in text.split('.') if s.strip()])] *)
Definition dotted_sentences (s : text) : nat :=
  length (filter (fun piece => nonempty (strip piece))
                 (split_char "."%char s)).

Definition _evaluate_single_rewrite (original : text) (rewrite_result : object)
  : outcome QualityMetrics :=
  v <- rewrite_result (str "rewritten_text") ;;
  rewritten <- as_text v ;;
  let original_sentences := dotted_sentences original in
  let rewritten_sentences := dotted_sentences rewritten in
  let narrative :=
    if abs_diff original_sentences rewritten_sentences <=? 1 then 20%Q
    else if abs_diff original_sentences rewritten_sentences <=? 2 then 15%Q
    else 10%Q in
  let original_names := dedup (findall false cap_word original) in
  let rewritten_names := dedup (findall false cap_word rewritten) in
  let character :=
    match original_names with
    | [] => 20%Q
    | _ =>
        (of_nat (length (filter (fun n => mem n rewritten_names)
                                original_names))
         / of_nat (length original_names) * 20)%Q
    end in
  let readable :=
    if nonempty rewritten
       && Qle_bool (of_nat (length (split_ws original)) * (8 # 10))%Q
                   (of_nat (length (split_ws rewritten)))
    then 20%Q else 10%Q in
  v <- rewrite_result (str "bias_reduction_score") ;;
  bias_reduction_score <- as_number v ;;
  let bias := qmin 20 (bias_reduction_score / 5)%Q in
  let length_ratio :=
    if 0 <? length original
    then (of_nat (length rewritten) / of_nat (length original))%Q
    else 1%Q in
  let appropriateness :=
    if Qle_bool (8 # 10) length_ratio && Qle_bool length_ratio (15 # 10)
    then 20%Q
    else if Qle_bool (6 # 10) length_ratio && Qle_bool length_ratio 2
    then 15%Q
    else 10%Q in
  Returns {| narrative_preservation := narrative;
             character_preservation := character;
             readability := readable;
             bias_improvement := bias;
             length_appropriateness := appropriateness;
             overall_quality :=
               qsum [narrative; character; readable; bias;
                     appropriateness] |}.

Record RewriteMetrics := {
  average_quality_score : Q;
  quality_5_point_scale : Q;
  average_bias_reduction : Q;
  meets_quality_target : bool;
  individual_scores : list Q;
  individual_bias_reductions : list value
}.

Definition default_test_cases : list text :=
  map str
    ["Sonia Saxena, daughter of Mr Saxena, is beautiful and waits for her father's decision";
     "Priya, wife of businessman Raj, hopes for a better future";
     "Beautiful Meera receives a car as a birthday present";
     "Kavya belongs to a wealthy family and follows her husband's advice";
     "Gorgeous Anjali is known for her stunning appearance"]%string.

Definition all_bias_types : list text :=
  [occupation_gap_key; agency_gap_key; appearance_focus_key;
   relationship_defining_key].

(** What the loop of [evaluate_rewrite_quality] carries: the two score
    lists, the lines printed and the random source. *)
Definition eval_state :=
  (list Q * list value * list text * Rng)%type.

Definition failed_case (st : list Q * list value * list text) (e : exn)
  : list Q * list value * list text :=
  let '(quality_scores, bias_reduction_scores, printed) := st in
  (quality_scores ++ [0%Q], bias_reduction_scores ++ [VNum 0],
   printed ++ [str "Error evaluating rewrite: " ++ exn_str e]).

(** One turn of the loop, with a rewriter of class [LLMBiasRewriter]: each
    statement of the [try] block keeps its effect when a later one
    raises. *)
Definition evaluate_case (st : eval_state) (test_case : text) : eval_state :=
  let '(quality_scores, bias_reduction_scores, printed, g) := st in
  let '(result, g) := rewrite_text_rule_based test_case all_bias_types g in
  let rewrite_result := object_of result in
  match _evaluate_single_rewrite test_case rewrite_result with
  | Raises e =>
      (failed_case (quality_scores, bias_reduction_scores, printed) e, g)
  | Returns quality_metrics =>
      let quality_scores := quality_scores ++ [overall_quality quality_metrics] in
      match rewrite_result (str "bias_reduction_score") with
      | Raises e =>
          (failed_case (quality_scores, bias_reduction_scores, printed) e, g)
      | Returns v => (quality_scores, bias_reduction_scores ++ [v], printed, g)
      end
  end.

(** [np.mean] of a list of attribute values. *)
Fixpoint numbers (l : list value) : outcome (list Q) :=
  match l with
  | [] => Returns []
  | v :: l' =>
      q <- as_number v ;;
      qs <- numbers l' ;;
      Returns (q :: qs)
  end.

(** [evaluate_rewrite_quality]: the metrics, the lines printed and the
    random source afterwards.  [np.mean] of an empty list is not a number;
    the model is meant for [None] and for non-empty lists of test cases. *)
Definition evaluate_rewrite_quality (test_cases : option (list text))
           (g : Rng) : outcome (RewriteMetrics * list text * Rng) :=
  let test_cases :=
    match test_cases with
    | None => default_test_cases
    | Some l => l
    end in
  let '(quality_scores, bias_reduction_scores, printed, g) :=
    fold_left evaluate_case test_cases ([], [], [], g) in
  let avg_quality := np_mean quality_scores in
  reductions <- numbers bias_reduction_scores ;;
  let avg_bias_reduction := np_mean reductions in
  let quality_5_point := (avg_quality / 100 * 5)%Q in
  Returns ({| average_quality_score := avg_quality;
              quality_5_point_scale := quality_5_point;
              average_bias_reduction := avg_bias_reduction;
              meets_quality_target := Qle_bool 4 quality_5_point;
              individual_scores := quality_scores;
              individual_bias_reductions := bias_reduction_scores |},
           printed, g).

End Evaluator.

(* ===================================================================== *)
(** ** The vocabulary of the statements                                   *)
(* ===================================================================== *)

(** *** The formulas of the scorer *)

(** The formulas of the design document, stated over the female and
    male subsets of a character list with integer totals and counts. *)
Definition females (cs : list Character) : list Character :=
  filter (is_gender female) cs.
Definition males (cs : list Character) : list Character :=
  filter (is_gender male) cs.

Definition has_profession (c : Character) : bool := nonempty (professions c).
Definition relationship_only_defined (c : Character) : bool :=
  nonempty (relationships c) && negb (nonempty (professions c)).

Definition ratio (n d : nat) : Q := (of_nat n / of_nat d)%Q.
Definition clamp0 (x : Q) : Q := if Qle_bool 0 x then x else 0%Q.

Definition mean_agency (l : list Character) : Q :=
  (inject_Z (zsum (map agency_level l)) / of_nat (length l))%Q.
Definition mean_appearance (l : list Character) : Q :=
  (inject_Z (zsum (map (fun c => Z.of_nat (length (appearance_descriptions c)))
                       l))
   / of_nat (length l))%Q.
Definition mean_screen_time (l : list Character) : Q :=
  (qsum (map screen_time l) / of_nat (length l))%Q.

Definition occupationGap (cs : list Character) : Q :=
  let F := females cs in
  let M := males cs in
  match F with
  | [] => 0%Q
  | _ => clamp0 ((ratio (count_if has_profession M) (Nat.max (length M) 1)
                  - ratio (count_if has_profession F) (length F)) * 100)%Q
  end.

Definition agencyGap (cs : list Character) : Q :=
  let F := females cs in
  let M := males cs in
  match F with
  | [] => 0%Q
  | _ =>
      let meanMaleAgency :=
        match M with [] => 5%Q | _ => mean_agency M end in
      clamp0 ((meanMaleAgency - mean_agency F) * 10)%Q
  end.

Definition appearanceFocus (cs : list Character) : Q :=
  let F := females cs in
  let M := males cs in
  match F with
  | [] => 0%Q
  | _ =>
      let meanMaleApp :=
        match M with [] => 0%Q | _ => mean_appearance M end in
      clamp0 ((mean_appearance F - meanMaleApp) * 25)%Q
  end.

Definition relationshipDefining (cs : list Character) : Q :=
  let F := females cs in
  match F with
  | [] => 0%Q
  | _ => (ratio (count_if relationship_only_defined F) (length F) * 100)%Q
  end.

Definition dialogueImbalance (cs : list Character) : Q :=
  let F := females cs in
  let M := males cs in
  let dF := zsum (map dialogue_count F) in
  let dM := zsum (map dialogue_count M) in
  match F, M with
  | [], _ => 0%Q
  | _, [] => 0%Q
  | _, _ =>
      if (dF + dM =? 0)%Z then 0%Q
      else clamp0 ((ratio (length F) (length F + length M)
                    - inject_Z dF / inject_Z (dF + dM)) * 100)%Q
  end.

(** The design document gives the screen-time formula without a rule for
    an empty male subset; the value 0 there is the code's. *)
Definition screenTimeImbalance (cs : list Character) : Q :=
  let F := females cs in
  let M := males cs in
  match F, M with
  | [], _ => 0%Q
  | _, [] => 0%Q
  | _, _ => clamp0 ((mean_screen_time M - mean_screen_time F) * 2)%Q
  end.

(** Two characters to evaluate the scorer on. *)
Definition rohit : Character :=
  {| name := str "Rohit"; gender := male;
     professions := [str "engineer"]; relationships := [];
     agency_level := 7; appearance_descriptions := [];
     dialogue_count := 2; screen_time := 5 # 2 |}.

Definition meera : Character :=
  {| name := str "Meera"; gender := female;
     professions := []; relationships := [str "wife of"];
     agency_level := 4; appearance_descriptions := [str "gorgeous"];
     dialogue_count := 1; screen_time := 3 # 2 |}.

(** *** What a match consumes *)

Section MatchSpec.

Variable ic : bool.
Variable P : ascii -> bool.

(** Every character class the pattern consumes with lies within [P];
    a lookahead consumes nothing. *)
Fixpoint covers (r : regex) : Prop :=
  match r with
  | RSet cs | ROpt cs | RStar cs | RPlus cs =>
      forall c, cs_mem ic cs c = true -> P c = true
  | RLit l => forall x c, In x l -> cs_mem ic (one x) c = true -> P c = true
  | RSeq a b | RAlt a b => covers a /\ covers b
  | RGroup a => covers a
  | RWordB => True
  | RLook _ => True
  end.

(** From [st] the matcher has read [w] and stands at [st']. *)
Definition reads (st st' : mstate) (w : text) : Prop :=
  rest st = w ++ rest st' /\ used st' = used st + length w
  /\ forallb P w = true.

End MatchSpec.

(** *** Letters and sentence terminators *)

Definition is_letter (c : ascii) : bool := is_upper c || is_lower c.
Definition not_terminator (c : ascii) : bool := negb (is_terminator c).

(** *** The gazetteer example *)

Definition sonia_text : text :=
  str "Sonia Saxena, daughter of Mr Saxena, is beautiful and comes from a wealthy family".

(** *** The quality rubric *)

(** The rubric as the design document words it, for comparison with
    [_calculate_quality_score]: five components, each 20 at most, none of
    which depends on the improvements list. *)
Definition sentence_count (s : text) : nat :=
  length (findall false sentence_end_re s).

Definition rubric_sentences (original rewritten : text) : Q :=
  let d := abs_diff (sentence_count original) (sentence_count rewritten) in
  if d <=? 1 then 20%Q else if d <=? 2 then 15%Q else 10%Q.

Definition rubric_names (original rewritten : text) : Q :=
  name_preservation original rewritten.

Definition rubric_words (original rewritten : text) : Q :=
  if Qle_bool (of_nat (length (split_ws original)) * (8 # 10))%Q
              (of_nat (length (split_ws rewritten)))
  then 20%Q else 10%Q.

Definition rubric_bias (original rewritten : text) (bts : list text) : Q :=
  qmin 20 (_calculate_bias_reduction original rewritten bts / 5)%Q.

Definition rubric_length (original rewritten : text) : Q :=
  let length_ratio :=
    if 0 <? length original
    then (of_nat (length rewritten) / of_nat (length original))%Q
    else 1%Q in
  if Qle_bool (8 # 10) length_ratio && Qle_bool length_ratio (15 # 10)
  then 20%Q
  else if Qle_bool (6 # 10) length_ratio && Qle_bool length_ratio 2
  then 15%Q
  else 10%Q.

Definition rubric_quality_score (original rewritten : text)
           (bts : list text) : Q :=
  (rubric_sentences original rewritten + rubric_names original rewritten
   + rubric_words original rewritten + rubric_bias original rewritten bts
   + rubric_length original rewritten)%Q.

(** What [_calculate_quality_score] does compute, with the tests on the
    length ratio written as integer comparisons of the two lengths. *)
Definition length_points (original rewritten : text) : Q :=
  let lo := Z.of_nat (length original) in
  let lr := Z.of_nat (length rewritten) in
  if (lo =? 0)%Z then 20%Q
  else if (8 * lo <=? 10 * lr)%Z && (10 * lr <=? 15 * lo)%Z then 20%Q
  else if (6 * lo <=? 10 * lr)%Z && (lr <=? 2 * lo)%Z then 10%Q
  else 0%Q.

Definition names_of (s : text) : list text := dedup (findall false cap_word s).

Definition kept_names (original rewritten : text) : nat :=
  length (filter (fun n => mem n (names_of rewritten)) (names_of original)).

Definition name_points (original rewritten : text) : Q :=
  match names_of original with
  | [] => 20%Q
  | _ => (of_nat (20 * kept_names original rewritten)
          / of_nat (length (names_of original)))%Q
  end.

Definition flow_points (original rewritten : text) : Q :=
  let d := abs_diff (sentence_count original) (sentence_count rewritten) in
  if d <=? 2 then 20%Q else if d <=? 4 then 10%Q else 0%Q.

Definition improvement_points (imps : list text) : Q :=
  of_nat (5 * Nat.min 4 (length imps)).

Definition plain_char (c : ascii) : bool :=
  is_word c || is_space c || existsb (ascii_eqb c) (str ".,!?;:-").

Definition readability_points (rewritten : text) : Q :=
  if nonempty rewritten && forallb plain_char rewritten then 20%Q else 0%Q.

(** *** A failing hosted model and a random source *)

(** A hosted model whose every call times out. *)
Definition failing_api : ChatCompletion :=
  fun _ _ => Raises (Exception (str "Connection timed out")).

(** A hosted model that answers every request with the one word 'waits'. *)
Definition terse_api : ChatCompletion :=
  fun _ _ => Returns [str "waits"].

(** A random source whose n-th draw is n. *)
Definition fixed_rng : Rng := {| draws := fun n => n; pos := 0 |}.

(** *** The structural rules and their annotations *)

(** The improvement annotations in a state of the structural loop. *)
Definition annotations (st : text * list text * Rng) : list text :=
  snd (fst st).

(** The number of annotations one entry of the flagged-dimension list can
    add: one per rule of its table, and one more for the injected
    profession of [occupation_gap]. *)
Definition rules_budget (bias_type : text) : nat :=
  if text_eqb bias_type occupation_gap_key
  then length occupation_patterns + 1
  else if text_eqb bias_type agency_gap_key then length passive_to_active
  else if text_eqb bias_type appearance_focus_key
  then length appearance_to_trait
  else if text_eqb bias_type relationship_defining_key
  then length add_independence
  else 0.

(** A text with two matches of the rule for 'follows'. *)
Definition two_followers : text :=
  str "Priya follows him. Rani follows her.".

Definition follows_rule : rule := nth 3 passive_to_active (RLit [], []).

(** [n] copies of a block of text, and the block that matches the rule
    for 'follows' with its rewriting. *)
Fixpoint copies (n : nat) (b : text) : text :=
  match n with
  | 0 => []
  | S k => b ++ copies k b
  end.

Definition follower : text := str "Rani follows him. ".
Definition collaborator : text := str "Rani collaborates with him. ".

(** The pattern of the i-th rule of [passive_to_active]. *)
Definition rule_pattern (i : nat) : regex :=
  fst (nth i passive_to_active (RLit [], [])).

(** *** Replacing every match *)

(** The part of the text a segment stands for. *)
Definition source (sg : seg) : text :=
  match sg with
  | Lit c => [c]
  | Hit m _ => m
  end.

(** The character before the position reached after [m]. *)
Definition before (p : option ascii) (m : text) : option ascii :=
  fold_left (fun _ c => Some c) m p.

(** The pattern has no (non-empty) match that starts here. *)
Definition no_match_here (pat : regex) (p : option ascii) (s : text) : Prop :=
  match match_at false pat p s with
  | Some st => used st = 0
  | None => True
  end.

(** The walk of [re.sub] and [re.finditer] without a count: at a position
    where the pattern matches, the match is taken and the walk goes on
    behind it; elsewhere one character is passed.  No position outside a
    match is left untried. *)
Inductive walk (pat : regex) : option ascii -> text -> list seg -> Prop :=
| walk_end (p : option ascii) : walk pat p [] []
| walk_pass (p : option ascii) (c : ascii) (s : text) (segs : list seg) :
    no_match_here pat p (c :: s) ->
    walk pat (Some c) s segs ->
    walk pat p (c :: s) (Lit c :: segs)
| walk_hit (p : option ascii) (c : ascii) (s : text) (st : mstate)
           (j : nat) (segs : list seg) :
    match_at false pat p (c :: s) = Some st ->
    used st = S j ->
    walk pat (before p (firstn (S j) (c :: s))) (skipn (S j) (c :: s)) segs ->
    walk pat p (c :: s) (Hit (firstn (S j) (c :: s)) (caps st) :: segs).

(** All non-overlapping matches of a pattern, left to right, with the
    characters between them. *)
Definition matches_of (pat : regex) (t : text) : list seg :=
  scan false pat None None 0 t.

(** One structural rule as it works: when the pattern has a match, every
    non-overlapping match is replaced by its expansion and one annotation
    is added; otherwise nothing changes. *)
Definition replace_every_match (msg : text) (st : text * list text)
           (r : rule) : text * list text :=
  match hits (matches_of (fst r) (fst st)) with
  | [] => st
  | _ :: _ =>
      (concat (map (render (snd r)) (matches_of (fst r) (fst st))),
       snd st ++ [msg])
  end.

(** *** Names and tallies *)

(** A capital letter followed by one or more small letters. *)
Definition capitalised (nm : text) : bool :=
  match nm with
  | c :: d :: w => is_upper c && forallb is_lower (d :: w)
  | _ => false
  end.

(** How often a word occurs in a list of words. *)
Definition tally (k : text) (words : list text) : nat :=
  length (filter (text_eqb k) words).

(** The count a dictionary of counts holds for a key, 0 without the key. *)
Fixpoint lookup (k : text) (counts : list (text * nat)) : nat :=
  match counts with
  | [] => 0
  | (k', n) :: counts' => if text_eqb k' k then n else lookup k counts'
  end.

(** *** Occurrences by position *)

Definition b2n (b : bool) : nat := if b then 1 else 0.

(** The number of positions of [s] at which [p] begins. *)
Fixpoint occ (p s : text) : nat :=
  match s with
  | [] => 0
  | _ :: s' => b2n (startswith p s) + occ p s'
  end.

(** The positions at which 'he' begins and 'her' does not. *)
Definition he_not_her (s : text) : bool :=
  startswith (str "he") s && negb (startswith (str "her") s).

Fixpoint bare_he (s : text) : nat :=
  match s with
  | [] => 0
  | _ :: s' => b2n (he_not_her s) + bare_he s'
  end.

(** *** Evidence of a character *)

(** A list of strings without repetition, as a test. *)
Fixpoint distinct (l : list text) : bool :=
  match l with
  | [] => true
  | x :: l' => negb (mem x l') && distinct l'
  end.

(** Distinct entries of a keyword table, in any number. *)
Definition drawn_from (table found : list text) : Prop :=
  NoDup found /\ incl found table.

(** *** The four dimensions that drive rewriting *)

Definition all_keys : list text :=
  [occupation_gap_key; agency_gap_key; appearance_focus_key;
   relationship_defining_key].

(** What the scorer needs to know of a character for its results to stay
    bounded. *)
Definition bounded_evidence (c : Character) : Prop :=
  (1 <= agency_level c <= 10)%Z
  /\ length (appearance_descriptions c) <= 10
  /\ (0 <= dialogue_count c)%Z.

(** From [(t, imps)] to [(t', imps')] the log has only grown, and the text
    has changed only if the log has. *)
Definition logged (t : text) (imps : list text) (t' : text)
           (imps' : list text) : Prop :=
  exists more, imps' = imps ++ more /\ (more = [] -> t' = t).

(** *** Ranked results *)

(** [a] may stand before [b] in a list sorted by decreasing quality. *)
Definition by_quality (a b : RewriteResult) : Prop :=
  (quality_score b <= quality_score a)%Q.

(** The results of [rewrite_text_rule_based] from the states
    [random.seed(0)], [random.seed(1)], ..., in that order. *)
Definition seeded_results (seed : nat -> Rng) (t : text)
           (bias_types : list text) (n : nat) : list RewriteResult :=
  map (fun i => fst (rewrite_text_rule_based t bias_types (seed i)))
      (seq 0 n).

(** A script with two men and a person whose gender the detector cannot
    tell, and no woman. *)
Definition men_only : text :=
  str "Rohit leads the team. Rohit builds a bridge. Vijay is handsome. Vijay waits for Rohit. Tapan runs. Tapan decides.".

(** *** Inputs for the hosted-model path, the scorer and the evaluator *)

(** A hosted model whose one choice is always [answer]. *)
Definition echo_api (answer : text) : ChatCompletion :=
  fun _ _ => Returns [answer].

(** Every profession word of the scorer, with one passive verb. *)
Definition all_professions_text : text :=
  str "doctor engineer teacher lawyer professional works career waits".

(** The line [evaluate_rewrite_quality] prints for a result without the
    attribute [bias_reduction_score]. *)
Definition missing_score_line : text :=
  str "Error evaluating rewrite: 'RewriteResult' object has no attribute 'bias_reduction_score'".

(** An object with the two attributes [_evaluate_single_rewrite] reads. *)
Definition scored_object (rewritten : text) (score : Q) : Evaluator.object :=
  fun attr =>
    if text_eqb attr (str "rewritten_text")
    then Returns (Evaluator.VText rewritten)
    else if text_eqb attr (str "bias_reduction_score")
    then Returns (Evaluator.VNum score)
    else Raises (Evaluator.AttributeError attr).

(* ===================================================================== *)
(** ** Basic facts about text and rational arithmetic                     *)
(* ===================================================================== *)

Section TextFacts.

Lemma ascii_eqb_eq (a b : ascii) : ascii_eqb a b = true <-> a = b.
Proof. apply Ascii.eqb_eq. Qed.

Lemma text_eqb_eq (a b : text) : text_eqb a b = true <-> a = b.
Proof.
  revert b; induction a as [|x a IH]; intros [|y b]; simpl;
    try (split; [discriminate | discriminate]); try tauto.
  rewrite andb_true_iff, ascii_eqb_eq, IH.
  split; [intros [-> ->]; reflexivity | intros H; inversion H; auto].
Qed.

Lemma text_eqb_refl (a : text) : text_eqb a a = true.
Proof. apply text_eqb_eq; reflexivity. Qed.

Lemma text_eqb_neq (a b : text) : a <> b -> text_eqb a b = false.
Proof.
  intros H; destruct (text_eqb a b) eqn:E; [|reflexivity].
  apply text_eqb_eq in E; contradiction.
Qed.

End TextFacts.

Section RationalFacts.

Lemma qmax_compat (a a' b b' : Q) :
  (a == a')%Q -> (b == b')%Q -> (qmax a b == qmax a' b')%Q.
Proof.
  intros Ha Hb; unfold qmax.
  destruct (Qle_bool b a) eqn:E, (Qle_bool b' a') eqn:E'; try assumption.
  - apply Qle_bool_iff in E. rewrite Ha, Hb in E.
    apply Qle_bool_iff in E. congruence.
  - apply Qle_bool_iff in E'. rewrite <- Ha, <- Hb in E'.
    apply Qle_bool_iff in E'. congruence.
Qed.

Lemma qmin_compat (a a' b b' : Q) :
  (a == a')%Q -> (b == b')%Q -> (qmin a b == qmin a' b')%Q.
Proof.
  intros Ha Hb; unfold qmin.
  destruct (Qle_bool a b) eqn:E, (Qle_bool a' b') eqn:E'; try assumption.
  - apply Qle_bool_iff in E. rewrite Ha, Hb in E.
    apply Qle_bool_iff in E. congruence.
  - apply Qle_bool_iff in E'. rewrite <- Ha, <- Hb in E'.
    apply Qle_bool_iff in E'. congruence.
Qed.

Lemma qmax_lower (a b : Q) : (a <= qmax a b)%Q.
Proof.
  unfold qmax; destruct (Qle_bool b a) eqn:E; [apply Qle_refl|].
  destruct (Qlt_le_dec b a) as [H|H]; [|exact H].
  apply Qlt_le_weak, Qle_bool_iff in H; congruence.
Qed.

Lemma qmax_cases (a b : Q) :
  ((b <= a)%Q /\ qmax a b = a) \/ ((a < b)%Q /\ qmax a b = b).
Proof.
  unfold qmax; destruct (Qle_bool b a) eqn:E.
  - left; split; [apply Qle_bool_iff; exact E | reflexivity].
  - right; split; [|reflexivity].
    apply Qnot_le_lt; intros H; apply Qle_bool_iff in H; congruence.
Qed.

Lemma qmin_cases (a b : Q) :
  ((a <= b)%Q /\ qmin a b = a) \/ ((b < a)%Q /\ qmin a b = b).
Proof.
  unfold qmin; destruct (Qle_bool a b) eqn:E.
  - left; split; [apply Qle_bool_iff; exact E | reflexivity].
  - right; split; [|reflexivity].
    apply Qnot_le_lt; intros H; apply Qle_bool_iff in H; congruence.
Qed.

Lemma of_nat_nonneg (n : nat) : (0 <= of_nat n)%Q.
Proof.
  unfold of_nat, Qle; simpl. lia.
Qed.

Lemma of_nat_pos (n : nat) : 0 < n -> (0 < of_nat n)%Q.
Proof.
  intros H; unfold of_nat, Qlt; simpl. lia.
Qed.

(** The sum of injected integers is the injected integer sum. *)
Lemma qsum_inject (l : list Z) :
  (qsum (map inject_Z l) == inject_Z (zsum l))%Q.
Proof.
  induction l as [|z l IH]; simpl; [reflexivity|].
  rewrite IH, inject_Z_plus; reflexivity.
Qed.

Lemma qsum_of_nat (l : list nat) :
  (qsum (map of_nat l) == of_nat (fold_right Nat.add 0%nat l))%Q.
Proof.
  induction l as [|n l IH]; simpl; [reflexivity|].
  rewrite IH. unfold of_nat. rewrite Nat2Z.inj_add, inject_Z_plus.
  reflexivity.
Qed.

End RationalFacts.

Add Parametric Morphism : qmax
  with signature Qeq ==> Qeq ==> Qeq as qmax_morphism.
Proof. intros; apply qmax_compat; assumption. Qed.

Add Parametric Morphism : qmin
  with signature Qeq ==> Qeq ==> Qeq as qmin_morphism.
Proof. intros; apply qmin_compat; assumption. Qed.

(* ===================================================================== *)
(** ** The scorer                                                         *)
(* ===================================================================== *)

Section Scorer.

Lemma filter_none {A : Type} (p : A -> bool) (l : list A) :
  (forall x, In x l -> p x = false) -> filter p l = [].
Proof.
  induction l as [|x l IH]; simpl; intros H; [reflexivity|].
  rewrite (H x (or_introl eq_refl)). apply IH; intros y Hy; apply H; auto.
Qed.

Lemma no_female_filter (characters : list Character) :
  (forall c, In c characters -> gender c <> female) ->
  filter (is_gender female) characters = [].
Proof.
  intros H; apply filter_none; intros c Hc.
  apply text_eqb_neq, H, Hc.
Qed.

(** C1. A character list without any character of gender 'female' scores
    0 on all six dimensions, and so 0 overall. *)
Theorem C1_no_female_scores_zero (characters : list Character) :
  (forall c, In c characters -> gender c <> female) ->
  let b := calculate_comprehensive_bias_scores characters in
  (occupation_gap b == 0 /\ agency_gap b == 0 /\ appearance_focus b == 0 /\
   relationship_defining b == 0 /\ dialogue_imbalance b == 0 /\
   screen_time_imbalance b == 0 /\ overall b == 0)%Q.
Proof.
  intros H; unfold calculate_comprehensive_bias_scores.
  destruct characters as [|c cs]; [simpl; repeat split; reflexivity|].
  rewrite (no_female_filter _ H); simpl.
  repeat split; reflexivity.
Qed.

Lemma clamp0_qmax (x y : Q) : (x == y)%Q -> (qmax 0 x == clamp0 y)%Q.
Proof.
  intros E; unfold qmax, clamp0.
  destruct (Qle_bool x 0) eqn:A, (Qle_bool 0 y) eqn:B.
  - apply Qle_bool_iff in A, B. rewrite E in A. apply Qle_antisym; assumption.
  - reflexivity.
  - exact E.
  - assert (H : (0 < x)%Q).
    { apply Qnot_le_lt; intros H; apply Qle_bool_iff in H; congruence. }
    rewrite E in H. apply Qlt_le_weak, Qle_bool_iff in H. congruence.
Qed.

Lemma np_mean_agency (l : list Character) :
  (np_mean (map (fun c => inject_Z (agency_level c)) l) == mean_agency l)%Q.
Proof.
  unfold np_mean, mean_agency.
  rewrite <- (map_map agency_level inject_Z), qsum_inject, !length_map.
  reflexivity.
Qed.

Lemma np_mean_appearance (l : list Character) :
  (np_mean (map (fun c => of_nat (length (appearance_descriptions c))) l)
   == mean_appearance l)%Q.
Proof.
  unfold np_mean, mean_appearance, of_nat.
  rewrite <- (map_map (fun c => Z.of_nat (length (appearance_descriptions c)))
                      inject_Z), qsum_inject, !length_map.
  reflexivity.
Qed.

Lemma np_mean_six (a b c d e f : Q) :
  (np_mean [a; b; c; d; e; f] == (a + b + c + d + e + f) / 6)%Q.
Proof.
  unfold np_mean, qsum; simpl.
  change (of_nat 6) with 6%Q. field.
Qed.

(** C2. The overall score is the exact mean of the six dimensions of the
    same result, and every dimension has the value of its closed-form
    formula on the input characters. *)
Theorem C2_overall_is_mean_and_closed_forms (characters : list Character) :
  let b := calculate_comprehensive_bias_scores characters in
  (overall b ==
     (occupation_gap b + agency_gap b + appearance_focus b
      + relationship_defining b + dialogue_imbalance b
      + screen_time_imbalance b) / 6 /\
   occupation_gap b == occupationGap characters /\
   agency_gap b == agencyGap characters /\
   appearance_focus b == appearanceFocus characters /\
   relationship_defining b == relationshipDefining characters /\
   dialogue_imbalance b == dialogueImbalance characters /\
   screen_time_imbalance b == screenTimeImbalance characters)%Q.
Proof.
  unfold calculate_comprehensive_bias_scores, occupationGap, agencyGap,
    appearanceFocus, relationshipDefining, dialogueImbalance,
    screenTimeImbalance, females, males.
  destruct characters as [|c0 cs]; [simpl; repeat split; reflexivity|].
  set (F := filter (is_gender female) (c0 :: cs)).
  set (M := filter (is_gender male) (c0 :: cs)).
  cbn [occupation_gap agency_gap appearance_focus relationship_defining
       dialogue_imbalance screen_time_imbalance overall].
  split; [apply np_mean_six|].
  split.
  { unfold _calculate_occupation_gap.
    destruct F; [reflexivity|]. apply clamp0_qmax. reflexivity. }
  split.
  { unfold _calculate_agency_gap.
    destruct F as [|f F']; [reflexivity|]. apply clamp0_qmax.
    rewrite (np_mean_agency (f :: F')).
    destruct M as [|m M']; [reflexivity|].
    rewrite (np_mean_agency (m :: M')). reflexivity. }
  split.
  { unfold _calculate_appearance_focus.
    destruct F as [|f F']; [reflexivity|]. apply clamp0_qmax.
    rewrite (np_mean_appearance (f :: F')).
    destruct M as [|m M']; [reflexivity|].
    rewrite (np_mean_appearance (m :: M')). reflexivity. }
  split.
  { unfold _calculate_relationship_defining.
    destruct F; reflexivity. }
  split.
  { unfold _calculate_dialogue_imbalance.
    destruct F as [|f F']; [reflexivity|].
    destruct M as [|m M']; [reflexivity|].
    cbn [nonempty negb orb].
    destruct (_ =? 0)%Z; [reflexivity|].
    apply clamp0_qmax. reflexivity. }
  { unfold _calculate_screen_time_imbalance.
    destruct F as [|f F']; [reflexivity|].
    destruct M as [|m M']; [reflexivity|].
    cbn [nonempty negb orb].
    apply clamp0_qmax. unfold mean_screen_time, np_mean.
    rewrite !length_map. reflexivity. }
Qed.

Lemma ratio_nonneg (n d : nat) : (0 <= ratio n d)%Q.
Proof.
  unfold ratio, of_nat, Qdiv, Qle, Qmult, Qinv; simpl.
  destruct (Z.of_nat d) eqn:E; simpl; lia.
Qed.

(** C8. With no male character and at least one female character, the
    male profession rate is taken over the denominator max(|male|,1) and is
    therefore 0, the mean male agency defaults to 5 and the mean male
    appearance count defaults to 0. *)
Theorem C8_empty_male_subset_defaults (characters : list Character) :
  males characters = [] ->
  females characters <> [] ->
  let F := females characters in
  let b := calculate_comprehensive_bias_scores characters in
  let male_prof_rate :=
    ratio (count_if has_profession (males characters))
          (Nat.max (length (males characters)) 1) in
  (male_prof_rate == 0 /\
   occupation_gap b ==
     qmax 0 ((male_prof_rate - ratio (count_if has_profession F) (length F))
             * 100) /\
   agency_gap b == qmax 0 ((5 - mean_agency F) * 10) /\
   appearance_focus b == qmax 0 ((mean_appearance F - 0) * 25))%Q.
Proof.
  intros HM HF F b; subst F b.
  unfold calculate_comprehensive_bias_scores.
  destruct characters as [|c0 cs]; [exfalso; apply HF; reflexivity|].
  unfold males, females in *.
  rewrite HM.
  destruct (filter (is_gender female) (c0 :: cs)) as [|f F'] eqn:EF;
    [exfalso; apply HF; reflexivity|].
  cbn [occupation_gap agency_gap appearance_focus].
  split; [reflexivity|].
  split; [reflexivity|].
  split.
  - unfold _calculate_agency_gap.
    rewrite (np_mean_agency (f :: F')). reflexivity.
  - unfold _calculate_appearance_focus.
    rewrite (np_mean_appearance (f :: F')). reflexivity.
Qed.

(** The scores of a cast with one male character. *)
Lemma C1_no_female_witness :
  (forall c, In c [rohit] -> gender c <> female)
  /\ let b := calculate_comprehensive_bias_scores [rohit] in
     (occupation_gap b == 0 /\ agency_gap b == 0 /\ appearance_focus b == 0 /\
      relationship_defining b == 0 /\ dialogue_imbalance b == 0 /\
      screen_time_imbalance b == 0 /\ overall b == 0)%Q.
Proof.
  assert (H : forall c, In c [rohit] -> gender c <> female).
  { intros c [<-|[]]; discriminate. }
  split; [exact H | apply (C1_no_female_scores_zero [rohit] H)].
Defined.

(** The defaults on a cast with one female character. *)
Lemma C8_empty_male_witness :
  males [meera] = [] /\ females [meera] <> []
  /\ let F := females [meera] in
     let b := calculate_comprehensive_bias_scores [meera] in
     let male_prof_rate :=
       ratio (count_if has_profession (males [meera]))
             (Nat.max (length (males [meera])) 1) in
     (male_prof_rate == 0 /\
      occupation_gap b ==
        qmax 0 ((male_prof_rate - ratio (count_if has_profession F) (length F))
                * 100) /\
      agency_gap b == qmax 0 ((5 - mean_agency F) * 10) /\
      appearance_focus b == qmax 0 ((mean_appearance F - 0) * 25))%Q.
Proof.
  assert (HM : males [meera] = []) by reflexivity.
  assert (HF : females [meera] <> []) by discriminate.
  split; [exact HM|].
  split; [exact HF|].
  apply (C8_empty_male_subset_defaults [meera] HM HF).
Defined.

End Scorer.

(* ===================================================================== *)
(** ** The extractor                                                      *)
(* ===================================================================== *)

Section AgencyLevel.

(** A loop that adds a fixed step for every keyword found adds the step
    once per keyword present. *)
Lemma keyword_loop (p : text -> bool) (d : Z) (keys : list text) (a : Z) :
  fold_left (fun score k => if p k then (score + d)%Z else score) keys a
  = (a + d * Z.of_nat (length (filter p keys)))%Z.
Proof.
  revert a; induction keys as [|k keys IH]; intros a; simpl; [lia|].
  rewrite IH. destruct (p k); simpl length; lia.
Qed.

Lemma agency_level_formula (t : text) :
  _calculate_agency_level t
  = Z.max 1 (Z.min 10 (5 + Z.of_nat (count_in active_verbs (lower t))
                       - Z.of_nat (count_in passive_indicators (lower t)))).
Proof.
  unfold _calculate_agency_level, count_in.
  change (fun score indicator =>
            if contains indicator (lower t) then (score - 1)%Z else score)
    with (fun score indicator =>
            if contains indicator (lower t) then (score + (-1))%Z else score).
  rewrite !keyword_loop. f_equal. f_equal. lia.
Qed.

Lemma agency_level_range (t : text) :
  (1 <= _calculate_agency_level t <= 10)%Z.
Proof. rewrite agency_level_formula. lia. Qed.

Lemma analyze_character_agency (nm t : text) (c : Character) :
  _analyze_character nm t = Some c ->
  exists context, agency_level c = _calculate_agency_level context.
Proof.
  unfold _analyze_character.
  destruct (filter _ _) as [|s ss]; [discriminate|].
  intros H; inversion H; subst; simpl. eexists; reflexivity.
Qed.

Lemma analyze_all_agency (names : list text) (t : text) :
  Forall (fun c => (1 <= agency_level c <= 10)%Z) (analyze_all names t).
Proof.
  induction names as [|nm names IH]; simpl; [constructor|].
  destruct (_analyze_character nm t) as [c|] eqn:E; [|exact IH].
  constructor; [|exact IH].
  destruct (analyze_character_agency _ _ _ E) as [ctx ->].
  apply agency_level_range.
Qed.

Lemma keywords_distinct :
  NoDup active_verbs /\ NoDup passive_indicators.
Proof.
  split; unfold active_verbs, passive_indicators, str; simpl;
    repeat (constructor; [simpl; intuition discriminate|]); constructor.
Qed.

(** C9. The agency level of a context is 5, plus the number of distinct
    active-verb keywords occurring in the lowercased context, minus the
    number of distinct passive-phrase keywords occurring in it, clamped to
    [1,10]; every extracted character has an agency level in that range. *)
Theorem C9_agency_level (t : text) :
  _calculate_agency_level t
  = Z.max 1 (Z.min 10 (5 + Z.of_nat (count_in active_verbs (lower t))
                       - Z.of_nat (count_in passive_indicators (lower t))))
  /\ NoDup active_verbs /\ NoDup passive_indicators
  /\ Forall (fun c => (1 <= agency_level c <= 10)%Z)
            (extract_characters_advanced t).
Proof.
  split; [apply agency_level_formula|].
  split; [apply keywords_distinct|].
  split; [apply keywords_distinct|].
  apply analyze_all_agency.
Qed.

End AgencyLevel.

(** *** What a match consumes *)

Section Matcher.

Variable ic : bool.
Variable P : ascii -> bool.

Lemma reads_nil (st : mstate) : reads P st st [].
Proof. unfold reads; simpl; auto. Qed.

Lemma reads_step (c : ascii) (s' : text) (st st' : mstate) (w : text) :
  rest st = c :: s' -> P c = true -> reads P (step c s' st) st' w ->
  reads P st st' (c :: w).
Proof.
  unfold reads; simpl; intros E Pc (R & U & F).
  rewrite E, R, U, Pc; repeat split; simpl; auto; lia.
Qed.

Lemma reads_trans (a b c : mstate) (w1 w2 : text) :
  reads P a b w1 -> reads P b c w2 -> reads P a c (w1 ++ w2).
Proof.
  unfold reads; intros (R1 & U1 & F1) (R2 & U2 & F2).
  rewrite R1, R2, U2, U1, forallb_app, F1, F2, length_app, <- app_assoc.
  repeat split; auto; lia.
Qed.

Lemma star_sound (cs : cset) (k : mstate -> option mstate) :
  (forall c, cs_mem ic cs c = true -> P c = true) ->
  forall s p n g out,
    star ic cs k p s n g = Some out ->
    exists st' w,
      k st' = Some out
      /\ reads P {| prev := p; rest := s; used := n; caps := g |} st' w.
Proof.
  intros Hcs; induction s as [|c s' IH]; intros p n g out; simpl.
  - intros H; eexists; exists []; split; [exact H | apply reads_nil].
  - destruct (cs_mem ic cs c) eqn:Ec.
    + destruct (star ic cs k (Some c) s' (S n) g) as [r|] eqn:Es.
      * intros H; inversion H; subst r.
        destruct (IH _ _ _ _ Es) as (st' & w & Hk & Hr).
        exists st', (c :: w); split; [exact Hk|].
        eapply reads_step; [reflexivity | apply Hcs, Ec | exact Hr].
      * intros H; eexists; exists []; split; [exact H | apply reads_nil].
    + intros H; eexists; exists []; split; [exact H | apply reads_nil].
Qed.

Lemma lit_sound (l : text) (k : mstate -> option mstate) :
  (forall x c, In x l -> cs_mem ic (one x) c = true -> P c = true) ->
  forall st out,
    lit ic l k st = Some out ->
    exists st' w, k st' = Some out /\ reads P st st' w.
Proof.
  induction l as [|x l IH]; intros Hl st out; simpl.
  - intros H; exists st, []; split; [exact H | apply reads_nil].
  - destruct (rest st) as [|c s'] eqn:Er; [discriminate|].
    destruct (cs_mem ic (one x) c) eqn:Ec; [|discriminate].
    intros H.
    destruct (IH (fun y d Hy => Hl y d (or_intror Hy)) _ _ H)
      as (st' & w & Hk & Hr).
    exists st', (c :: w); split; [exact Hk|].
    eapply reads_step; [exact Er | | exact Hr].
    eapply Hl; [left; reflexivity | exact Ec].
Qed.

Lemma rmatch_sound (r : regex) :
  covers ic P r ->
  forall k st out,
    rmatch ic r k st = Some out ->
    exists st' w, k st' = Some out /\ reads P st st' w.
Proof.
  induction r as [cs | l | a IHa b IHb | a IHa b IHb | cs | cs | cs
                  | a IHa | | a IHa]; simpl; intros Hc k st out H.
  - destruct (rest st) as [|c s'] eqn:Er; [discriminate|].
    destruct (cs_mem ic cs c) eqn:Ec; [|discriminate].
    exists (step c s' st), [c]; split; [exact H|].
    eapply reads_step; [exact Er | apply Hc, Ec | apply reads_nil].
  - eapply lit_sound; eauto.
  - destruct Hc as [Ha Hb].
    destruct (IHa Ha _ _ _ H) as (st1 & w1 & H1 & R1).
    destruct (IHb Hb _ _ _ H1) as (st2 & w2 & H2 & R2).
    exists st2, (w1 ++ w2); split; [exact H2 | eapply reads_trans; eauto].
  - destruct Hc as [Ha Hb].
    destruct (rmatch ic a k st) as [r|] eqn:Ea.
    + inversion H; subst r. eapply IHa; eauto.
    + eapply IHb; eauto.
  - destruct (rest st) as [|c s'] eqn:Er;
      [exists st, []; split; [exact H | apply reads_nil]|].
    destruct (cs_mem ic cs c) eqn:Ec;
      [|exists st, []; split; [exact H | apply reads_nil]].
    destruct (k (step c s' st)) as [r|] eqn:Ek.
    + inversion H; subst r.
      exists (step c s' st), [c]; split; [exact Ek|].
      eapply reads_step; [exact Er | apply Hc, Ec | apply reads_nil].
    + exists st, []; split; [exact H | apply reads_nil].
  - destruct (star_sound cs k Hc _ _ _ _ _ H) as (st' & w & Hk & Hr).
    exists st', w; split; [exact Hk|].
    destruct st; exact Hr.
  - destruct (rest st) as [|c s'] eqn:Er; [discriminate|].
    destruct (cs_mem ic cs c) eqn:Ec; [|discriminate].
    destruct (star_sound cs k Hc _ _ _ _ _ H) as (st' & w & Hk & Hr).
    exists st', (c :: w); split; [exact Hk|].
    eapply reads_step; [exact Er | apply Hc, Ec | exact Hr].
  - destruct (IHa Hc _ _ _ H) as (st' & w & Hk & Hr).
    eexists; exists w; split; [exact Hk|].
    exact Hr.
  - destruct (at_boundary st); [|discriminate].
    exists st, []; split; [exact H | apply reads_nil].
  - destruct (rmatch ic a (fun st' => Some st') st); [|discriminate].
    exists st, []; split; [exact H | apply reads_nil].
Qed.

(** A successful attempt has consumed a prefix of the text, all of whose
    characters are in [P]. *)
Lemma match_at_sound (r : regex) (p : option ascii) (s : text) (st : mstate) :
  covers ic P r ->
  match_at ic r p s = Some st ->
  exists w, s = w ++ rest st /\ used st = length w /\ forallb P w = true.
Proof.
  intros Hc H.
  destruct (rmatch_sound r Hc _ _ _ H) as (st' & w & Hk & R & U & F).
  inversion Hk; subst st'. exists w; simpl in *; auto.
Qed.

Lemma firstn_length_app {A : Type} (w r : list A) :
  firstn (length w) (w ++ r) = w.
Proof.
  induction w as [|x w IH]; simpl; [destruct r; reflexivity|].
  rewrite IH; reflexivity.
Qed.

(** Every match reported by a scan is a non-empty substring of the text
    made of characters of [P]. *)
Lemma scan_hit_sound (r : regex) :
  covers ic P r ->
  forall s cnt p skip m gs,
    In (Hit m gs) (scan ic r cnt p skip s) ->
    m <> [] /\ forallb P m = true /\ exists a b, s = a ++ m ++ b.
Proof.
  intros Hc; induction s as [|c s' IH]; intros cnt p skip m gs; simpl;
    [tauto|].
  assert (Hrec : forall cnt' p' skip',
             In (Hit m gs) (scan ic r cnt' p' skip' s') ->
             m <> [] /\ forallb P m = true
             /\ exists a b, c :: s' = a ++ m ++ b).
  { intros cnt' p' skip' H.
    destruct (IH _ _ _ _ _ H) as (Hm & HP & a & b & E).
    repeat split; auto. exists (c :: a), b; rewrite E; reflexivity. }
  destruct skip as [|j]; [|apply Hrec].
  destruct (if exhausted cnt then None else match_at ic r p (c :: s'))
    as [st|] eqn:Em.
  - destruct (used st) as [|j] eqn:Eu.
    + intros [H|H]; [discriminate | eapply Hrec; eauto].
    + intros [H|H]; [|eapply Hrec; eauto].
      inversion H; subst m gs; clear H.
      destruct (exhausted cnt); [discriminate|].
      destruct (match_at_sound r _ _ _ Hc Em) as (w & E & U & F).
      change (c :: firstn j s') with (firstn (S j) (c :: s')).
      rewrite <- Eu, U, E, firstn_length_app.
      split; [|split; [exact F | exists [], (rest st); reflexivity]].
      destruct w; [simpl in U; lia | discriminate].
  - intros [H|H]; [discriminate | eapply Hrec; eauto].
Qed.

Lemma findall_sound (r : regex) (s m : text) :
  covers ic P r ->
  In m (findall ic r s) ->
  m <> [] /\ forallb P m = true /\ exists a b, s = a ++ m ++ b.
Proof.
  intros Hc; unfold findall; intros H.
  apply in_map_iff in H; destruct H as ([m' gs] & E & H); simpl in E; subst m'.
  assert (Hin : In (Hit m gs) (scan ic r None None 0 s)).
  { clear -H. induction (scan ic r None None 0 s) as [|sg l IH];
      simpl in *; [tauto|].
    destruct sg; simpl in H; [right; auto|].
    destruct H as [H|H]; [left; inversion H; reflexivity | right; auto]. }
  eapply scan_hit_sound; eauto.
Qed.

End Matcher.

(** *** Every candidate name lies within one sentence *)

Section Sentences.

Lemma letter_not_terminator (c : ascii) :
  is_letter c = true -> not_terminator c = true.
Proof.
  unfold not_terminator, is_terminator; intros H.
  destruct (ascii_eqb c "."%char) eqn:E1;
    [apply ascii_eqb_eq in E1; subst c; discriminate H|].
  destruct (ascii_eqb c "!"%char) eqn:E2;
    [apply ascii_eqb_eq in E2; subst c; discriminate H|].
  destruct (ascii_eqb c "?"%char) eqn:E3;
    [apply ascii_eqb_eq in E3; subst c; discriminate H|].
  reflexivity.
Qed.

Lemma name_re_covers : covers false is_letter name_re.
Proof.
  unfold name_re, is_letter; simpl.
  repeat split; intros c H; unfold cs_mem in H; simpl in H;
    rewrite orb_false_r in H; rewrite H; auto using orb_true_r.
Qed.

Lemma sentence_end_re_covers : covers false is_terminator sentence_end_re.
Proof.
  unfold sentence_end_re; simpl.
  intros c H; unfold cs_mem in H; simpl in H.
  rewrite orb_false_r in H; exact H.
Qed.

(** Substring tests succeed on substrings. *)
Lemma startswith_app (p s : text) : startswith p (p ++ s) = true.
Proof.
  induction p as [|x p IH]; simpl; [reflexivity|].
  rewrite IH, andb_true_r. apply ascii_eqb_eq; reflexivity.
Qed.

Lemma contains_unfold (p s : text) :
  contains p s
  = startswith p s || match s with [] => false | _ :: s' => contains p s' end.
Proof. destruct s; reflexivity. Qed.

Lemma contains_app (x p y : text) : contains p (x ++ p ++ y) = true.
Proof.
  induction x as [|c x IH]; simpl.
  - rewrite contains_unfold, startswith_app; reflexivity.
  - rewrite IH. apply orb_true_r.
Qed.

Lemma contains_lower (x w y : text) :
  contains (lower w) (lower (x ++ w ++ y)) = true.
Proof.
  unfold lower. rewrite !map_app. apply contains_app.
Qed.

Lemma pieces_nonempty (l : list seg) : exists x xs, pieces l = x :: xs.
Proof.
  induction l as [|sg l (x & xs & E)]; simpl; [eauto|].
  destruct sg; [rewrite E|]; eauto.
Qed.

Lemma no_match_at_letter (p : option ascii) (c : ascii) (s : text) :
  not_terminator c = true ->
  match_at false sentence_end_re p (c :: s) = None.
Proof.
  unfold not_terminator; intros H; apply negb_true_iff in H.
  unfold match_at, sentence_end_re; cbn [rmatch rest].
  unfold cs_mem; cbn [neg cmem cls xorb andb].
  rewrite H; reflexivity.
Qed.

(** A run without terminators at the head of the text opens the first
    piece of the split. *)
Lemma first_piece_prefix (w b : text) (p : option ascii) :
  forallb not_terminator w = true ->
  exists y more,
    pieces (scan false sentence_end_re None p 0 (w ++ b)) = (w ++ y) :: more.
Proof.
  revert p; induction w as [|c w IH]; intros p Hw.
  - destruct (pieces_nonempty (scan false sentence_end_re None p 0 b))
      as (x & xs & E).
    exists x, xs; exact E.
  - simpl in Hw; apply andb_true_iff in Hw; destruct Hw as [Hc Hw].
    change ((c :: w) ++ b) with (c :: (w ++ b)).
    cbn [scan exhausted]. rewrite (no_match_at_letter p c (w ++ b) Hc).
    destruct (IH (Some c) Hw) as (y & more & E).
    cbn [pieces]. rewrite E. exists y, more; reflexivity.
Qed.

(** A prefix made of [P]-characters ends before the first character
    outside [P]. *)
Lemma prefix_stops (P : ascii -> bool) (a : text) :
  forall m r c w,
    m ++ r = a ++ (c :: w) -> forallb P m = true -> P c = false ->
    length m <= length a.
Proof.
  induction a as [|x a IH]; intros m r c w E Hm Hc.
  - destruct m as [|y m]; [simpl; lia|].
    simpl in E, Hm; inversion E; subst y.
    rewrite Hc in Hm; discriminate.
  - destruct m as [|y m]; [simpl; lia|].
    simpl in E, Hm; inversion E; subst y.
    apply andb_true_iff in Hm; destruct Hm as [_ Hm].
    simpl; apply le_n_S. eapply IH; eauto.
Qed.

(** Wherever a non-empty run without terminators sits in the text, one
    piece of the split contains it whole. *)
Lemma split_scan_covers (w b : text) :
  w <> [] ->
  forallb not_terminator w = true ->
  forall a p skip,
    skip <= length a ->
    exists piece x y,
      In piece (pieces (scan false sentence_end_re None p skip (a ++ w ++ b)))
      /\ piece = x ++ w ++ y.
Proof.
  intros Hne Hw; induction a as [|c a IH]; intros p skip Hs.
  - simpl in Hs; assert (skip = 0) by lia; subst skip.
    destruct (first_piece_prefix w b p Hw) as (y & more & E).
    exists (w ++ y), [], y; simpl. rewrite E; split; [left|]; reflexivity.
  - change ((c :: a) ++ w ++ b) with (c :: (a ++ w ++ b)).
    assert (Hlit : forall p',
               exists piece x y,
                 In piece (pieces (Lit c :: scan false sentence_end_re None
                                             p' 0 (a ++ w ++ b)))
                 /\ piece = x ++ w ++ y).
    { intros p'.
      destruct (IH p' 0 (Nat.le_0_l _)) as (piece & x & y & Hin & E).
      cbn [pieces].
      destruct (pieces _) as [|x0 xs]; [destruct Hin|].
      destruct Hin as [Hin|Hin].
      - exists (c :: x0), (c :: x), y; split; [left; reflexivity|].
        rewrite Hin, E; reflexivity.
      - exists piece, x, y; split; [right; exact Hin | exact E]. }
    cbn [scan exhausted].
    destruct skip as [|j]; [|apply IH; simpl in Hs; lia].
    destruct (match_at false sentence_end_re p (c :: a ++ w ++ b))
      as [st|] eqn:Em; [|apply Hlit].
    destruct (used st) as [|j] eqn:Eu; [apply Hlit|].
    destruct (match_at_sound _ _ _ _ _ _ sentence_end_re_covers Em)
      as (m & E & U & F).
    destruct w as [|d w']; [contradiction|].
    simpl in Hw; apply andb_true_iff in Hw; destruct Hw as [Hd Hw'].
    assert (Hlen : length m <= length (c :: a)).
    { eapply (prefix_stops is_terminator (c :: a) m); eauto.
      apply negb_true_iff; exact Hd. }
    destruct (IH (Some c) j) as (piece & x & y & Hin & Ep);
      [simpl in Hlen; lia|].
    exists piece, x, y; split; [right; exact Hin | exact Ep].
Qed.

Lemma split_covers (a w b : text) :
  w <> [] ->
  forallb not_terminator w = true ->
  exists piece,
    In piece (Re.split sentence_end_re (a ++ w ++ b))
    /\ contains (lower w) (lower piece) = true.
Proof.
  intros Hne Hw.
  destruct (split_scan_covers w b Hne Hw a None 0 (Nat.le_0_l _))
    as (piece & x & y & Hin & E).
  exists piece; split; [exact Hin|].
  rewrite E; apply contains_lower.
Qed.

End Sentences.

Section Candidates.

Lemma bump_keys (w k : text) (counts : list (text * nat)) :
  In k (map fst (bump w counts)) -> k = w \/ In k (map fst counts).
Proof.
  induction counts as [|[k' n] counts IH]; simpl.
  - intros [H|[]]; left; symmetry; exact H.
  - destruct (text_eqb k' w); simpl; [tauto|].
    intros [H|H]; [tauto|]. destruct (IH H); tauto.
Qed.

Lemma name_counts_keys (words : list text) :
  forall acc k,
    In k (map fst (fold_left (fun counts w => bump w counts) words acc)) ->
    In k words \/ In k (map fst acc).
Proof.
  induction words as [|w words IH]; intros acc k; simpl; [tauto|].
  intros H. destruct (IH _ _ H) as [H'|H']; [tauto|].
  destruct (bump_keys _ _ _ H'); subst; tauto.
Qed.

(** A candidate name is one of the tokens found in the text. *)
Lemma potential_names_found (t nm : text) :
  In nm (potential_names t) -> In nm (findall false name_re t).
Proof.
  unfold potential_names, name_counts; intros H.
  apply in_map_iff in H; destruct H as ([k n] & E & H); simpl in E; subst k.
  apply filter_In in H; destruct H as [H _].
  assert (Hk : In nm (map fst (fold_left (fun counts w => bump w counts)
                                         (findall false name_re t) []))).
  { apply in_map_iff; exists (nm, n); auto. }
  destruct (name_counts_keys _ _ _ Hk) as [Hw|[]]; exact Hw.
Qed.

Lemma candidate_in_text (t nm : text) :
  In nm (potential_names t) ->
  nm <> [] /\ forallb not_terminator nm = true
  /\ exists a b, t = a ++ nm ++ b.
Proof.
  intros H; apply potential_names_found in H.
  destruct (findall_sound false is_letter name_re t nm name_re_covers H)
    as (Hne & Hl & Hs).
  repeat split; auto.
  apply forallb_forall; intros c Hc.
  apply letter_not_terminator.
  rewrite forallb_forall in Hl; auto.
Qed.

Lemma candidate_in_sentence (t nm : text) :
  In nm (potential_names t) ->
  exists piece,
    In piece (Re.split sentence_end_re t)
    /\ contains (lower nm) (lower piece) = true.
Proof.
  intros H; destruct (candidate_in_text _ _ H) as (Hne & Hw & a & b & E).
  rewrite E; apply split_covers; assumption.
Qed.

Lemma filter_some {A : Type} (p : A -> bool) (l : list A) (x : A) :
  In x l -> p x = true -> filter p l <> [].
Proof.
  intros Hin Hp E.
  assert (H : In x (filter p l)) by (apply filter_In; auto).
  rewrite E in H; destruct H.
Qed.

Lemma analyze_candidate (t nm : text) :
  In nm (potential_names t) -> _analyze_character nm t <> None.
Proof.
  intros H; destruct (candidate_in_sentence _ _ H) as (piece & Hin & Hc).
  unfold _analyze_character.
  destruct (filter _ _) as [|s ss] eqn:E; [|discriminate].
  exfalso; revert E.
  apply (filter_some (fun s => contains (lower nm) (lower s)) _ piece);
    assumption.
Qed.

Lemma analyze_character_name (nm t : text) (c : Character) :
  _analyze_character nm t = Some c -> name c = nm.
Proof.
  unfold _analyze_character.
  destruct (filter _ _); [discriminate|].
  intros H; inversion H; reflexivity.
Qed.

Lemma analyze_all_names (t : text) (names : list text) :
  Forall (fun nm => _analyze_character nm t <> None) names ->
  map name (analyze_all names t) = names.
Proof.
  induction 1 as [|nm names Hnm _ IH]; simpl; [reflexivity|].
  destruct (_analyze_character nm t) as [c|] eqn:E; [|contradiction].
  simpl; rewrite IH, (analyze_character_name _ _ _ E); reflexivity.
Qed.

Lemma candidates_analyzed (t : text) :
  Forall (fun nm => _analyze_character nm t <> None) (potential_names t).
Proof. apply Forall_forall; intros nm; apply analyze_candidate. Qed.

Lemma Forall_firstn {A : Type} (Q : A -> Prop) (n : nat) (l : list A) :
  Forall Q l -> Forall Q (firstn n l).
Proof.
  intros H; apply Forall_forall; intros x Hx.
  rewrite Forall_forall in H; apply H.
  rewrite <- (firstn_skipn n l); apply in_or_app; left; exact Hx.
Qed.

(** C10. Every candidate name that survives the two-occurrence filter
    contains no sentence terminator and occurs, ignoring case, in a piece
    of the split of the text at [.!?]; so [_analyze_character] never
    answers [None] for it, and extraction returns one character for each of
    the first ten candidates: min(10, number of candidates) characters. *)
Theorem C10_candidates_always_analyzed (t : text) :
  Forall (fun nm =>
            forallb not_terminator nm = true
            /\ (exists piece,
                   In piece (Re.split sentence_end_re t)
                   /\ contains (lower nm) (lower piece) = true)
            /\ _analyze_character nm t <> None)
         (potential_names t)
  /\ map name (extract_characters_advanced t) = firstn 10 (potential_names t)
  /\ length (extract_characters_advanced t)
     = Nat.min 10 (length (potential_names t)).
Proof.
  split.
  { apply Forall_forall; intros nm H.
    split; [apply (candidate_in_text _ _ H)|].
    split; [apply candidate_in_sentence | apply analyze_candidate];
      exact H. }
  assert (E : map name (extract_characters_advanced t)
              = firstn 10 (potential_names t)).
  { apply analyze_all_names, Forall_firstn, candidates_analyzed. }
  split; [exact E|].
  rewrite <- (length_map name), E, length_firstn; reflexivity.
Qed.

End Candidates.

(** *** The gazetteer example *)

Section SoniaSaxena.

(** C6. On the sentence about Sonia Saxena the capitalised tokens are
    Sonia, Saxena, Mr, Saxena; only Saxena occurs twice, so it is the only
    character extracted.  No name list contains it and the sentence has no
    pronoun, so its gender is unknown; it has no profession, the marker
    'daughter of' and the descriptor 'beautiful'.  With no female
    character, relationship_defining is 0, not 100. *)
Theorem C6_sonia_saxena_extraction :
  findall false name_re sonia_text
  = map str ["Sonia"; "Saxena"; "Mr"; "Saxena"]%string
  /\ map (fun c => (name c, gender c, professions c, relationships c,
                    appearance_descriptions c))
         (extract_characters_advanced sonia_text)
     = [(str "Saxena", unknown, [], [str "daughter of"], [str "beautiful"])]
  /\ (relationship_defining
        (calculate_comprehensive_bias_scores
           (extract_characters_advanced sonia_text)) == 0)%Q
  /\ ~ (relationship_defining
          (calculate_comprehensive_bias_scores
             (extract_characters_advanced sonia_text)) == 100)%Q.
Proof.
  split; [vm_compute; reflexivity|].
  split; [vm_compute; reflexivity|].
  split; [vm_compute; reflexivity|].
  vm_compute; discriminate.
Qed.

End SoniaSaxena.

(* ===================================================================== *)
(** ** The rewriter's scores                                              *)
(* ===================================================================== *)

Section BiasReduction.

(** A text without indicator hits gets the baseline. *)
Lemma bias_reduction_baseline (original rewritten : text) (bts : list text) :
  indicator_hits original = 0 ->
  _calculate_bias_reduction original rewritten bts = 50%Q.
Proof.
  intros H; unfold _calculate_bias_reduction; rewrite H; reflexivity.
Qed.

(** Otherwise the score is the clamped reduction plus the profession
    term, capped at 100. *)
Lemma bias_reduction_formula (original rewritten : text) (bts : list text) :
  indicator_hits original <> 0 ->
  _calculate_bias_reduction original rewritten bts
  = qmin 100
      (qmax 0 ((of_nat (indicator_hits original)
                - of_nat (indicator_hits rewritten))
               / of_nat (indicator_hits original) * 100)
       + qmin 30 ((of_nat (count_in profession_words (lower rewritten))
                   - of_nat (count_in profession_words (lower original)))
                  * 10))%Q.
Proof.
  intros H; unfold _calculate_bias_reduction.
  destruct (indicator_hits original =? 0) eqn:E; [|reflexivity].
  apply Nat.eqb_eq in E; contradiction.
Qed.

Lemma qmin_upper_l (a b : Q) : (qmin a b <= a)%Q.
Proof.
  destruct (qmin_cases a b) as [[H ->]|[H ->]];
    [apply Qle_refl | apply Qlt_le_weak, H].
Qed.

Lemma bias_reduction_at_most_100 (original rewritten : text)
      (bts : list text) :
  (_calculate_bias_reduction original rewritten bts <= 100)%Q.
Proof.
  unfold _calculate_bias_reduction.
  destruct (indicator_hits original =? 0); [discriminate|].
  apply qmin_upper_l.
Qed.

(** C4. A rewrite that keeps the one indicator of the original and drops
    its one profession word scores 0 for the reduction and -10 for the
    profession term: the result is -10, below the range [0,100].  The
    hosted-model entry point returns that score when the model answers
    'waits' to 'doctor waits'. *)
Theorem C4_bias_reduction_negative (bias_types : list text) (g : Rng) :
  indicator_hits (str "doctor waits") = 1
  /\ indicator_hits (str "waits") = 1
  /\ count_in profession_words (lower (str "doctor waits")) = 1
  /\ count_in profession_words (lower (str "waits")) = 0
  /\ (_calculate_bias_reduction (str "doctor waits") (str "waits") bias_types
      == -10)%Q
  /\ ~ (0 <= _calculate_bias_reduction (str "doctor waits") (str "waits")
                                       bias_types)%Q
  /\ match rewrite_text_llm terse_api (str "doctor waits") bias_types g with
     | Returns (result, _, _) =>
         rewritten_text result = str "waits"
         /\ (bias_reduction result == -10)%Q
     | Raises _ => False
     end.
Proof.
  repeat split; try (vm_compute; reflexivity).
  vm_compute; intros H; apply H; reflexivity.
Qed.

End BiasReduction.

Section QualityScore.

(** The rubric of the design document does not describe
    [_calculate_quality_score]: for an original of five sentences and one
    name rewritten to the empty text, the code gives 0 while the rubric's
    floors of 10 alone add up to 40. *)
Lemma C3_rubric_counterexample :
  (_calculate_quality_score (str "A. B. C. D. E. Xy") [] [] == 0)%Q
  /\ (rubric_quality_score (str "A. B. C. D. E. Xy") [] [] == 40)%Q
  /\ ~ (_calculate_quality_score (str "A. B. C. D. E. Xy") [] []
        == rubric_quality_score (str "A. B. C. D. E. Xy") [] [])%Q.
Proof.
  split; [vm_compute; reflexivity|].
  split; [vm_compute; reflexivity|].
  vm_compute; discriminate.
Qed.

Lemma of_nat_ratio_ge (a : Z) (b : positive) (n d : nat) :
  0 < d ->
  Qle_bool (a # b) (of_nat n / of_nat d)
  = (a * Z.of_nat d <=? Z.pos b * Z.of_nat n)%Z.
Proof.
  intros Hd. apply eq_true_iff_eq.
  rewrite Qle_bool_iff, Z.leb_le.
  destruct d as [|d']; [lia|].
  unfold of_nat, Qdiv, Qle, Qmult, Qinv, inject_Z.
  cbn [Qnum Qden]. rewrite Nat2Z.inj_succ.
  destruct (Z.succ (Z.of_nat d')) as [|q|q] eqn:E; try lia.
  cbn [Qnum Qden]. rewrite Pos2Z.inj_mul. lia.
Qed.

Lemma of_nat_ratio_le (a : Z) (b : positive) (n d : nat) :
  0 < d ->
  Qle_bool (of_nat n / of_nat d) (a # b)
  = (Z.pos b * Z.of_nat n <=? a * Z.of_nat d)%Z.
Proof.
  intros Hd. apply eq_true_iff_eq.
  rewrite Qle_bool_iff, Z.leb_le.
  destruct d as [|d']; [lia|].
  unfold of_nat, Qdiv, Qle, Qmult, Qinv, inject_Z.
  cbn [Qnum Qden]. rewrite Nat2Z.inj_succ.
  destruct (Z.succ (Z.of_nat d')) as [|q|q] eqn:E; try lia.
  cbn [Qnum Qden]. rewrite Pos2Z.inj_mul. lia.
Qed.

Lemma length_preservation_points (original rewritten : text) :
  length_preservation original rewritten = length_points original rewritten.
Proof.
  unfold length_preservation, length_points.
  destruct (length original) as [|lo] eqn:E; [reflexivity|].
  change (0 <? S lo) with true. cbv iota.
  assert (Hd : 0 < S lo) by lia.
  rewrite !(of_nat_ratio_ge _ _ _ _ Hd).
  change 2%Q with (2 # 1)%Q.
  rewrite !(of_nat_ratio_le _ _ _ _ Hd).
  replace (Z.of_nat (S lo) =? 0)%Z with false by (symmetry; apply Z.eqb_neq; lia).
  replace (1 * Z.of_nat (length rewritten) <=? 2 * Z.of_nat (S lo))%Z
    with (Z.of_nat (length rewritten) <=? 2 * Z.of_nat (S lo))%Z
    by (f_equal; lia).
  reflexivity.
Qed.

Lemma name_preservation_points (original rewritten : text) :
  (name_preservation original rewritten == name_points original rewritten)%Q.
Proof.
  unfold name_preservation, name_points, kept_names, names_of.
  destruct (dedup (findall false cap_word original)) as [|n ns];
    [reflexivity|].
  set (k := length (filter _ _)). set (m := length (n :: ns)).
  unfold of_nat. rewrite Nat2Z.inj_mul, inject_Z_mult.
  change (inject_Z (Z.of_nat 20)) with 20%Q.
  assert (Hm : ~ (inject_Z (Z.of_nat m) == 0)%Q).
  { unfold m, Qeq; simpl. lia. }
  generalize dependent (inject_Z (Z.of_nat m)).
  generalize (inject_Z (Z.of_nat k)).
  intros x y Hy. field. exact Hy.
Qed.

Lemma narrative_flow_points (original rewritten : text) :
  narrative_flow original rewritten = flow_points original rewritten.
Proof. reflexivity. Qed.

Lemma improvement_count_points (imps : list text) :
  (improvement_count imps == improvement_points imps)%Q.
Proof.
  unfold improvement_count, improvement_points.
  set (n := length imps).
  destruct (qmin_cases 20 (of_nat n * 5)) as [[H ->]|[H ->]].
  - assert (4 <= n).
    { unfold of_nat, Qle, Qmult, inject_Z in H; simpl in H. lia. }
    rewrite Nat.min_l by assumption. reflexivity.
  - assert (n < 4).
    { unfold of_nat, Qlt, Qmult, inject_Z in H; simpl in H. lia. }
    rewrite Nat.min_r by lia.
    unfold of_nat. rewrite Nat2Z.inj_mul, inject_Z_mult.
    change (inject_Z (Z.of_nat 5)) with 5%Q. ring.
Qed.

(** A one-character pattern is found exactly when some character of the
    text is in its class. *)
Lemma found_one_char (cs : cset) (s : text) :
  found false (RSet cs) s = existsb (cs_mem false cs) s.
Proof.
  unfold found, search. generalize (@None ascii).
  induction s as [|c s IH]; intros p; [reflexivity|].
  cbn [scan exhausted existsb]. unfold match_at. cbn [rmatch rest].
  destruct (cs_mem false cs c); cbn; [reflexivity|].
  apply IH.
Qed.

Lemma exists_outside_class (f : ascii -> bool) (s : text) :
  existsb (cs_mem false (ncls f)) s = negb (forallb f s).
Proof.
  induction s as [|c s IH]; [reflexivity|].
  cbn [existsb forallb]. rewrite negb_andb, IH. f_equal.
  unfold cs_mem; cbn [neg cmem ncls andb].
  rewrite orb_false_r. destruct (f c); reflexivity.
Qed.

Lemma readability_points_eq (rewritten : text) :
  readability rewritten = readability_points rewritten.
Proof.
  unfold readability, readability_points, unusual_char_re.
  rewrite found_one_char, exists_outside_class, negb_involutive.
  reflexivity.
Qed.

Lemma kept_names_le (original rewritten : text) :
  kept_names original rewritten <= length (names_of original).
Proof. unfold kept_names. apply filter_length_le. Qed.

Lemma name_points_range (original rewritten : text) :
  (0 <= name_points original rewritten <= 20)%Q.
Proof.
  unfold name_points.
  generalize (kept_names_le original rewritten).
  generalize (kept_names original rewritten); intros k.
  destruct (names_of original) as [|n ns]; [split; discriminate|].
  simpl length; generalize (S (length ns)) (Nat.lt_0_succ (length ns)).
  intros m Hm Hk.
  assert (Hq : (0 < of_nat m)%Q) by (apply of_nat_pos; exact Hm).
  split.
  - apply Qle_shift_div_l; [exact Hq|].
    rewrite Qmult_0_l. apply of_nat_nonneg.
  - apply Qle_shift_div_r; [exact Hq|].
    unfold of_nat, Qle, Qmult, inject_Z; cbn [Qnum Qden].
    rewrite Nat2Z.inj_mul. lia.
Qed.

Lemma length_points_range (original rewritten : text) :
  (0 <= length_points original rewritten <= 20)%Q.
Proof.
  unfold length_points.
  repeat match goal with |- context [if ?b then _ else _] => destruct b end;
    split; discriminate.
Qed.

Lemma flow_points_range (original rewritten : text) :
  (0 <= flow_points original rewritten <= 20)%Q.
Proof.
  unfold flow_points.
  repeat match goal with |- context [if ?b then _ else _] => destruct b end;
    split; discriminate.
Qed.

Lemma improvement_points_range (imps : list text) :
  (0 <= improvement_points imps <= 20)%Q.
Proof.
  unfold improvement_points; split; [apply of_nat_nonneg|].
  unfold of_nat, Qle, inject_Z; cbn [Qnum Qden]. lia.
Qed.

Lemma readability_points_range (rewritten : text) :
  (0 <= readability_points rewritten <= 20)%Q.
Proof.
  unfold readability_points.
  destruct (_ && _); split; discriminate.
Qed.

(** C3, as the code has it.  The quality score is the sum of five
    components, each between 0 and 20: the length ratio (20 within
    [0.8,1.5], 10 within [0.6,2.0], else 0), the share of the original
    capitalised names kept times 20, the sentence count (20 for a
    difference of at most 2, 10 for at most 4, else 0), 5 points for each
    improvement up to four, and 20 for a non-empty rewrite made only of word
    characters, blanks and the marks [.,!?;:-]. *)
Theorem C3_quality_score_components
        (original rewritten : text) (imps : list text) :
  let q := _calculate_quality_score original rewritten imps in
  (q == length_points original rewritten + name_points original rewritten
        + flow_points original rewritten + improvement_points imps
        + readability_points rewritten
   /\ 0 <= length_points original rewritten <= 20
   /\ 0 <= name_points original rewritten <= 20
   /\ 0 <= flow_points original rewritten <= 20
   /\ 0 <= improvement_points imps <= 20
   /\ 0 <= readability_points rewritten <= 20
   /\ 0 <= q <= 100)%Q.
Proof.
  intros q.
  assert (E : (q == length_points original rewritten
                    + name_points original rewritten
                    + flow_points original rewritten + improvement_points imps
                    + readability_points rewritten)%Q).
  { unfold q, _calculate_quality_score, qsum; cbn [fold_right].
    rewrite length_preservation_points, name_preservation_points,
      narrative_flow_points, improvement_count_points,
      readability_points_eq.
    ring. }
  pose proof (length_points_range original rewritten) as H1.
  pose proof (name_points_range original rewritten) as H2.
  pose proof (flow_points_range original rewritten) as H3.
  pose proof (improvement_points_range imps) as H4.
  pose proof (readability_points_range rewritten) as H5.
  repeat (split; [assumption|]).
  rewrite E. lra.
Qed.

End QualityScore.

(* ===================================================================== *)
(** ** The hosted-model entry point                                       *)
(* ===================================================================== *)

Section Fallback.

(** Whatever the hosted model does, [rewrite_text_llm] returns. *)
Lemma rewrite_text_llm_returns (api : ChatCompletion) (t : text)
      (bias_types : list text) (g : Rng) :
  exists v, rewrite_text_llm api t bias_types g = Returns v.
Proof.
  unfold rewrite_text_llm, try_except.
  destruct (llm_attempt api t bias_types); eauto.
Qed.

Lemma llm_attempt_marker (api : ChatCompletion) (t : text)
      (bias_types : list text) (r : RewriteResult) :
  llm_attempt api t bias_types = Returns r ->
  rewrite_type r = str "llm_based".
Proof.
  unfold llm_attempt.
  destruct (api _ _) as [e|[|content choices]]; try discriminate.
  intros H; inversion H; reflexivity.
Qed.

Lemma rule_based_marker (t : text) (bias_types : list text) (g : Rng) :
  rewrite_type (fst (rewrite_text_rule_based t bias_types g))
  = str "rule_based".
Proof.
  unfold rewrite_text_rule_based.
  repeat match goal with
         | |- context [let '(_, _) := ?x in _] => destruct x
         | |- context [if ?b then _ else _] => destruct b
         end; reflexivity.
Qed.

(** C7. When the call to the hosted model raises, [rewrite_text_llm] does
    not raise: it returns what [rewrite_text_rule_based] returns on the same
    text, flagged dimensions and random source, hands one error record to
    the logger, and the result carries the type tag of the rule-based path,
    which differs from the tag of a successful hosted rewrite. *)
Theorem C7_llm_failure_falls_back
        (api : ChatCompletion) (t : text) (bias_types : list text)
        (g : Rng) (e : exn) :
  api system_message (prompt_of t bias_types) = Raises e ->
  rewrite_text_llm api t bias_types g
  = Returns (rewrite_text_rule_based t bias_types g, [failure_record e])
  /\ rewrite_type (fst (rewrite_text_rule_based t bias_types g))
     = str "rule_based"
  /\ str "rule_based" <> str "llm_based"
  /\ (forall api' r, llm_attempt api' t bias_types = Returns r ->
                     rewrite_type r = str "llm_based").
Proof.
  intros H.
  split; [unfold rewrite_text_llm, llm_attempt; rewrite H; reflexivity|].
  split; [apply rule_based_marker|].
  split; [discriminate|].
  intros api' r; apply llm_attempt_marker.
Qed.

(** The fallback when every call to the hosted model times out. *)
Lemma C7_llm_failure_witness :
  rewrite_text_llm failing_api (str "Priya waits for her father's decision")
                   [agency_gap_key] fixed_rng
  = Returns (rewrite_text_rule_based
               (str "Priya waits for her father's decision")
               [agency_gap_key] fixed_rng,
             [failure_record (Exception (str "Connection timed out"))])
  /\ rewrite_type (fst (rewrite_text_rule_based
                          (str "Priya waits for her father's decision")
                          [agency_gap_key] fixed_rng))
     = str "rule_based"
  /\ str "rule_based" <> str "llm_based"
  /\ (forall api' r,
         llm_attempt api' (str "Priya waits for her father's decision")
                     [agency_gap_key] = Returns r ->
         rewrite_type r = str "llm_based").
Proof.
  apply (C7_llm_failure_falls_back failing_api
           (str "Priya waits for her father's decision") [agency_gap_key]
           fixed_rng (Exception (str "Connection timed out"))).
  reflexivity.
Defined.

End Fallback.

(* ===================================================================== *)
(** ** The structural substitution rules                                  *)
(* ===================================================================== *)

Section StructuralRules.

Lemma apply_rule_length (msg : text) (st : text * list text) (r : rule) :
  length (snd (apply_rule msg st r)) <= length (snd st) + 1.
Proof.
  destruct st as [t imps]; unfold apply_rule.
  destruct (found false (fst r) t); simpl; [rewrite length_app; simpl|]; lia.
Qed.

Lemma apply_rules_length (msg : text) (rules : list rule) :
  forall st,
    length (snd (apply_rules msg rules st)) <= length (snd st) + length rules.
Proof.
  unfold apply_rules; induction rules as [|r rules IH]; intros st; simpl;
    [lia|].
  specialize (IH (apply_rule msg st r)).
  pose proof (apply_rule_length msg st r). lia.
Qed.

Lemma inject_profession_length (t : text) (imps : list text) (g : Rng) :
  length (annotations (inject_profession t imps g)) <= length imps + 1.
Proof.
  unfold inject_profession, annotations.
  destruct (any_in _ _); simpl; [lia|].
  destruct (search false female_pattern t) as [[m gs]|]; simpl;
    [rewrite length_app; simpl|]; lia.
Qed.

Lemma structural_step_length (st : text * list text * Rng)
      (bias_type : text) :
  length (annotations (structural_step st bias_type))
  <= length (annotations st) + rules_budget bias_type.
Proof.
  destruct st as [[t imps] g]; unfold structural_step, rules_budget,
                               annotations.
  destruct (text_eqb bias_type occupation_gap_key).
  { pose proof (apply_rules_length
                  (str "Added professional identity to character introduction")
                  occupation_patterns (t, imps)) as H.
    destruct (apply_rules _ occupation_patterns (t, imps)) as [t' imps'].
    pose proof (inject_profession_length t' imps' g) as H'.
    unfold annotations in H'; simpl in H, H' |- *. lia. }
  destruct (text_eqb bias_type agency_gap_key).
  { cbn [fst snd]. apply apply_rules_length. }
  destruct (text_eqb bias_type appearance_focus_key).
  { cbn [fst snd]. apply apply_rules_length. }
  destruct (text_eqb bias_type relationship_defining_key).
  { cbn [fst snd]. apply apply_rules_length. }
  simpl; lia.
Qed.

(** Each rule adds at most one annotation for each entry of the
    flagged-dimension list, however many matches it has. *)
Lemma structural_phase_length (bias_types : list text) :
  forall st,
    length (annotations (fold_left structural_step bias_types st))
    <= length (annotations st)
       + fold_right Nat.add 0 (map rules_budget bias_types).
Proof.
  induction bias_types as [|b bts IH]; intros st; simpl; [lia|].
  specialize (IH (structural_step st b)).
  pose proof (structural_step_length st b). lia.
Qed.

(** *** A text with several matches of one rule *)

(** A rule does not stop at its first match: the rule for 'follows' has
    two matches in the text and both are replaced, where a substitution
    limited to the first match would leave the second. *)
Lemma C5_both_matches_replaced :
  length (hits (scan false (fst follows_rule) None None 0 two_followers)) = 2
  /\ rewritten_text
       (fst (rewrite_text_rule_based two_followers [agency_gap_key] fixed_rng))
     = str "Priya collaborates with him. Rani collaborates with her."
  /\ improvements
       (fst (rewrite_text_rule_based two_followers [agency_gap_key] fixed_rng))
     = [str "Converted passive action to active agency"]
  /\ sub false (fst follows_rule) (snd follows_rule) (Some 1) two_followers
     = str "Priya collaborates with him. Rani follows her."
  /\ rewritten_text
       (fst (rewrite_text_rule_based two_followers [agency_gap_key] fixed_rng))
     <> sub false (fst follows_rule) (snd follows_rule) (Some 1) two_followers.
Proof.
  repeat split; try (vm_compute; reflexivity).
  vm_compute; discriminate.
Qed.

(** *** A text with any number of matches *)

Lemma hits_lits (b : text) (l : list seg) : hits (map Lit b ++ l) = hits l.
Proof. induction b as [|c b IH]; simpl; auto. Qed.

(** A pattern that finds nothing in a block, nor across its end, finds
    nothing in its repetitions. *)
Lemma periodic_no_hit (r : regex) (cnt : option nat) (b : text)
      (q : option ascii) :
  (forall p R,
      scan false r cnt p 0 (b ++ R) = map Lit b ++ scan false r cnt q 0 R) ->
  forall n p, hits (scan false r cnt p 0 (copies n b)) = [].
Proof.
  intros H; induction n as [|n IH]; intros p; simpl; [reflexivity|].
  rewrite H, hits_lits. apply IH.
Qed.

Lemma periodic_not_found (r : regex) (b : text) (q : option ascii) :
  (forall p R,
      scan false r (Some 1) p 0 (b ++ R)
      = map Lit b ++ scan false r (Some 1) q 0 R) ->
  forall n, found false r (copies n b) = false.
Proof.
  intros H n; unfold found, search.
  rewrite (periodic_no_hit r (Some 1) b q H); reflexivity.
Qed.

Lemma periodic_absent (k b : text) :
  contains k [] = false ->
  (forall R, contains k (b ++ R) = contains k R) ->
  forall n, contains k (copies n b) = false.
Proof.
  intros H0 H; induction n as [|n IH]; simpl; [exact H0|].
  rewrite H; exact IH.
Qed.

Lemma lower_copies (n : nat) (b : text) :
  lower (copies n b) = copies n (lower b).
Proof.
  induction n as [|n IH]; simpl; [reflexivity|].
  unfold lower in *; rewrite map_app, IH; reflexivity.
Qed.

Lemma other_rules_silent (n : nat) :
  found false (rule_pattern 0) (copies n follower) = false
  /\ found false (rule_pattern 1) (copies n follower) = false
  /\ found false (rule_pattern 2) (copies n follower) = false
  /\ found false (rule_pattern 4) (copies n collaborator) = false.
Proof.
  repeat split;
    apply (periodic_not_found _ _ (Some " "%char));
    intros p R; reflexivity.
Qed.

Lemma follows_found (n : nat) :
  found false (rule_pattern 3) (copies (S n) follower) = true.
Proof. vm_compute; reflexivity. Qed.

(** The substitution replaces the match in every copy. *)
Lemma follows_all_replaced (n : nat) :
  forall p,
    concat (map (render (snd follows_rule))
                (scan false (rule_pattern 3) None p 0 (copies n follower)))
    = copies n collaborator.
Proof.
  induction n as [|n IH]; intros p; [reflexivity|].
  cbn [copies].
  assert (E : forall R,
             scan false (rule_pattern 3) None p 0 (follower ++ R)
             = Hit (str "Rani follows him") [str "Rani"; str "him"]
                   :: Lit "."%char :: Lit " "%char
                   :: scan false (rule_pattern 3) None (Some " "%char) 0 R)
    by (intros R; reflexivity).
  rewrite E. cbn [map concat]. rewrite IH. reflexivity.
Qed.

Lemma passive_rules_on_copies (n : nat) :
  apply_rules (str "Converted passive action to active agency")
              passive_to_active (copies n follower, [])
  = (copies n collaborator,
     match n with
     | 0 => []
     | S _ => [str "Converted passive action to active agency"]
     end).
Proof.
  destruct (other_rules_silent n) as (H0 & H1 & H2 & H4).
  unfold apply_rules, passive_to_active; cbn [fold_left].
  unfold apply_rule at 5 4 3; cbn [fst snd].
  unfold rule_pattern, passive_to_active in H0, H1, H2; cbn [nth fst] in H0, H1, H2.
  rewrite H0, H1, H2.
  destruct n as [|n].
  - reflexivity.
  - unfold apply_rule at 2; cbn [fst snd].
    pose proof (follows_found n) as Hf.
    unfold rule_pattern, passive_to_active in Hf; cbn [nth fst] in Hf.
    rewrite Hf.
    pose proof (follows_all_replaced (S n) None) as Hs.
    unfold rule_pattern, follows_rule, passive_to_active in Hs;
      cbn [nth fst snd] in Hs.
    unfold sub. rewrite Hs.
    unfold apply_rule.
    unfold rule_pattern, passive_to_active in H4; cbn [nth fst] in H4.
    cbn [fst snd]. rewrite H4. reflexivity.
Qed.

Lemma no_passive_phrase_left (n : nat) :
  Forall (fun kv => contains (fst kv) (lower (copies n collaborator)) = false)
         agency_replacements.
Proof.
  rewrite lower_copies.
  unfold agency_replacements; cbn [map].
  repeat (constructor;
          [apply periodic_absent;
           [vm_compute; reflexivity | intros R; vm_compute; reflexivity]|]).
  constructor.
Qed.

Lemma replace_pass_idle (note : text -> text -> text)
      (table : list (text * list text)) (t : text) (g : Rng) :
  Forall (fun kv => contains (fst kv) (lower t) = false) table ->
  forall imps,
    fold_left
      (fun (st : text * list text * Rng) (kv : text * list text) =>
         let '(t, imps, g) := st in
         if contains (fst kv) (lower t) then
           let '(replacement, g) := random_choice (snd kv) g in
           (sub true (RLit (fst kv)) [TLit replacement] (Some 1) t,
            imps ++ [note (fst kv) replacement], g)
         else (t, imps, g))
      table (t, imps, g)
    = (t, imps, g).
Proof.
  induction 1 as [|kv table Hkv _ IH]; intros imps; simpl; [reflexivity|].
  rewrite Hkv. apply IH.
Qed.

Lemma increase_agency_idle (n : nat) (g : Rng) :
  _increase_agency (copies n collaborator) g = (copies n collaborator, [], g).
Proof.
  unfold _increase_agency, replace_pass.
  exact (replace_pass_idle
           (fun _ _ => str "Converted passive action to active agency")
           agency_replacements (copies n collaborator) g
           (no_passive_phrase_left n) []).
Qed.

(** *** Every rule, every text *)

Lemma scan_skip (ic : bool) (r : regex) (cnt : option nat) (s : text) :
  forall p k,
    scan ic r cnt p k s
    = scan ic r cnt (before p (firstn k s)) 0 (skipn k s).
Proof.
  induction s as [|c s IH]; intros p k.
  - destruct k; reflexivity.
  - destruct k as [|k]; [reflexivity|].
    cbn [scan firstn skipn]. rewrite IH. reflexivity.
Qed.

Lemma scan_walk (pat : regex) (n : nat) :
  forall s p, length s <= n -> walk pat p s (scan false pat None p 0 s).
Proof.
  induction n as [|n IH]; intros [|c s] p Hlen;
    try (cbn in Hlen; lia); try apply walk_end.
  cbn [scan exhausted].
  destruct (match_at false pat p (c :: s)) as [st|] eqn:E.
  - destruct (used st) as [|j] eqn:U.
    + apply walk_pass; [unfold no_match_here; rewrite E; exact U|].
      apply IH; cbn in Hlen; lia.
    + cbn [spend]. rewrite scan_skip.
      apply (walk_hit pat p c s st j); [exact E | exact U |].
      cbn [firstn skipn before fold_left].
      apply IH. rewrite length_skipn. cbn in Hlen; lia.
  - apply walk_pass; [unfold no_match_here; rewrite E; exact I|].
    apply IH; cbn in Hlen; lia.
Qed.

Lemma matches_walk (pat : regex) (t : text) :
  walk pat None t (matches_of pat t).
Proof. apply (scan_walk pat (length t)); lia. Qed.

Lemma walk_covers (pat : regex) (p : option ascii) (s : text)
      (segs : list seg) :
  walk pat p s segs -> concat (map source segs) = s.
Proof.
  induction 1 as [p | p c s segs _ _ IH | p c s st j segs _ _ _ IH];
    [reflexivity | cbn [map concat source app]; rewrite IH; reflexivity |].
  cbn [map concat source]. rewrite IH. apply firstn_skipn.
Qed.

(** The walk leaves no choice: its segments are those of the scan. *)
Lemma walk_unique (pat : regex) (p : option ascii) (s : text)
      (segs : list seg) :
  walk pat p s segs -> segs = scan false pat None p 0 s.
Proof.
  induction 1 as [p | p c s segs Hno _ IH | p c s st j segs Hm Hu _ IH];
    [reflexivity | |].
  - cbn [scan exhausted]. unfold no_match_here in Hno.
    destruct (match_at false pat p (c :: s)) as [st|];
      [rewrite Hno|]; rewrite IH; reflexivity.
  - cbn [scan exhausted]. rewrite Hm, Hu. cbn [spend].
    rewrite scan_skip, IH. reflexivity.
Qed.

(** [re.search] finds a match exactly when the unlimited walk has one. *)
Lemma first_hit (ic : bool) (r : regex) (s : text) :
  forall p k,
    hd_error (hits (scan ic r (Some 1) p k s))
    = hd_error (hits (scan ic r None p k s)).
Proof.
  induction s as [|c s IH]; intros p k; [reflexivity|].
  cbn [scan]. destruct k as [|k]; [|apply IH].
  cbn [exhausted].
  destruct (match_at ic r p (c :: s)) as [st|]; [|cbn [hits]; apply IH].
  destruct (used st) as [|j]; [cbn [hits]; apply IH | reflexivity].
Qed.

Lemma apply_rule_global (msg : text) (st : text * list text) (r : rule) :
  apply_rule msg st r = replace_every_match msg st r.
Proof.
  destruct st as [t imps].
  unfold apply_rule, replace_every_match, found, search, matches_of, sub.
  rewrite first_hit. cbn [fst snd].
  destruct (hits (scan false (fst r) None None 0 t)); reflexivity.
Qed.

Lemma apply_rules_global (msg : text) (rules : list rule) :
  forall st,
    apply_rules msg rules st = fold_left (replace_every_match msg) rules st.
Proof.
  unfold apply_rules.
  induction rules as [|r rules IH]; intros st; [reflexivity|].
  cbn [fold_left]. rewrite apply_rule_global. apply IH.
Qed.

Lemma structural_step_global (t : text) (imps : list text) (g : Rng) :
  structural_step (t, imps, g) occupation_gap_key
  = (let '(t', imps') :=
       fold_left
         (replace_every_match
            (str "Added professional identity to character introduction"))
         occupation_patterns (t, imps) in
     inject_profession t' imps' g)
  /\ structural_step (t, imps, g) agency_gap_key
     = (fold_left
          (replace_every_match
             (str "Converted passive action to active agency"))
          passive_to_active (t, imps), g)
  /\ structural_step (t, imps, g) appearance_focus_key
     = (fold_left
          (replace_every_match
             (str "Replaced appearance description with character trait"))
          appearance_to_trait (t, imps), g)
  /\ structural_step (t, imps, g) relationship_defining_key
     = (fold_left
          (replace_every_match
             (str "Added independent identity alongside relationship"))
          add_independence (t, imps), g).
Proof.
  rewrite <- !apply_rules_global. repeat split; reflexivity.
Qed.

(** C5, as the code has it.  Each structural rule is tried once for each
    entry of the flagged-dimension list and adds at most one annotation,
    but its substitution is global.  For every pattern and text the
    matches form the one walk that takes a match wherever one starts and
    passes a character elsewhere, they cover the text and they are the
    matches of [re.findall]; and for every text each of the four
    dimensions applies every rule of its table by replacing all of these
    matches, with a single annotation when there is one.  In particular a
    text made of n sentences that each match the rule for 'follows' comes
    back with all n rewritten and, for n > 0, a single annotation. *)
Theorem C5_rules_annotate_once_replace_all :
  (forall t bias_types g,
      length (annotations (structural_phase t bias_types g))
      <= fold_right Nat.add 0 (map rules_budget bias_types))
  /\ (forall pat t,
         walk pat None t (matches_of pat t)
         /\ (forall segs, walk pat None t segs -> segs = matches_of pat t)
         /\ concat (map source (matches_of pat t)) = t
         /\ map fst (hits (matches_of pat t)) = findall false pat t)
  /\ (forall t imps g,
         structural_step (t, imps, g) occupation_gap_key
         = (let '(t', imps') :=
              fold_left
                (replace_every_match
                   (str "Added professional identity to character introduction"))
                occupation_patterns (t, imps) in
            inject_profession t' imps' g)
         /\ structural_step (t, imps, g) agency_gap_key
            = (fold_left
                 (replace_every_match
                    (str "Converted passive action to active agency"))
                 passive_to_active (t, imps), g)
         /\ structural_step (t, imps, g) appearance_focus_key
            = (fold_left
                 (replace_every_match
                    (str "Replaced appearance description with character trait"))
                 appearance_to_trait (t, imps), g)
         /\ structural_step (t, imps, g) relationship_defining_key
            = (fold_left
                 (replace_every_match
                    (str "Added independent identity alongside relationship"))
                 add_independence (t, imps), g))
  /\ (forall n g,
         let result :=
           fst (rewrite_text_rule_based (copies n follower)
                                        [agency_gap_key] g) in
         rewritten_text result = copies n collaborator
         /\ improvements result
            = match n with
              | 0 => []
              | S _ => [str "Converted passive action to active agency"]
              end).
Proof.
  split.
  { intros t bias_types g; unfold structural_phase.
    pose proof (structural_phase_length bias_types (t, [], g)) as H.
    simpl in H; exact H. }
  split.
  { intros pat t.
    split; [apply matches_walk|].
    split; [intros segs Hw; apply (walk_unique pat None t segs Hw)|].
    split; [apply (walk_covers pat None t), matches_walk | reflexivity]. }
  split; [apply structural_step_global|].
  intros n g result; subst result.
  unfold rewrite_text_rule_based, structural_phase.
  cbn [fold_left].
  change (structural_step (copies n follower, [], g) agency_gap_key)
    with (apply_rules (str "Converted passive action to active agency")
                      passive_to_active (copies n follower, []), g).
  rewrite passive_rules_on_copies.
  change (has_key appearance_focus_key [agency_gap_key]) with false.
  change (has_key agency_gap_key [agency_gap_key]) with true.
  change (has_key occupation_gap_key [agency_gap_key]) with false.
  change (has_key relationship_defining_key [agency_gap_key]) with false.
  cbv iota. rewrite increase_agency_idle. cbn [fst rewritten_text improvements].
  rewrite app_nil_r. split; reflexivity.
Qed.

End StructuralRules.

(* ===================================================================== *)
(** ** Further properties of the extractor                                *)
(* ===================================================================== *)

Section CandidateNames.

Lemma covers_all (ic : bool) (r : regex) : covers ic (fun _ => true) r.
Proof. induction r; simpl; auto. Qed.

(** A reported match is the text consumed by a successful attempt. *)
Lemma scan_hit_match (ic : bool) (r : regex) :
  forall s cnt p skip m gs,
    In (Hit m gs) (scan ic r cnt p skip s) ->
    exists p' tail st,
      match_at ic r p' (m ++ tail) = Some st /\ used st = length m.
Proof.
  induction s as [|c s' IH]; intros cnt p skip m gs; cbn [scan]; [intros []|].
  destruct skip as [|j]; [|apply IH].
  destruct (if exhausted cnt then None else match_at ic r p (c :: s'))
    as [st|] eqn:Em.
  - destruct (used st) as [|j] eqn:Eu.
    + intros [H|H]; [discriminate | eapply IH; eauto].
    + intros [H|H]; [|eapply IH; eauto].
      destruct (exhausted cnt); [discriminate|].
      destruct (match_at_sound ic (fun _ => true) r p (c :: s') st
                               (covers_all ic r) Em) as (w & E & U & _).
      assert (Hw : firstn (S j) (c :: s') = w)
        by (rewrite <- Eu, U, E; apply firstn_length_app).
      injection H as Hm Hg. cbn [firstn] in Hw, Hm. rewrite Hw in Hm; subst m.
      exists p, (rest st), st. rewrite <- E; split; [exact Em | exact U].
  - intros [H|H]; [discriminate | eapply IH; eauto].
Qed.

Lemma forallb_lower_reads (st st' : mstate) (w : text) :
  reads is_lower st st' w -> forallb is_lower w = true.
Proof. intros (_ & _ & H); exact H. Qed.

(** What [\b[A-Z][a-z]+\b] consumes is a capitalised word. *)
Lemma name_match_capitalised (p : option ascii) (m tail : text) (st : mstate) :
  match_at false name_re p (m ++ tail) = Some st ->
  used st = length m ->
  capitalised m = true.
Proof.
  unfold match_at, name_re. cbn [rmatch].
  destruct (at_boundary _); [|discriminate].
  cbn [rest].
  destruct (m ++ tail) as [|c s'] eqn:Es; [discriminate|].
  destruct (cs_mem false (cls is_upper) c) eqn:Ec; [|discriminate].
  cbn [step rest used caps prev].
  destruct s' as [|d s'']; [discriminate|].
  destruct (cs_mem false (cls is_lower) d) eqn:Ed; [|discriminate].
  intros H U.
  destruct (star_sound false is_lower (cls is_lower)
              (rmatch false RWordB (fun st0 => Some st0))) with
      (s := s'') (p := Some d) (n := 2) (g := @nil text) (out := st)
    as (st' & w & Hk & R & Hu & Hw).
  { intros x Hx; unfold cs_mem in Hx; simpl in Hx.
    rewrite orb_false_r in Hx; exact Hx. }
  { exact H. }
  cbn [rmatch] in Hk. destruct (at_boundary st'); [|discriminate].
  inversion Hk; subst st'. cbn [rest used] in R, Hu.
  assert (Em : m = c :: d :: w).
  { assert (El : length m = length (c :: d :: w)) by (simpl; lia).
    rewrite R in Es.
    change (c :: d :: w ++ rest st) with ((c :: d :: w) ++ rest st) in Es.
    clear -Es El. revert Es El. generalize (c :: d :: w) as v.
    induction m as [|x m IHm]; intros [|y v]; simpl; intros Es El;
      try discriminate; [reflexivity|].
    inversion Es; f_equal. apply IHm; auto. }
  rewrite Em; cbn [capitalised forallb].
  unfold cs_mem in Ec, Ed; simpl in Ec, Ed.
  rewrite orb_false_r in Ec, Ed. rewrite Ec, Ed, Hw. reflexivity.
Qed.

Lemma found_names_capitalised (t nm : text) :
  In nm (findall false name_re t) -> capitalised nm = true.
Proof.
  unfold findall; intros H.
  apply in_map_iff in H; destruct H as ([m gs] & E & H); simpl in E; subst m.
  assert (Hin : In (Hit nm gs) (scan false name_re None None 0 t)).
  { clear -H. induction (scan false name_re None None 0 t) as [|sg l IH];
      simpl in *; [tauto|].
    destruct sg; simpl in H; [right; auto|].
    destruct H as [H|H]; [left; inversion H; reflexivity | right; auto]. }
  destruct (scan_hit_match _ _ _ _ _ _ _ _ Hin) as (p & tail & st & Hm & U).
  eapply name_match_capitalised; eauto.
Qed.

(** The dictionary of counts: distinct keys, and for each key the number
    of its occurrences. *)
Lemma bump_nodup (w : text) (counts : list (text * nat)) :
  NoDup (map fst counts) -> NoDup (map fst (bump w counts)).
Proof.
  induction counts as [|[k n] counts IH]; simpl; intros H.
  - constructor; [intros [] | constructor].
  - inversion H as [|? ? Hk Hn]; subst.
    destruct (text_eqb k w) eqn:E; simpl; [constructor; assumption|].
    constructor; [|apply IH; assumption].
    intros Hin. destruct (bump_keys _ _ _ Hin) as [->|Hin']; [|contradiction].
    rewrite text_eqb_refl in E; discriminate.
Qed.

Lemma name_counts_nodup (words : list text) :
  NoDup (map fst (name_counts words)).
Proof.
  unfold name_counts.
  assert (H : forall acc, NoDup (map fst acc) ->
                          NoDup (map fst (fold_left
                                            (fun counts w => bump w counts)
                                            words acc))).
  { induction words as [|w words IH]; intros acc Hacc; simpl; [exact Hacc|].
    apply IH, bump_nodup, Hacc. }
  apply H; constructor.
Qed.

Lemma lookup_bump (w k : text) (counts : list (text * nat)) :
  lookup k (bump w counts)
  = lookup k counts + (if text_eqb k w then 1 else 0).
Proof.
  induction counts as [|[k' n] counts IH]; simpl.
  - destruct (text_eqb w k) eqn:E.
    + apply text_eqb_eq in E; subst. rewrite text_eqb_refl; reflexivity.
    + destruct (text_eqb k w) eqn:E'; [|reflexivity].
      apply text_eqb_eq in E'; subst. rewrite text_eqb_refl in E; discriminate.
  - destruct (text_eqb k' w) eqn:E; simpl.
    + apply text_eqb_eq in E; subst k'.
      destruct (text_eqb w k) eqn:E'.
      * apply text_eqb_eq in E'; subst. rewrite text_eqb_refl; lia.
      * destruct (text_eqb k w) eqn:E''; [|lia].
        apply text_eqb_eq in E''; subst.
        rewrite text_eqb_refl in E'; discriminate.
    + destruct (text_eqb k' k) eqn:E'; [|apply IH].
      apply text_eqb_eq in E'; subst k'.
      rewrite E; lia.
Qed.

Lemma lookup_name_counts (k : text) (words : list text) :
  lookup k (name_counts words) = tally k words.
Proof.
  unfold name_counts, tally.
  assert (H : forall acc,
             lookup k (fold_left (fun counts w => bump w counts) words acc)
             = lookup k acc + length (filter (text_eqb k) words)).
  { induction words as [|w words IH]; intros acc; simpl; [lia|].
    rewrite IH, lookup_bump. destruct (text_eqb k w); simpl; lia. }
  apply H.
Qed.

Lemma lookup_in (k : text) (n : nat) (counts : list (text * nat)) :
  NoDup (map fst counts) -> In (k, n) counts -> lookup k counts = n.
Proof.
  induction counts as [|[k' n'] counts IH]; simpl; intros Hnd H;
    [destruct H|].
  destruct H as [H|H]; inversion Hnd as [|? ? Hk Hn]; subst.
  - inversion H; subst. rewrite text_eqb_refl; reflexivity.
  - destruct (text_eqb k' k) eqn:E; [|apply IH; assumption].
    apply text_eqb_eq in E; subst k'.
    exfalso; apply Hk. apply in_map_iff; exists (k, n); auto.
Qed.

Lemma potential_name_facts (t nm : text) :
  In nm (potential_names t) ->
  capitalised nm = true
  /\ 2 <= tally nm (findall false name_re t)
  /\ mem nm common_words = false.
Proof.
  intros H. split; [apply (found_names_capitalised t), potential_names_found, H|].
  unfold potential_names in H.
  apply in_map_iff in H; destruct H as ([k n] & E & H); simpl in E; subst k.
  apply filter_In in H; destruct H as [Hin Hf]; simpl in Hf.
  apply andb_true_iff in Hf; destruct Hf as [Hn Hc].
  rewrite <- lookup_name_counts.
  rewrite (lookup_in nm n _ (name_counts_nodup _) Hin).
  split; [apply Nat.leb_le, Hn | apply negb_true_iff, Hc].
Qed.

(** Selecting items of a counter leaves its keys distinct. *)
Lemma kept_keys_distinct (keep : text * nat -> bool)
      (counts : list (text * nat)) :
  NoDup (map fst counts) -> NoDup (map fst (filter keep counts)).
Proof.
  induction counts as [|kc counts IH]; cbn [map filter]; intros Hnd;
    [constructor|].
  apply NoDup_cons_iff in Hnd; destruct Hnd as [Hfresh Hrest].
  destruct (keep kc); [|exact (IH Hrest)].
  cbn [map]. apply NoDup_cons; [|exact (IH Hrest)].
  intros Hin; apply Hfresh.
  apply in_map_iff in Hin; destruct Hin as (kc' & Hkey & Hkept).
  apply in_map_iff; exists kc'; split; [exact Hkey|].
  exact (proj1 (proj1 (filter_In keep kc' counts) Hkept)).
Qed.

Lemma nodup_firstn {A : Type} (n : nat) (l : list A) :
  NoDup l -> NoDup (firstn n l).
Proof.
  revert l; induction n as [|n IH]; intros [|x l] H; simpl;
    try constructor.
  - inversion H as [|? ? Hx Hl]; subst.
    intros Hin; apply Hx.
    rewrite <- (firstn_skipn n l); apply in_or_app; left; exact Hin.
  - inversion H; subst; apply IH; assumption.
Qed.

Lemma potential_names_nodup (t : text) : NoDup (potential_names t).
Proof. apply kept_keys_distinct, name_counts_nodup. Qed.

Lemma in_firstn {A : Type} (n : nat) (l : list A) (x : A) :
  In x (firstn n l) -> In x l.
Proof.
  intros H; rewrite <- (firstn_skipn n l); apply in_or_app; left; exact H.
Qed.

(** X1. Extraction returns at most ten characters with pairwise distinct
    names; each name is a capital letter followed by small letters, is
    matched at least twice in the text by the token pattern and is none of
    the eight capitalised function words. *)
Theorem extracted_names_well_formed (t : text) :
  let cs := extract_characters_advanced t in
  length cs <= 10
  /\ NoDup (map name cs)
  /\ Forall (fun c =>
               capitalised (name c) = true
               /\ 2 <= tally (name c) (findall false name_re t)
               /\ mem (name c) common_words = false) cs.
Proof.
  intros cs.
  assert (E : map name cs = firstn 10 (potential_names t)).
  { apply analyze_all_names, Forall_firstn, candidates_analyzed. }
  split.
  { rewrite <- (length_map name), E, length_firstn. apply Nat.le_min_l. }
  split.
  { rewrite E. apply nodup_firstn, potential_names_nodup. }
  apply Forall_forall; intros c Hc.
  apply potential_name_facts, (in_firstn 10).
  rewrite <- E. apply in_map, Hc.
Qed.

End CandidateNames.

Section Pronouns.

Lemma startswith_split (p s : text) :
  startswith p s = true -> exists r, s = p ++ r.
Proof.
  revert s; induction p as [|x p IH]; intros s; simpl; [eauto|].
  destruct s as [|y s]; [discriminate|].
  intros H; apply andb_true_iff in H; destruct H as [E H].
  apply ascii_eqb_eq in E; subst y.
  destruct (IH _ H) as [r ->]; eauto.
Qed.

(** For a word that cannot overlap a copy of itself, [str.count] counts
    the positions at which the word begins. *)
Lemma count_from_occ (p : text) :
  p <> [] ->
  (forall r j, 1 <= j < length p -> startswith p (skipn j (p ++ r)) = false) ->
  forall s skip,
    (forall j, j < skip -> startswith p (skipn j s) = false) ->
    count_from p skip s = occ p s.
Proof.
  intros Hne Hself; induction s as [|c s' IH]; intros skip Hskip;
    [reflexivity|].
  cbn [count_from occ].
  destruct skip as [|k].
  - destruct (startswith p (c :: s')) eqn:E; cbn [b2n Nat.add].
    + f_equal. apply IH. intros j Hj.
      destruct (startswith_split _ _ E) as [r Er].
      change (skipn j s') with (skipn (S j) (c :: s')). rewrite Er.
      apply Hself. lia.
    + apply IH. intros j Hj; lia.
  - pose proof (Hskip 0 (Nat.lt_0_succ _)) as H0. cbn [skipn] in H0.
    rewrite H0. cbn [b2n Nat.add].
    apply IH. intros j Hj.
    change (skipn j s') with (skipn (S j) (c :: s')). apply Hskip. lia.
Qed.

Lemma count_occ_he (s : text) : count (str "he") s = occ (str "he") s.
Proof.
  apply (count_from_occ (str "he")); [discriminate | | intros j Hj; lia].
  intros r [|[|j]] Hj; simpl in Hj; try lia; reflexivity.
Qed.

Lemma count_occ_she (s : text) : count (str "she") s = occ (str "she") s.
Proof.
  apply (count_from_occ (str "she")); [discriminate | | intros j Hj; lia].
  intros r [|[|[|j]]] Hj; simpl in Hj; try lia; reflexivity.
Qed.

Lemma count_occ_her (s : text) : count (str "her") s = occ (str "her") s.
Proof.
  apply (count_from_occ (str "her")); [discriminate | | intros j Hj; lia].
  intros r [|[|[|j]]] Hj; simpl in Hj; try lia; reflexivity.
Qed.

Lemma her_starts_he (s : text) :
  startswith (str "her") s = true -> startswith (str "he") s = true.
Proof.
  intros H; destruct (startswith_split _ _ H) as [r ->]; reflexivity.
Qed.

(** Every 'her' is a 'he'. *)
Lemma occ_he_split (s : text) :
  occ (str "he") s = occ (str "her") s + bare_he s.
Proof.
  induction s as [|c s IH]; [reflexivity|].
  cbn [occ bare_he]. rewrite IH. unfold he_not_her.
  destruct (startswith (str "her") (c :: s)) eqn:E.
  - rewrite (her_starts_he _ E). simpl; lia.
  - destruct (startswith (str "he") (c :: s)); simpl; lia.
Qed.

Lemma she_then_he (c : ascii) (s : text) :
  startswith (str "she") (c :: s) = true ->
  startswith (str "sher") (c :: s) = false ->
  he_not_her s = true.
Proof.
  intros H; destruct (startswith_split _ _ H) as [r E].
  injection E as -> ->. unfold he_not_her.
  destruct r as [|x r]; [reflexivity|].
  simpl. rewrite !andb_true_r. intros ->; reflexivity.
Qed.

Lemma bare_he_tail (s : text) : bare_he (tl s) <= bare_he s.
Proof. destruct s; simpl; lia. Qed.

(** Without 'sher', every 'she' is followed by a 'he' that is no 'her'. *)
Lemma occ_she_bound (s : text) :
  contains (str "sher") s = false ->
  occ (str "she") s <= bare_he (tl s).
Proof.
  induction s as [|c s IH]; [simpl; lia|].
  rewrite contains_unfold. intros H.
  apply orb_false_iff in H; destruct H as [Hs Hc].
  specialize (IH Hc). cbn [occ tl].
  destruct (startswith (str "she") (c :: s)) eqn:E; cbn [b2n].
  - pose proof (she_then_he _ _ E Hs) as Hd.
    destruct s as [|a s']; [discriminate Hd|].
    cbn [bare_he tl] in *. rewrite Hd. cbn [b2n]. lia.
  - pose proof (bare_he_tail s). cbn [Nat.add]. lia.
Qed.

Lemma female_pronouns_bound (s : text) :
  contains (str "sher") s = false ->
  count (str "she") s + count (str "her") s <= count (str "he") s.
Proof.
  intros H. rewrite count_occ_she, count_occ_her, count_occ_he, occ_he_split.
  pose proof (occ_she_bound s H). pose proof (bare_he_tail s). lia.
Qed.

(** X2. For a name that contains no entry of the female name list, the
    pronoun tally cannot answer 'female' unless the lowercased context
    contains 'sher': each 'she' and each 'her' is also counted as a 'he'. *)
Theorem pronoun_tally_needs_sher (nm context : text) :
  existsb (fun fn => contains fn (lower nm)) female_names = false ->
  contains (str "sher") (lower context) = false ->
  _detect_gender nm context <> female.
Proof.
  intros Hf Hs. unfold _detect_gender. rewrite Hf.
  destruct (existsb _ male_names); [discriminate|].
  pose proof (female_pronouns_bound _ Hs) as Hb.
  match goal with
  | |- (if ?a <? ?b then _ else _) <> _ =>
      replace (a <? b) with false by (symmetry; apply Nat.ltb_ge; lia)
  end.
  destruct (_ <? _); discriminate.
Qed.

(** A context with 'she' and 'her', read for a name outside both lists. *)
Lemma pronoun_tally_witness :
  existsb (fun fn => contains fn (lower (str "Geeta"))) female_names = false
  /\ contains (str "sher")
              (lower (str "Geeta says she loves her work")) = false
  /\ _detect_gender (str "Geeta") (str "Geeta says she loves her work")
     <> female.
Proof.
  assert (H1 : existsb (fun fn => contains fn (lower (str "Geeta")))
                       female_names = false) by reflexivity.
  assert (H2 : contains (str "sher")
                        (lower (str "Geeta says she loves her work")) = false)
    by reflexivity.
  split; [exact H1|]. split; [exact H2|].
  apply (pronoun_tally_needs_sher (str "Geeta")
           (str "Geeta says she loves her work") H1 H2).
Defined.

End Pronouns.

Section Evidence.

Lemma mem_in (x : text) (l : list text) : mem x l = true <-> In x l.
Proof.
  unfold mem; rewrite existsb_exists; split.
  - intros (y & Hy & E); apply text_eqb_eq in E; subst; exact Hy.
  - intros H; exists x; split; [exact H | apply text_eqb_refl].
Qed.

Lemma distinct_nodup (l : list text) : distinct l = true -> NoDup l.
Proof.
  induction l as [|x l IH]; simpl; intros H; [constructor|].
  apply andb_true_iff in H; destruct H as [Hx Hl].
  constructor; [|apply IH, Hl].
  intros Hin; apply mem_in in Hin; rewrite Hin in Hx; discriminate.
Qed.

Lemma keywords_drawn (keys : list text) (t : text) :
  distinct keys = true -> drawn_from keys (keywords_in keys t).
Proof.
  intros H; unfold drawn_from, keywords_in; split.
  - apply NoDup_filter, distinct_nodup, H.
  - apply incl_filter.
Qed.

Lemma detect_gender_range (nm context : text) :
  _detect_gender nm context = female
  \/ _detect_gender nm context = male
  \/ _detect_gender nm context = unknown.
Proof.
  unfold _detect_gender.
  repeat match goal with
         | |- context [if ?b then _ else _] => destruct b
         end; auto.
Qed.

Lemma count_dialogue_range (nm t : text) :
  (0 <= _count_dialogue nm t
   <= Z.of_nat (length (split_char "010"%char t)))%Z.
Proof.
  unfold _count_dialogue.
  rewrite (keyword_loop
             (fun line => startswith (upper nm) (upper (strip line))) 1).
  pose proof (filter_length_le
                (fun line => startswith (upper nm) (upper (strip line)))
                (split_char "010"%char t)).
  lia.
Qed.

(** A word that occurs in a text is counted at least once. *)
Lemma count_substring (p x y : text) :
  p <> [] -> 1 <= count p (x ++ p ++ y).
Proof.
  intros Hne. unfold count. destruct p as [|a p]; [contradiction|].
  induction x as [|c x IH].
  - change ([] ++ (a :: p) ++ y) with (a :: (p ++ y)).
    cbn [count_from].
    change (a :: p ++ y) with ((a :: p) ++ y). rewrite startswith_app. lia.
  - change ((c :: x) ++ (a :: p) ++ y) with (c :: (x ++ (a :: p) ++ y)).
    cbn [count_from].
    destruct (startswith (a :: p) (c :: x ++ (a :: p) ++ y)); [lia | exact IH].
Qed.

Lemma screen_time_positive (nm a b : text) :
  nm <> [] -> (0 < _estimate_screen_time nm (a ++ nm ++ b))%Q.
Proof.
  intros Hne. unfold _estimate_screen_time.
  assert (Hm : 1 <= count (lower nm) (lower (a ++ nm ++ b))).
  { unfold lower; rewrite !map_app. apply count_substring.
    destruct nm; [contradiction | discriminate]. }
  set (m := count _ _) in *. set (w := Nat.max _ 1).
  assert (Hw : (0 < of_nat w)%Q) by (apply of_nat_pos; unfold w; lia).
  assert (Hq : (0 < of_nat m)%Q) by (apply of_nat_pos; lia).
  apply Qmult_lt_0_compat; [|reflexivity].
  apply Qlt_shift_div_l; [exact Hw|]. rewrite Qmult_0_l. exact Hq.
Qed.

Lemma analyze_all_in (names : list text) (t : text) (c : Character) :
  In c (analyze_all names t) ->
  exists nm, In nm names /\ _analyze_character nm t = Some c.
Proof.
  induction names as [|nm names IH]; simpl; [intros []|].
  destruct (_analyze_character nm t) as [c'|] eqn:E.
  - intros [H|H]; [subst c'; eauto|].
    destruct (IH H) as (nm' & Hin & E'); eauto.
  - intros H; destruct (IH H) as (nm' & Hin & E'); eauto.
Qed.

Lemma analyze_character_fields (nm t : text) (c : Character) :
  _analyze_character nm t = Some c ->
  exists context,
    name c = nm
    /\ gender c = _detect_gender nm context
    /\ professions c = keywords_in profession_terms context
    /\ relationships c = keywords_in relationship_indicators context
    /\ appearance_descriptions c = keywords_in appearance_words context
    /\ dialogue_count c = _count_dialogue nm t
    /\ screen_time c = _estimate_screen_time nm t.
Proof.
  unfold _analyze_character.
  destruct (filter _ _) as [|s ss]; [discriminate|].
  intros H; injection H as <-.
  cbn [name gender professions relationships appearance_descriptions
       dialogue_count screen_time].
  eexists; repeat split; reflexivity.
Qed.

Lemma extracted_evidence (t : text) :
  Forall (fun c =>
            (gender c = female \/ gender c = male \/ gender c = unknown)
            /\ drawn_from profession_terms (professions c)
            /\ drawn_from relationship_indicators (relationships c)
            /\ drawn_from appearance_words (appearance_descriptions c)
            /\ (0 <= dialogue_count c
                <= Z.of_nat (length (split_char "010"%char t)))%Z
            /\ (0 < screen_time c)%Q)
         (extract_characters_advanced t).
Proof.
  apply Forall_forall; intros c Hc.
  destruct (analyze_all_in _ _ _ Hc) as (nm & Hnm & E).
  apply in_firstn in Hnm.
  destruct (analyze_character_fields _ _ _ E)
    as (ctx & _ & Eg & Ep & Er & Ea & Ed & Es).
  rewrite Eg, Ep, Er, Ea, Ed, Es.
  split; [apply detect_gender_range|].
  split; [apply keywords_drawn; reflexivity|].
  split; [apply keywords_drawn; reflexivity|].
  split; [apply keywords_drawn; reflexivity|].
  split; [apply count_dialogue_range|].
  destruct (candidate_in_text _ _ Hnm) as (Hne & _ & a & b & Et).
  rewrite Et at 1. apply screen_time_positive, Hne.
Qed.


(** X3. Every extracted character has one of the three genders; its
    professions, relationship markers and appearance descriptors are
    distinct entries of the three keyword tables; its dialogue count lies
    between 0 and the number of lines of the text; and its screen time is
    positive. *)
Theorem extracted_evidence_invariants (t : text) :
  Forall (fun c =>
            (gender c = female \/ gender c = male \/ gender c = unknown)
            /\ drawn_from profession_terms (professions c)
            /\ drawn_from relationship_indicators (relationships c)
            /\ drawn_from appearance_words (appearance_descriptions c)
            /\ (0 <= dialogue_count c
                <= Z.of_nat (length (split_char "010"%char t)))%Z
            /\ (0 < screen_time c)%Q)
         (extract_characters_advanced t).
Proof. apply extracted_evidence. Qed.

End Evidence.

(* ===================================================================== *)
(** ** Further properties of the scorer                                   *)
(* ===================================================================== *)

Section ScoreBounds.

Lemma qmax_zero_le (x b : Q) : (0 <= b)%Q -> (x <= b)%Q -> (qmax 0 x <= b)%Q.
Proof.
  intros Hb Hx; destruct (qmax_cases 0 x) as [[_ ->]|[_ ->]]; assumption.
Qed.

Lemma ratio_le_one (n d : nat) : n <= d -> 0 < d -> (ratio n d <= 1)%Q.
Proof.
  intros Hn Hd; unfold ratio.
  apply Qle_shift_div_r; [apply of_nat_pos, Hd|].
  rewrite Qmult_1_l. unfold of_nat, Qle, inject_Z; simpl. lia.
Qed.

Lemma of_nat_succ (n : nat) : (of_nat (S n) == of_nat n + 1)%Q.
Proof.
  unfold of_nat. rewrite Nat2Z.inj_succ, <- Z.add_1_r, inject_Z_plus.
  reflexivity.
Qed.

Lemma qsum_bounds (a b : Q) (l : list Q) :
  Forall (fun x => a <= x <= b)%Q l ->
  (of_nat (length l) * a <= qsum l <= of_nat (length l) * b)%Q.
Proof.
  induction 1 as [|x l [Hax Hxb] _ [IHa IHb]]; simpl.
  - change (of_nat 0) with 0%Q. split; lra.
  - rewrite of_nat_succ. split; lra.
Qed.

(** The mean of a non-empty list lies between its bounds. *)
Lemma np_mean_bounds (a b : Q) (l : list Q) :
  l <> [] ->
  Forall (fun x => a <= x <= b)%Q l ->
  (a <= np_mean l <= b)%Q.
Proof.
  intros Hne H. destruct (qsum_bounds a b l H) as [Ha Hb].
  assert (Hn : (0 < of_nat (length l))%Q).
  { apply of_nat_pos. destruct l; [contradiction | simpl; lia]. }
  unfold np_mean; split.
  - apply Qle_shift_div_l; [exact Hn|]. rewrite Qmult_comm; exact Ha.
  - apply Qle_shift_div_r; [exact Hn|]. rewrite Qmult_comm; exact Hb.
Qed.

Lemma occupation_gap_range (F M : list Character) :
  (0 <= _calculate_occupation_gap F M <= 100)%Q.
Proof.
  unfold _calculate_occupation_gap.
  destruct F as [|f F']; [split; discriminate|].
  split; [apply qmax_lower|].
  apply qmax_zero_le; [discriminate|].
  set (F := f :: F').
  pose proof (ratio_nonneg (count_if (fun c => nonempty (professions c)) F)
                           (length F)) as Hf.
  pose proof (ratio_le_one
                (count_if (fun c => nonempty (professions c)) M)
                (Nat.max (length M) 1)) as Hm.
  unfold ratio in Hf, Hm.
  assert (Hc : count_if (fun c => nonempty (professions c)) M
               <= Nat.max (length M) 1).
  { unfold count_if.
    pose proof (filter_length_le (fun c => nonempty (professions c)) M). lia. }
  specialize (Hm Hc ltac:(lia)). lra.
Qed.

Lemma relationship_defining_range (F : list Character) :
  (0 <= _calculate_relationship_defining F <= 100)%Q.
Proof.
  unfold _calculate_relationship_defining.
  destruct F as [|f F']; [split; discriminate|].
  set (F := f :: F'). set (p := fun c : Character => _).
  pose proof (ratio_nonneg (count_if p F) (length F)) as H0.
  pose proof (ratio_le_one (count_if p F) (length F)) as H1.
  unfold ratio in H0, H1.
  assert (Hc : count_if p F <= length F) by apply filter_length_le.
  specialize (H1 Hc ltac:(unfold F; simpl; lia)). split; lra.
Qed.

Lemma dimension_nonneg (F M : list Character) :
  (0 <= _calculate_agency_gap F M
   /\ 0 <= _calculate_appearance_focus F M
   /\ 0 <= _calculate_dialogue_imbalance F M
   /\ 0 <= _calculate_screen_time_imbalance F M)%Q.
Proof.
  unfold _calculate_agency_gap, _calculate_appearance_focus,
    _calculate_dialogue_imbalance, _calculate_screen_time_imbalance.
  destruct F as [|f F']; [repeat split; discriminate|].
  repeat split; try apply qmax_lower;
    destruct M as [|m M']; cbn [nonempty negb orb]; try discriminate;
    try apply qmax_lower.
  destruct (_ =? 0)%Z; [discriminate | apply qmax_lower].
Qed.

(** X4. For every character list the six dimensions and the overall score
    are at least 0, and the occupation gap and the relationship-defining
    score are at most 100. *)
Theorem scores_nonnegative (characters : list Character) :
  let b := calculate_comprehensive_bias_scores characters in
  (0 <= occupation_gap b <= 100 /\ 0 <= agency_gap b
   /\ 0 <= appearance_focus b /\ 0 <= relationship_defining b <= 100
   /\ 0 <= dialogue_imbalance b /\ 0 <= screen_time_imbalance b
   /\ 0 <= overall b)%Q.
Proof.
  unfold calculate_comprehensive_bias_scores.
  destruct characters as [|c0 cs];
    [simpl; repeat split; discriminate|].
  set (F := filter (is_gender female) (c0 :: cs)).
  set (M := filter (is_gender male) (c0 :: cs)).
  cbn [occupation_gap agency_gap appearance_focus relationship_defining
       dialogue_imbalance screen_time_imbalance overall].
  pose proof (occupation_gap_range F M) as H1.
  pose proof (relationship_defining_range F) as H2.
  destruct (dimension_nonneg F M) as (H3 & H4 & H5 & H6).
  repeat (split; [tauto|]).
  rewrite np_mean_six.
  apply Qle_shift_div_l; [reflexivity|]. lra.
Qed.

End ScoreBounds.

Section ExtractedScoreBounds.

Lemma forall_filter {A : Type} (P : A -> Prop) (p : A -> bool) (l : list A) :
  Forall P l -> Forall P (filter p l).
Proof.
  intros H; apply Forall_forall; intros x Hx.
  apply filter_In in Hx. rewrite Forall_forall in H; apply H; tauto.
Qed.

Lemma forall_map {A B : Type} (f : A -> B) (P : B -> Prop) (l : list A) :
  Forall (fun x => P (f x)) l -> Forall P (map f l).
Proof. induction 1; simpl; constructor; auto. Qed.

Lemma zsum_nonneg (l : list Z) :
  Forall (fun z => 0 <= z)%Z l -> (0 <= zsum l)%Z.
Proof. induction 1; simpl; lia. Qed.

Lemma agency_gap_bound (F M : list Character) :
  Forall bounded_evidence F -> Forall bounded_evidence M ->
  (_calculate_agency_gap F M <= 90)%Q.
Proof.
  intros HF HM; unfold _calculate_agency_gap.
  destruct F as [|f F']; [discriminate|].
  apply qmax_zero_le; [discriminate|].
  assert (Hfm : (1 <= np_mean (map (fun c => inject_Z (agency_level c))
                                   (f :: F')) <= 10)%Q).
  { apply np_mean_bounds; [discriminate|].
    apply forall_map. eapply Forall_impl; [|exact HF].
    intros c ((H1 & H2) & _); split;
      [change 1%Q with (inject_Z 1) | change 10%Q with (inject_Z 10)];
      rewrite <- Zle_Qle; assumption. }
  destruct M as [|m M']; [lra|].
  assert (Hmm : (1 <= np_mean (map (fun c => inject_Z (agency_level c))
                                   (m :: M')) <= 10)%Q).
  { apply np_mean_bounds; [discriminate|].
    apply forall_map. eapply Forall_impl; [|exact HM].
    intros c ((H1 & H2) & _); split;
      [change 1%Q with (inject_Z 1) | change 10%Q with (inject_Z 10)];
      rewrite <- Zle_Qle; assumption. }
  lra.
Qed.

Lemma appearance_mean_bounds (l : list Character) :
  l <> [] -> Forall bounded_evidence l ->
  (0 <= np_mean (map (fun c => of_nat (length (appearance_descriptions c))) l)
   <= 10)%Q.
Proof.
  intros Hne H. apply np_mean_bounds; [destruct l; [contradiction | discriminate]|].
  apply forall_map. eapply Forall_impl; [|exact H].
  intros c (_ & Ha & _); split; [apply of_nat_nonneg|].
  unfold of_nat, Qle, inject_Z; simpl. lia.
Qed.

Lemma appearance_focus_bound (F M : list Character) :
  Forall bounded_evidence F -> Forall bounded_evidence M ->
  (_calculate_appearance_focus F M <= 250)%Q.
Proof.
  intros HF HM; unfold _calculate_appearance_focus.
  destruct F as [|f F']; [discriminate|].
  apply qmax_zero_le; [discriminate|].
  pose proof (appearance_mean_bounds (f :: F') ltac:(discriminate) HF) as Hf.
  destruct M as [|m M']; [lra|].
  pose proof (appearance_mean_bounds (m :: M') ltac:(discriminate) HM) as Hm.
  lra.
Qed.

Lemma dialogue_imbalance_bound (F M : list Character) :
  Forall bounded_evidence F -> Forall bounded_evidence M ->
  (_calculate_dialogue_imbalance F M <= 100)%Q.
Proof.
  intros HF HM; unfold _calculate_dialogue_imbalance.
  destruct F as [|f F']; [discriminate|].
  destruct M as [|m M']; [discriminate|].
  cbn [nonempty negb orb].
  set (tf := zsum (map dialogue_count (f :: F'))).
  set (tm := zsum (map dialogue_count (m :: M'))).
  assert (Htf : (0 <= tf)%Z).
  { apply zsum_nonneg, forall_map. eapply Forall_impl; [|exact HF].
    intros c (_ & _ & H); exact H. }
  assert (Htm : (0 <= tm)%Z).
  { apply zsum_nonneg, forall_map. eapply Forall_impl; [|exact HM].
    intros c (_ & _ & H); exact H. }
  destruct (tf + tm =? 0)%Z eqn:E; [discriminate|].
  apply Z.eqb_neq in E.
  apply qmax_zero_le; [discriminate|].
  assert (Hr : (0 <= inject_Z tf / inject_Z (tf + tm))%Q).
  { apply Qle_shift_div_l.
    - change 0%Q with (inject_Z 0). rewrite <- Zlt_Qlt. lia.
    - rewrite Qmult_0_l. change 0%Q with (inject_Z 0).
      rewrite <- Zle_Qle. exact Htf. }
  pose proof (ratio_le_one (length (f :: F'))
                           (length (f :: F') + length (m :: M'))
                           ltac:(lia) ltac:(simpl; lia)) as He.
  unfold ratio in He. lra.
Qed.

Lemma extracted_bounded (t : text) :
  Forall bounded_evidence (extract_characters_advanced t).
Proof.
  pose proof (extracted_evidence t) as H.
  pose proof (analyze_all_agency (firstn 10 (potential_names t)) t) as Ha.
  apply Forall_forall; intros c Hc.
  rewrite Forall_forall in H, Ha.
  destruct (H c Hc) as (_ & _ & _ & (Hnd & Hin) & (Hd & _) & _).
  repeat split; try apply (Ha c Hc); [|exact Hd].
  apply (NoDup_incl_length Hnd Hin).
Qed.

(** X5. On the characters extracted from a text the agency gap is at most
    90, the appearance focus at most 250 and the dialogue imbalance at
    most 100. *)
Theorem extracted_scores_bounded (t : text) :
  let b := calculate_comprehensive_bias_scores
             (extract_characters_advanced t) in
  (agency_gap b <= 90 /\ appearance_focus b <= 250
   /\ dialogue_imbalance b <= 100)%Q.
Proof.
  pose proof (extracted_bounded t) as H.
  unfold calculate_comprehensive_bias_scores.
  destruct (extract_characters_advanced t) as [|c0 cs];
    [simpl; repeat split; discriminate|].
  cbn [agency_gap appearance_focus dialogue_imbalance].
  pose proof (forall_filter bounded_evidence (is_gender female) _ H) as HF.
  pose proof (forall_filter bounded_evidence (is_gender male) _ H) as HM.
  split; [apply agency_gap_bound; assumption|].
  split; [apply appearance_focus_bound | apply dialogue_imbalance_bound];
    assumption.
Qed.

End ExtractedScoreBounds.

(* ===================================================================== *)
(** ** The script analysis                                                *)
(* ===================================================================== *)

Section ScriptAnalysis.

Lemma exclusive_filters {A : Type} (p q : A -> bool) (l : list A) :
  (forall x, p x = true -> q x = false) ->
  length (filter p l) + length (filter q l) <= length l.
Proof.
  intros H; induction l as [|x l IH]; simpl; [lia|].
  destruct (p x) eqn:Ep; [rewrite (H x Ep)|destruct (q x)]; simpl; lia.
Qed.

Lemma female_not_male (c : Character) :
  is_gender female c = true -> is_gender male c = false.
Proof.
  unfold is_gender; intros H. apply text_eqb_eq in H. rewrite H.
  reflexivity.
Qed.

(** X6. The summary of a script analysis counts the extracted characters,
    at most ten; the female and male counts together do not exceed the
    total; and the bias level is one of 'high', 'medium' and 'low'. *)
Theorem analysis_summary_consistent (script title : text) :
  let a := analyze_movie_script script title in
  total_characters (summary a) = length (characters a)
  /\ total_characters (summary a) <= 10
  /\ female_characters (summary a) + male_characters (summary a)
     <= total_characters (summary a)
  /\ (bias_level (summary a) = str "high"
      \/ bias_level (summary a) = str "medium"
      \/ bias_level (summary a) = str "low").
Proof.
  unfold analyze_movie_script;
    cbn [summary characters total_characters female_characters
         male_characters bias_level].
  split; [reflexivity|].
  split.
  { assert (E : map name (extract_characters_advanced script)
                = firstn 10 (potential_names script)).
    { apply analyze_all_names, Forall_firstn, candidates_analyzed. }
    rewrite <- (length_map name), E, length_firstn. apply Nat.le_min_l. }
  split; [apply exclusive_filters, female_not_male|].
  destruct (qgt _ 60); [auto|]. destruct (qgt _ 30); auto.
Qed.

(** X7. A script from which no female character is extracted is reported
    with an overall score of 0 and the bias level 'low', whatever else it
    contains. *)
Theorem no_female_reported_low (script title : text) :
  female_characters (summary (analyze_movie_script script title)) = 0 ->
  (overall (bias_scores (analyze_movie_script script title)) == 0)%Q
  /\ bias_level (summary (analyze_movie_script script title)) = str "low".
Proof.
  unfold analyze_movie_script;
    cbn [summary bias_scores female_characters bias_level].
  intros H. apply length_zero_iff_nil in H.
  unfold calculate_comprehensive_bias_scores.
  destruct (extract_characters_advanced script) as [|c0 cs];
    [split; reflexivity|].
  rewrite H. split; reflexivity.
Qed.

(** Two men and a person of unknown gender, through the scoring of a
    non-empty cast. *)
Lemma no_female_reported_low_witness :
  female_characters (summary (analyze_movie_script men_only (str "Unknown")))
  = 0
  /\ male_characters (summary (analyze_movie_script men_only (str "Unknown")))
     = 2
  /\ total_characters (summary (analyze_movie_script men_only (str "Unknown")))
     = 3
  /\ (overall (bias_scores (analyze_movie_script men_only (str "Unknown")))
      == 0)%Q
  /\ bias_level (summary (analyze_movie_script men_only (str "Unknown")))
     = str "low".
Proof.
  assert (H : female_characters
                (summary (analyze_movie_script men_only (str "Unknown"))) = 0)
    by (vm_compute; reflexivity).
  split; [exact H|].
  split; [vm_compute; reflexivity|].
  split; [vm_compute; reflexivity|].
  apply (no_female_reported_low men_only (str "Unknown") H).
Defined.

End ScriptAnalysis.

(* ===================================================================== *)
(** ** Further properties of the rewriter                                 *)
(* ===================================================================== *)

Section NoSilentRewrite.

Lemma logged_refl (t : text) (imps : list text) : logged t imps t imps.
Proof. exists []; rewrite app_nil_r; auto. Qed.

Lemma logged_trans (t1 t2 t3 : text) (i1 i2 i3 : list text) :
  logged t1 i1 t2 i2 -> logged t2 i2 t3 i3 -> logged t1 i1 t3 i3.
Proof.
  intros (m1 & E1 & H1) (m2 & E2 & H2).
  exists (m1 ++ m2); split; [rewrite E2, E1, app_assoc; reflexivity|].
  intros E; apply app_eq_nil in E; destruct E as [-> ->].
  rewrite H2, H1; reflexivity.
Qed.

Lemma logged_note (t t' : text) (imps : list text) (note : text) :
  logged t imps t' (imps ++ [note]).
Proof. exists [note]; split; [reflexivity | discriminate]. Qed.

Lemma logged_more (t t' : text) (imps more : list text) :
  (more = [] -> t' = t) -> logged t imps t' (imps ++ more).
Proof. intros H; exists more; auto. Qed.

Lemma apply_rule_logged (msg : text) (t : text) (imps : list text)
      (r : rule) :
  logged t imps (fst (apply_rule msg (t, imps) r))
         (snd (apply_rule msg (t, imps) r)).
Proof.
  unfold apply_rule. destruct (found false (fst r) t); simpl;
    [apply logged_note | apply logged_refl].
Qed.

Lemma apply_rules_logged (msg : text) (rules : list rule) :
  forall t imps,
    logged t imps (fst (apply_rules msg rules (t, imps)))
           (snd (apply_rules msg rules (t, imps))).
Proof.
  unfold apply_rules; induction rules as [|r rules IH]; intros t imps;
    cbn [fold_left]; [apply logged_refl|].
  pose proof (apply_rule_logged msg t imps r) as H.
  destruct (apply_rule msg (t, imps) r) as [t1 i1]; cbn [fst snd] in H.
  eapply logged_trans; [exact H | apply IH].
Qed.

Lemma inject_profession_logged (t : text) (imps : list text) (g : Rng) :
  logged t imps (fst (fst (inject_profession t imps g)))
         (snd (fst (inject_profession t imps g))).
Proof.
  unfold inject_profession.
  destruct (any_in _ _); simpl; [apply logged_refl|].
  destruct (search false female_pattern t) as [[m gs]|]; simpl;
    [apply logged_note | apply logged_refl].
Qed.

Lemma structural_step_logged (t : text) (imps : list text) (g : Rng)
      (b : text) :
  logged t imps (fst (fst (structural_step (t, imps, g) b)))
         (snd (fst (structural_step (t, imps, g) b))).
Proof.
  unfold structural_step.
  destruct (text_eqb b occupation_gap_key).
  { pose proof (apply_rules_logged
                  (str "Added professional identity to character introduction")
                  occupation_patterns t imps) as H.
    destruct (apply_rules _ occupation_patterns (t, imps)) as [t1 i1];
      simpl in H.
    eapply logged_trans; [exact H | apply inject_profession_logged]. }
  destruct (text_eqb b agency_gap_key);
    [cbn [fst snd]; apply apply_rules_logged|].
  destruct (text_eqb b appearance_focus_key);
    [cbn [fst snd]; apply apply_rules_logged|].
  destruct (text_eqb b relationship_defining_key);
    [cbn [fst snd]; apply apply_rules_logged|].
  apply logged_refl.
Qed.

Lemma structural_fold_logged (bias_types : list text) :
  forall t imps g,
    logged t imps
           (fst (fst (fold_left structural_step bias_types (t, imps, g))))
           (snd (fst (fold_left structural_step bias_types (t, imps, g)))).
Proof.
  induction bias_types as [|b bts IH]; intros t imps g; cbn [fold_left];
    [apply logged_refl|].
  pose proof (structural_step_logged t imps g b) as H.
  destruct (structural_step (t, imps, g) b) as [[t1 i1] g1];
    cbn [fst snd] in H.
  eapply logged_trans; [exact H | apply IH].
Qed.

Lemma replace_pass_logged (note : text -> text -> text)
      (table : list (text * list text)) :
  forall t imps g,
    logged t imps
      (fst (fst (fold_left
         (fun (st : text * list text * Rng) (kv : text * list text) =>
            let '(t, imps, g) := st in
            if contains (fst kv) (lower t) then
              let '(replacement, g) := random_choice (snd kv) g in
              (sub true (RLit (fst kv)) [TLit replacement] (Some 1) t,
               imps ++ [note (fst kv) replacement], g)
            else (t, imps, g))
         table (t, imps, g))))
      (snd (fst (fold_left
         (fun (st : text * list text * Rng) (kv : text * list text) =>
            let '(t, imps, g) := st in
            if contains (fst kv) (lower t) then
              let '(replacement, g) := random_choice (snd kv) g in
              (sub true (RLit (fst kv)) [TLit replacement] (Some 1) t,
               imps ++ [note (fst kv) replacement], g)
            else (t, imps, g))
         table (t, imps, g)))).
Proof.
  induction table as [|kv table IH]; intros t imps g; simpl;
    [apply logged_refl|].
  destruct (contains (fst kv) (lower t)); [|apply IH].
  cbn [random_choice].
  eapply logged_trans; [apply logged_note | apply IH].
Qed.

Lemma replace_pass_quiet (note : text -> text -> text)
      (table : list (text * list text)) (t : text) (g : Rng) :
  snd (fst (replace_pass note table t g)) = [] ->
  fst (fst (replace_pass note table t g)) = t.
Proof.
  unfold replace_pass.
  destruct (replace_pass_logged note table t [] g) as (more & E & H).
  simpl in E. intros Hnil; apply H. rewrite <- E; exact Hnil.
Qed.

Lemma add_professional_identity_quiet (t : text) (g : Rng) :
  snd (fst (_add_professional_identity t g)) = [] ->
  fst (fst (_add_professional_identity t g)) = t.
Proof.
  unfold _add_professional_identity.
  destruct (any_in female_indicators (lower t)
            && negb (any_in professional_titles (lower t))).
  - destruct (random_choice profession_additions g) as [profession g1].
    destruct (search false first_name_re t) as [[m gs]|].
    + destruct (_ && _); cbn [fst snd]; discriminate.
    + destruct (_ && _); cbn [fst snd]; [discriminate | reflexivity].
  - destruct (_ && _); cbn [fst snd]; [discriminate | reflexivity].
Qed.

Lemma reduce_relationship_logged :
  forall t imps,
    logged t imps
      (fst (fold_left
         (fun (st : text * list text) (r : rule) =>
            let '(t, imps) := st in
            if found true (fst r) t
            then (sub true (fst r) (snd r) (Some 1) t,
                  imps ++ [str "Added independent identity alongside family relationship"])
            else (t, imps))
         relationship_patterns (t, imps)))
      (snd (fold_left
         (fun (st : text * list text) (r : rule) =>
            let '(t, imps) := st in
            if found true (fst r) t
            then (sub true (fst r) (snd r) (Some 1) t,
                  imps ++ [str "Added independent identity alongside family relationship"])
            else (t, imps))
         relationship_patterns (t, imps))).
Proof.
  induction relationship_patterns as [|r rules IH]; intros t imps; simpl;
    [apply logged_refl|].
  destruct (found true (fst r) t); [|apply IH].
  eapply logged_trans; [apply logged_note | apply IH].
Qed.

Lemma reduce_relationship_quiet (t : text) :
  snd (_reduce_relationship_dependency t) = [] ->
  fst (_reduce_relationship_dependency t) = t.
Proof.
  unfold _reduce_relationship_dependency.
  destruct (reduce_relationship_logged t []) as (more & E & H).
  simpl in E. intros Hnil; apply H. rewrite <- E; exact Hnil.
Qed.

Lemma rule_based_logged (t : text) (bias_types : list text) (g : Rng) :
  logged t []
         (rewritten_text (fst (rewrite_text_rule_based t bias_types g)))
         (improvements (fst (rewrite_text_rule_based t bias_types g))).
Proof.
  unfold rewrite_text_rule_based, structural_phase.
  pose proof (structural_fold_logged bias_types t [] g) as H1.
  destruct (fold_left structural_step bias_types (t, [], g))
    as [[t1 i1] g1]; cbn [fst snd] in H1.
  assert (H2 : exists t2 i2 g2,
             (if has_key appearance_focus_key bias_types then
                let '(t', more, g') := _reduce_appearance_focus t1 g1 in
                (t', i1 ++ more, g')
              else (t1, i1, g1)) = (t2, i2, g2)
             /\ logged t1 i1 t2 i2).
  { destruct (has_key appearance_focus_key bias_types);
      [|do 3 eexists; split; [reflexivity | apply logged_refl]].
    pose proof (replace_pass_quiet
                  (fun appearance_word replacement =>
                     str "Replaced appearance-focused " ++ [dquote]
                     ++ appearance_word ++ [dquote] ++ str " with "
                     ++ [dquote] ++ replacement ++ [dquote])
                  appearance_replacements t1 g1) as Hq.
    fold (_reduce_appearance_focus t1 g1) in Hq.
    destruct (_reduce_appearance_focus t1 g1) as [[t' more] g'];
      cbn [fst snd] in Hq.
    do 3 eexists; split; [reflexivity | apply logged_more, Hq]. }
  destruct H2 as (t2 & i2 & g2 & -> & L2).
  assert (H3 : exists t3 i3 g3,
             (if has_key agency_gap_key bias_types then
                let '(t', more, g') := _increase_agency t2 g2 in
                (t', i2 ++ more, g')
              else (t2, i2, g2)) = (t3, i3, g3)
             /\ logged t2 i2 t3 i3).
  { destruct (has_key agency_gap_key bias_types);
      [|do 3 eexists; split; [reflexivity | apply logged_refl]].
    pose proof (replace_pass_quiet
                  (fun _ _ => str "Converted passive action to active agency")
                  agency_replacements t2 g2) as Hq.
    fold (_increase_agency t2 g2) in Hq.
    destruct (_increase_agency t2 g2) as [[t' more] g'];
      cbn [fst snd] in Hq.
    do 3 eexists; split; [reflexivity | apply logged_more, Hq]. }
  destruct H3 as (t3 & i3 & g3 & -> & L3).
  assert (H4 : exists t4 i4 g4,
             (if has_key occupation_gap_key bias_types then
                let '(t', more, g') := _add_professional_identity t3 g3 in
                (t', i3 ++ more, g')
              else (t3, i3, g3)) = (t4, i4, g4)
             /\ logged t3 i3 t4 i4).
  { destruct (has_key occupation_gap_key bias_types);
      [|do 3 eexists; split; [reflexivity | apply logged_refl]].
    pose proof (add_professional_identity_quiet t3 g3) as Hq.
    destruct (_add_professional_identity t3 g3) as [[t' more] g'];
      cbn [fst snd] in Hq.
    do 3 eexists; split; [reflexivity | apply logged_more, Hq]. }
  destruct H4 as (t4 & i4 & g4 & -> & L4).
  assert (H5 : exists t5 i5,
             (if has_key relationship_defining_key bias_types then
                let '(t', more) := _reduce_relationship_dependency t4 in
                (t', i4 ++ more)
              else (t4, i4)) = (t5, i5)
             /\ logged t4 i4 t5 i5).
  { destruct (has_key relationship_defining_key bias_types);
      [|do 2 eexists; split; [reflexivity | apply logged_refl]].
    pose proof (reduce_relationship_quiet t4) as Hq.
    destruct (_reduce_relationship_dependency t4) as [t' more];
      cbn [fst snd] in Hq.
    do 2 eexists; split; [reflexivity | apply logged_more, Hq]. }
  destruct H5 as (t5 & i5 & -> & L5).
  cbn [fst rewritten_text improvements].
  eapply logged_trans; [exact H1|].
  eapply logged_trans; [exact L2|].
  eapply logged_trans; [exact L3|].
  eapply logged_trans; [exact L4 | exact L5].
Qed.

(** X8. The rule-based rewriter never changes a text silently: when the
    list of improvements it returns is empty, the rewritten text is the
    input text. *)
Theorem no_silent_rewrite (t : text) (bias_types : list text) (g : Rng) :
  improvements (fst (rewrite_text_rule_based t bias_types g)) = [] ->
  rewritten_text (fst (rewrite_text_rule_based t bias_types g)) = t.
Proof.
  destruct (rule_based_logged t bias_types g) as (more & E & H).
  simpl in E. intros Hnil; apply H. rewrite <- E; exact Hnil.
Qed.

(** A sentence none of the rules and passes applies to. *)
Lemma no_silent_rewrite_witness :
  improvements
    (fst (rewrite_text_rule_based (str "Rohit sings") all_keys fixed_rng)) = []
  /\ rewritten_text
       (fst (rewrite_text_rule_based (str "Rohit sings") all_keys fixed_rng))
     = str "Rohit sings".
Proof.
  assert (H : improvements
                (fst (rewrite_text_rule_based (str "Rohit sings") all_keys
                                              fixed_rng)) = [])
    by (vm_compute; reflexivity).
  split; [exact H|].
  apply (no_silent_rewrite (str "Rohit sings") all_keys fixed_rng H).
Defined.

End NoSilentRewrite.

Section Ranking.

Lemma qgt_true (a b : Q) : qgt a b = true -> (b < a)%Q.
Proof.
  unfold qgt; intros H. apply negb_true_iff in H.
  apply Qnot_le_lt. intros Hle. apply Qle_bool_iff in Hle. congruence.
Qed.

Lemma qgt_false (a b : Q) : qgt a b = false -> (a <= b)%Q.
Proof.
  unfold qgt; intros H. apply negb_false_iff in H.
  apply Qle_bool_iff; exact H.
Qed.

Lemma insert_by_quality_perm (x : RewriteResult) (l : list RewriteResult) :
  Permutation (x :: l) (insert_by_quality x l).
Proof.
  induction l as [|y l IH]; cbn [insert_by_quality]; [reflexivity|].
  destruct (qgt (quality_score y) (quality_score x)); [|reflexivity].
  rewrite perm_swap. apply perm_skip, IH.
Qed.

Lemma insert_by_quality_sorted (x : RewriteResult)
      (l : list RewriteResult) :
  StronglySorted by_quality l ->
  StronglySorted by_quality (insert_by_quality x l).
Proof.
  induction 1 as [|y l Hs IH Hall]; cbn [insert_by_quality].
  - constructor; constructor.
  - destruct (qgt (quality_score y) (quality_score x)) eqn:E.
    + constructor; [exact IH|].
      apply (Permutation_Forall (insert_by_quality_perm x l)).
      constructor; [|exact Hall].
      apply Qlt_le_weak, qgt_true, E.
    + apply qgt_false in E.
      constructor; [constructor; assumption|].
      constructor; [exact E|].
      apply Forall_forall; intros z Hz.
      unfold by_quality.
      apply Qle_trans with (quality_score y); [|exact E].
      exact (proj1 (Forall_forall _ _) Hall z Hz).
Qed.

Lemma sort_by_quality_perm (l : list RewriteResult) :
  Permutation l (sort_by_quality l).
Proof.
  induction l as [|x l IH]; [reflexivity|].
  cbn [sort_by_quality fold_right].
  etransitivity; [apply perm_skip, IH | apply insert_by_quality_perm].
Qed.

Lemma sort_by_quality_sorted (l : list RewriteResult) :
  StronglySorted by_quality (sort_by_quality l).
Proof.
  induction l as [|x l IH]; [constructor|].
  cbn [sort_by_quality fold_right]. apply insert_by_quality_sorted, IH.
Qed.

(** The loop of [rewrite_multiple_alternatives] collects the results of
    the seeded runs in order. *)
Lemma alternatives_loop (seed : nat -> Rng) (t : text)
      (bias_types : list text) (idx : list nat) :
  forall acc g,
    fst (fold_left
           (fun (st : list RewriteResult * Rng) (i : nat) =>
              let '(alternatives, _) := st in
              let '(result, g) :=
                rewrite_text_rule_based t bias_types (seed i) in
              (alternatives ++ [result], g))
           idx (acc, g))
    = acc ++ map (fun i => fst (rewrite_text_rule_based t bias_types (seed i)))
                 idx.
Proof.
  induction idx as [|i idx IH]; intros acc g; cbn [fold_left map].
  - rewrite app_nil_r; reflexivity.
  - destruct (rewrite_text_rule_based t bias_types (seed i)) as [r g1] eqn:E.
    rewrite IH, <- app_assoc. reflexivity.
Qed.

Lemma alternatives_unsorted (seed : nat -> Rng) (t : text)
      (bias_types : list text) (num_alternatives : Z) (g : Rng) :
  fst (rewrite_multiple_alternatives seed t bias_types num_alternatives g)
  = sort_by_quality
      (seeded_results seed t bias_types (Z.to_nat num_alternatives)).
Proof.
  unfold rewrite_multiple_alternatives, seeded_results.
  pose proof (alternatives_loop seed t bias_types
                (seq 0 (Z.to_nat num_alternatives)) [] g) as H.
  destruct (fold_left _ _ _) as [alts g1]. cbn [fst] in *.
  rewrite H. reflexivity.
Qed.

(** X9. [rewrite_multiple_alternatives] returns the results of the runs
    seeded 0, 1, ..., one for each, rearranged so that no result stands
    before one of higher quality; the list does not depend on the state
    of the random source at the call. *)
Theorem alternatives_ranked (seed : nat -> Rng) (t : text)
        (bias_types : list text) (num_alternatives : Z) (g : Rng) :
  let alternatives :=
    fst (rewrite_multiple_alternatives seed t bias_types num_alternatives g) in
  Permutation
    (seeded_results seed t bias_types (Z.to_nat num_alternatives))
    alternatives
  /\ StronglySorted by_quality alternatives
  /\ length alternatives = Z.to_nat num_alternatives
  /\ forall g',
       fst (rewrite_multiple_alternatives seed t bias_types
                                          num_alternatives g')
       = alternatives.
Proof.
  cbv zeta. rewrite alternatives_unsorted.
  split; [apply sort_by_quality_perm|].
  split; [apply sort_by_quality_sorted|].
  split.
  - rewrite <- (Permutation_length (sort_by_quality_perm _)).
    unfold seeded_results. rewrite length_map, length_seq. reflexivity.
  - intros g'. apply alternatives_unsorted.
Qed.

End Ranking.

Section MultipleRewrites.

(** [rewrite_text_llm] hands no exception on: what the hosted model
    raises is caught and answered by the rule-based rewriter. *)
Lemma rewrite_text_llm_of_returns (self : LLMBiasRewriter)
      (api : ChatCompletion) (t : text) (bias_types : list text) (g : Rng) :
  exists r g' records,
    rewrite_text_llm_of self api t bias_types g = Returns (r, g', records)
    /\ original_text r = t.
Proof.
  unfold rewrite_text_llm_of, try_except.
  destruct (llm_attempt api t bias_types) as [e|r] eqn:E.
  - destruct (rewrite_text_rule_based_of self t bias_types g) as [r g'] eqn:R.
    exists r, g', [failure_record e]; split; [reflexivity|].
    revert R. unfold rewrite_text_rule_based_of.
    repeat match goal with
           | |- context [let '(_, _) := ?x in _] => destruct x
           end.
    intros R; injection R as <- _; reflexivity.
  - exists r, g, []; split; [reflexivity|].
    revert E. unfold llm_attempt.
    destruct (api _ _) as [e|[|content choices]]; try discriminate.
    intros E; injection E as <-; reflexivity.
Qed.

Lemma rule_based_of_original (self : LLMBiasRewriter) (t : text)
      (bias_types : list text) (g : Rng) :
  original_text (fst (rewrite_text_rule_based_of self t bias_types g)) = t.
Proof.
  unfold rewrite_text_rule_based_of.
  repeat match goal with
         | |- context [let '(_, _) := ?x in _] => destruct x
         end.
  reflexivity.
Qed.

(** The loop of [generate_multiple_rewrites] adds one result a turn and
    leaves the instance alone. *)
Lemma rewrites_loop (self : LLMBiasRewriter) (apis : nat -> ChatCompletion)
      (t : text) (bias_types : list text) (idx : list nat) :
  forall rewrites g log,
    Forall (fun r => original_text r = t) rewrites ->
    exists rewrites' g' log',
      fold_left
        (fun (st : list RewriteResult * Rng * list LogRecord
                   * LLMBiasRewriter) (i : nat) =>
           let '(rewrites, g, log, self) := st in
           match rewrite_text_llm_of self (apis i) t bias_types g with
           | Returns (llm_rewrite, g', records) =>
               (rewrites ++ [llm_rewrite], g', log ++ records, self)
           | Raises _ =>
               let '(variation, g', self') :=
                 _create_rule_based_variation self t bias_types i g in
               (rewrites ++ [variation], g', log, self')
           end)
        idx (rewrites, g, log, self)
      = (rewrites', g', log', self)
      /\ length rewrites' = length rewrites + length idx
      /\ Forall (fun r => original_text r = t) rewrites'.
Proof.
  induction idx as [|i idx IH]; intros rewrites g log Hall; cbn [fold_left].
  - exists rewrites, g, log; repeat split; [cbn; lia | exact Hall].
  - destruct (rewrite_text_llm_of_returns self (apis i) t bias_types g)
      as (r & g' & records & -> & Hr).
    destruct (IH (rewrites ++ [r]) g' (log ++ records))
      as (rs & g2 & l2 & E & Hlen & Hall').
    { apply Forall_app; split; [exact Hall | constructor; [exact Hr|constructor]]. }
    exists rs, g2, l2; repeat split; [exact E | | exact Hall'].
    rewrite Hlen, length_app; cbn; lia.
Qed.


End MultipleRewrites.

Section Batch.

Lemma rule_based_original (t : text) (bias_types : list text) (g : Rng) :
  original_text (fst (rewrite_text_rule_based t bias_types g)) = t.
Proof.
  unfold rewrite_text_rule_based.
  repeat match goal with
         | |- context [let '(_, _) := ?x in _] => destruct x
         end.
  reflexivity.
Qed.

Lemma batch_loop (bias_types : list text) (texts : list text) :
  forall acc g,
    fold_left
      (fun (st : list RewriteResult * Rng) (t : text) =>
         let '(results, g) := st in
         let '(result, g) := rewrite_text_rule_based t bias_types g in
         (results ++ [result], g))
      texts (acc, g)
    = (acc ++ fst (batch_rewrite texts bias_types g),
       snd (batch_rewrite texts bias_types g)).
Proof.
  unfold batch_rewrite.
  induction texts as [|t texts IH]; intros acc g; cbn [fold_left].
  - cbn [fst snd]. rewrite app_nil_r; reflexivity.
  - destruct (rewrite_text_rule_based t bias_types g) as [r g1].
    rewrite (IH (acc ++ [r]) g1), (IH ([] ++ [r]) g1).
    cbn [fst snd app]. rewrite <- app_assoc. reflexivity.
Qed.

Lemma batch_cons (t : text) (texts bias_types : list text) (g : Rng) :
  batch_rewrite (t :: texts) bias_types g
  = (fst (rewrite_text_rule_based t bias_types g)
       :: fst (batch_rewrite texts bias_types
                 (snd (rewrite_text_rule_based t bias_types g))),
     snd (batch_rewrite texts bias_types
            (snd (rewrite_text_rule_based t bias_types g)))).
Proof.
  unfold batch_rewrite at 1. cbn [fold_left].
  destruct (rewrite_text_rule_based t bias_types g) as [r g1].
  rewrite batch_loop. reflexivity.
Qed.

Lemma batch_originals (bias_types : list text) (texts : list text) :
  forall g, map original_text (fst (batch_rewrite texts bias_types g)) = texts.
Proof.
  induction texts as [|t texts IH]; intros g; [reflexivity|].
  rewrite batch_cons. cbn [fst map].
  rewrite rule_based_original, IH. reflexivity.
Qed.

Lemma batch_app (bias_types : list text) (a b : list text) :
  forall g,
    batch_rewrite (a ++ b) bias_types g
    = (fst (batch_rewrite a bias_types g)
         ++ fst (batch_rewrite b bias_types
                   (snd (batch_rewrite a bias_types g))),
       snd (batch_rewrite b bias_types (snd (batch_rewrite a bias_types g)))).
Proof.
  induction a as [|t a IH]; intros g.
  - cbn [app]. unfold batch_rewrite at 2 4 6. cbn [fold_left fst snd app].
    destruct (batch_rewrite b bias_types g); reflexivity.
  - rewrite <- app_comm_cons, !batch_cons, IH. reflexivity.
Qed.

(** X11. [batch_rewrite] returns one result for each text, in the order
    of the texts; a batch of two lists one after the other is the batch
    of the first followed by the batch of the second, started from the
    random source the first has left. *)
Theorem batch_rewrite_in_order (texts more bias_types : list text)
        (g : Rng) :
  map original_text (fst (batch_rewrite texts bias_types g)) = texts
  /\ batch_rewrite (texts ++ more) bias_types g
     = (fst (batch_rewrite texts bias_types g)
          ++ fst (batch_rewrite more bias_types
                    (snd (batch_rewrite texts bias_types g))),
        snd (batch_rewrite more bias_types
               (snd (batch_rewrite texts bias_types g)))).
Proof. split; [apply batch_originals | apply batch_app]. Qed.

End Batch.

Section UnchangedText.

Lemma mem_self (l : list text) (x : text) : In x l -> mem x l = true.
Proof.
  intros H; unfold mem; apply existsb_exists.
  exists x; split; [exact H | apply text_eqb_refl].
Qed.

Lemma filter_all {A : Type} (f : A -> bool) (l : list A) :
  (forall x, In x l -> f x = true) -> filter f l = l.
Proof.
  induction l as [|a l IH]; intros H; [reflexivity|].
  cbn [filter]. rewrite (H a (or_introl eq_refl)), IH; [reflexivity|].
  intros x Hx; apply H; right; exact Hx.
Qed.

Lemma length_points_same (t : text) : length_points t t = 20%Q.
Proof.
  unfold length_points.
  destruct (Z.of_nat (length t) =? 0)%Z; [reflexivity|].
  replace (8 * Z.of_nat (length t) <=? 10 * Z.of_nat (length t))%Z with true
    by (symmetry; apply Z.leb_le; lia).
  replace (10 * Z.of_nat (length t) <=? 15 * Z.of_nat (length t))%Z with true
    by (symmetry; apply Z.leb_le; lia).
  reflexivity.
Qed.

Lemma name_points_same (t : text) : (name_points t t == 20)%Q.
Proof.
  unfold name_points, kept_names.
  rewrite (filter_all _ (names_of t) (mem_self (names_of t))).
  destruct (names_of t) as [|n ns]; [reflexivity|].
  set (m := length (n :: ns)).
  assert (Hm : (0 < of_nat m)%Q) by (apply of_nat_pos; unfold m; cbn; lia).
  unfold of_nat in *. rewrite Nat2Z.inj_mul, inject_Z_mult.
  change (inject_Z (Z.of_nat 20)) with 20%Q.
  generalize dependent (inject_Z (Z.of_nat m)). intros y Hy.
  field. intros E; rewrite E in Hy; discriminate.
Qed.

Lemma flow_points_same (t : text) : flow_points t t = 20%Q.
Proof.
  unfold flow_points, abs_diff. rewrite Nat.sub_diag. reflexivity.
Qed.

(** A rewrite that is the original text with no improvement scores the
    three preservation components in full and nothing for improvements. *)
Lemma quality_of_same_text (t : text) :
  (_calculate_quality_score t t [] == 60 + readability_points t)%Q.
Proof.
  unfold _calculate_quality_score, qsum. cbn [fold_right].
  rewrite length_preservation_points, length_points_same.
  rewrite name_preservation_points, name_points_same.
  rewrite narrative_flow_points, flow_points_same.
  rewrite improvement_count_points, readability_points_eq.
  change (improvement_points []) with 0%Q. ring.
Qed.

Lemma bias_reduction_of_same_text (t : text) (bias_types : list text) :
  (_calculate_bias_reduction t t bias_types
   == if indicator_hits t =? 0 then 50 else 0)%Q.
Proof.
  unfold _calculate_bias_reduction.
  destruct (indicator_hits t =? 0) eqn:E; [reflexivity|].
  apply Nat.eqb_neq in E.
  assert (Hn : (0 < of_nat (indicator_hits t))%Q) by (apply of_nat_pos; lia).
  assert (H1 : ((of_nat (indicator_hits t) - of_nat (indicator_hits t))
                / of_nat (indicator_hits t) * 100 == 0)%Q).
  { field. intros E0; rewrite E0 in Hn; discriminate. }
  assert (H2 : ((of_nat (count_in profession_words (lower t))
                 - of_nat (count_in profession_words (lower t))) * 10 == 0)%Q)
    by ring.
  rewrite (qmin_compat 100 100 _ (0 + 0)%Q); [reflexivity | reflexivity |].
  rewrite (qmax_compat 0 0 _ 0%Q (Qeq_refl 0) H1).
  rewrite (qmin_compat 30 30 _ 0%Q (Qeq_refl 30) H2).
  reflexivity.
Qed.

Lemma rule_based_scores (t : text) (bias_types : list text) (g : Rng) :
  let r := fst (rewrite_text_rule_based t bias_types g) in
  quality_score r
  = _calculate_quality_score t (rewritten_text r) (improvements r)
  /\ bias_reduction r
     = _calculate_bias_reduction t (rewritten_text r) bias_types.
Proof.
  unfold rewrite_text_rule_based.
  repeat match goal with
         | |- context [let '(_, _) := ?x in _] => destruct x
         end.
  split; reflexivity.
Qed.

Lemma readability_points_le (t : text) : (readability_points t <= 20)%Q.
Proof. apply readability_points_range. Qed.

End UnchangedText.

Section UnchangedScores.

(** X12. A rule-based rewrite that reports no improvement gets the
    quality 60 plus the readability component of the input, hence at most
    80, and the bias reduction 50 when the input has no indicator and 0
    otherwise. *)
Theorem unannotated_rewrite_scores (t : text) (bias_types : list text)
        (g : Rng) :
  improvements (fst (rewrite_text_rule_based t bias_types g)) = [] ->
  (quality_score (fst (rewrite_text_rule_based t bias_types g))
   == 60 + readability_points t)%Q
  /\ (quality_score (fst (rewrite_text_rule_based t bias_types g)) <= 80)%Q
  /\ (bias_reduction (fst (rewrite_text_rule_based t bias_types g))
      == if indicator_hits t =? 0 then 50 else 0)%Q.
Proof.
  intros Hnil.
  destruct (rule_based_logged t bias_types g) as (more & E & Hsame).
  cbn [app] in E. rewrite Hnil in E. specialize (Hsame (eq_sym E)).
  destruct (rule_based_scores t bias_types g) as [Hq Hb]; cbv zeta in Hq, Hb.
  rewrite Hq, Hb, Hsame, Hnil.
  split; [apply quality_of_same_text|].
  split; [|apply bias_reduction_of_same_text].
  rewrite quality_of_same_text.
  pose proof (readability_points_le t). lra.
Qed.

Lemma unannotated_rewrite_witness :
  improvements
    (fst (rewrite_text_rule_based (str "Rohit sings") all_keys fixed_rng)) = []
  /\ (quality_score
        (fst (rewrite_text_rule_based (str "Rohit sings") all_keys fixed_rng))
      <= 80)%Q.
Proof.
  assert (H : improvements
                (fst (rewrite_text_rule_based (str "Rohit sings") all_keys
                                              fixed_rng)) = [])
    by (vm_compute; reflexivity).
  split; [exact H|].
  apply (unannotated_rewrite_scores (str "Rohit sings") all_keys fixed_rng H).
Defined.

Lemma analyze_same_text (t : text) (bias_types : list text) :
  _analyze_llm_improvements t t bias_types = [].
Proof.
  unfold _analyze_llm_improvements. rewrite !Nat.ltb_irrefl. reflexivity.
Qed.

(** X13. When the hosted model answers with the input text, up to
    surrounding white space, [rewrite_text_llm] returns it as an
    [llm_based] result without improvements, with the quality 60 plus the
    readability component and the bias reduction 50 or 0, and hands
    nothing to the logger. *)
Theorem llm_echo_scores (api : ChatCompletion) (t : text)
        (bias_types : list text) (g : Rng) (content : text)
        (choices : list text) :
  api system_message (prompt_of t bias_types) = Returns (content :: choices) ->
  strip content = t ->
  exists r,
    rewrite_text_llm api t bias_types g = Returns (r, g, [])
    /\ rewritten_text r = t
    /\ improvements r = []
    /\ rewrite_type r = str "llm_based"
    /\ (quality_score r == 60 + readability_points t)%Q
    /\ (bias_reduction r == if indicator_hits t =? 0 then 50 else 0)%Q.
Proof.
  intros Hapi Hstrip.
  unfold rewrite_text_llm, try_except, llm_attempt.
  rewrite Hapi, Hstrip, analyze_same_text.
  eexists; split; [reflexivity|]. cbn [rewritten_text improvements
    rewrite_type quality_score bias_reduction].
  repeat split.
  - apply quality_of_same_text.
  - apply bias_reduction_of_same_text.
Qed.

Lemma llm_echo_witness :
  echo_api (str " Rohit sings ") system_message
           (prompt_of (str "Rohit sings") all_keys)
  = Returns [str " Rohit sings "]
  /\ strip (str " Rohit sings ") = str "Rohit sings"
  /\ exists r,
       rewrite_text_llm (echo_api (str " Rohit sings ")) (str "Rohit sings")
                        all_keys fixed_rng
       = Returns (r, fixed_rng, [])
       /\ improvements r = [].
Proof.
  split; [reflexivity|]. split; [reflexivity|].
  destruct (llm_echo_scores (echo_api (str " Rohit sings "))
              (str "Rohit sings") all_keys fixed_rng (str " Rohit sings ") []
              eq_refl eq_refl) as (r & E & _ & Hi & _).
  exists r; split; [exact E | exact Hi].
Defined.

End UnchangedScores.

Section ReductionRange.

Lemma count_in_le (keys : list text) (s : text) :
  count_in keys s <= length keys.
Proof. unfold count_in; apply filter_length_le. Qed.

Lemma profession_term_range (original rewritten : text) :
  (-70 <= qmin 30 ((of_nat (count_in profession_words (lower rewritten))
                    - of_nat (count_in profession_words (lower original)))
                   * 10) <= 30)%Q.
Proof.
  pose proof (count_in_le profession_words (lower original)) as Ho.
  change (length profession_words) with 7 in Ho.
  set (ro := count_in profession_words (lower original)) in *.
  set (rr := count_in profession_words (lower rewritten)).
  assert (H0 : (0 <= of_nat rr)%Q) by apply of_nat_nonneg.
  assert (H7 : (of_nat ro <= 7)%Q).
  { unfold of_nat, Qle, inject_Z; cbn [Qnum Qden]. lia. }
  destruct (qmin_cases 30 ((of_nat rr - of_nat ro) * 10))
    as [[H ->]|[H ->]]; lra.
Qed.

Lemma reduction_term_range (a b : nat) :
  0 < a ->
  (0 <= qmax 0 ((of_nat a - of_nat b) / of_nat a * 100) <= 100)%Q.
Proof.
  intros Ha.
  assert (Hq : (0 < of_nat a)%Q) by (apply of_nat_pos; exact Ha).
  assert (Hb : (0 <= of_nat b)%Q) by apply of_nat_nonneg.
  destruct (qmax_cases 0 ((of_nat a - of_nat b) / of_nat a * 100))
    as [[H ->]|[H ->]]; [lra|].
  split; [lra|].
  assert (Hd : ((of_nat a - of_nat b) / of_nat a <= 1)%Q).
  { apply Qle_shift_div_r; [exact Hq | lra]. }
  lra.
Qed.

Lemma bias_reduction_bounds (original rewritten : text)
      (bias_types : list text) :
  (-70 <= _calculate_bias_reduction original rewritten bias_types <= 100)%Q.
Proof.
  split; [|apply bias_reduction_at_most_100].
  unfold _calculate_bias_reduction.
  destruct (indicator_hits original =? 0) eqn:E; [discriminate|].
  apply Nat.eqb_neq in E.
  pose proof (reduction_term_range (indicator_hits original)
                (indicator_hits rewritten) ltac:(lia)) as [H1 _].
  pose proof (profession_term_range original rewritten) as [H2 _].
  match goal with
  | |- (_ <= qmin 100 ?x)%Q =>
      destruct (qmin_cases 100 x) as [[H ->]|[H ->]]
  end; lra.
Qed.

(** X14. The bias-reduction score lies between -70 and 100, and -70 is
    reached: by a rewrite that keeps the one indicator of a text and
    drops its seven profession words. *)
Theorem bias_reduction_range (original rewritten : text)
        (bias_types : list text) :
  (-70 <= _calculate_bias_reduction original rewritten bias_types <= 100)%Q
  /\ (_calculate_bias_reduction all_professions_text (str "waits") bias_types
      == -70)%Q.
Proof.
  split; [apply bias_reduction_bounds | vm_compute; reflexivity].
Qed.

(** X15. The bias-reduction score is not negative when the rewrite
    mentions at least as many of the profession words as the original. *)
Theorem bias_reduction_nonnegative (original rewritten : text)
        (bias_types : list text) :
  count_in profession_words (lower original)
  <= count_in profession_words (lower rewritten) ->
  (0 <= _calculate_bias_reduction original rewritten bias_types)%Q.
Proof.
  intros Hle.
  unfold _calculate_bias_reduction.
  destruct (indicator_hits original =? 0) eqn:E; [discriminate|].
  apply Nat.eqb_neq in E.
  pose proof (reduction_term_range (indicator_hits original)
                (indicator_hits rewritten) ltac:(lia)) as [H1 _].
  set (ro := count_in profession_words (lower original)) in *.
  set (rr := count_in profession_words (lower rewritten)) in *.
  assert (Hp : (of_nat ro <= of_nat rr)%Q).
  { unfold of_nat, Qle, inject_Z; cbn [Qnum Qden]. lia. }
  assert (H2 : (0 <= qmin 30 ((of_nat rr - of_nat ro) * 10))%Q).
  { destruct (qmin_cases 30 ((of_nat rr - of_nat ro) * 10))
      as [[H ->]|[H ->]]; lra. }
  match goal with
  | |- (_ <= qmin 100 ?x)%Q =>
      destruct (qmin_cases 100 x) as [[H ->]|[H ->]]
  end; lra.
Qed.

Lemma bias_reduction_nonnegative_witness :
  count_in profession_words (lower (str "Meera waits"))
  <= count_in profession_words (lower (str "Meera works"))
  /\ (0 <= _calculate_bias_reduction (str "Meera waits") (str "Meera works")
                                     all_keys)%Q.
Proof.
  assert (H : count_in profession_words (lower (str "Meera waits"))
              <= count_in profession_words (lower (str "Meera works")))
    by (vm_compute; lia).
  split; [exact H|].
  apply (bias_reduction_nonnegative (str "Meera waits") (str "Meera works")
                                    all_keys H).
Defined.

End ReductionRange.

(* ===================================================================== *)
(** ** The evaluator                                                      *)
(* ===================================================================== *)

Section EvaluatorFacts.

Lemma evaluate_single_raises (original : text) (r : RewriteResult) :
  Evaluator._evaluate_single_rewrite original (Evaluator.object_of r)
  = Raises (Evaluator.AttributeError (str "bias_reduction_score")).
Proof. reflexivity. Qed.

Lemma evaluate_case_fails (qs : list Q) (bs : list Evaluator.value)
      (printed : list text) (g : Rng) (test_case : text) :
  Evaluator.evaluate_case (qs, bs, printed, g) test_case
  = (qs ++ [0%Q], bs ++ [Evaluator.VNum 0], printed ++ [missing_score_line],
     snd (rewrite_text_rule_based test_case Evaluator.all_bias_types g)).
Proof.
  unfold Evaluator.evaluate_case.
  destruct (rewrite_text_rule_based test_case Evaluator.all_bias_types g)
    as [r g1].
  rewrite evaluate_single_raises. reflexivity.
Qed.

Lemma repeat_snoc {A : Type} (x : A) (n : nat) :
  repeat x n ++ [x] = x :: repeat x n.
Proof. induction n as [|n IH]; cbn; [reflexivity | rewrite IH; reflexivity]. Qed.

Lemma evaluate_loop (cases : list text) :
  forall qs bs printed g,
  exists g',
    fold_left Evaluator.evaluate_case cases (qs, bs, printed, g)
    = (qs ++ repeat 0%Q (length cases),
       bs ++ repeat (Evaluator.VNum 0) (length cases),
       printed ++ repeat missing_score_line (length cases), g').
Proof.
  induction cases as [|c cases IH]; intros qs bs printed g; cbn [fold_left].
  - exists g. cbn [length repeat]. rewrite !app_nil_r. reflexivity.
  - rewrite evaluate_case_fails.
    destruct (IH (qs ++ [0%Q]) (bs ++ [Evaluator.VNum 0])
                 (printed ++ [missing_score_line])
                 (snd (rewrite_text_rule_based c Evaluator.all_bias_types g)))
      as (g' & ->).
    exists g'. cbn [length repeat]. rewrite <- !app_assoc. reflexivity.
Qed.

Lemma numbers_zeros (n : nat) :
  Evaluator.numbers (repeat (Evaluator.VNum 0) n) = Returns (repeat 0%Q n).
Proof.
  induction n as [|n IH]; [reflexivity|].
  cbn [repeat Evaluator.numbers Evaluator.as_number Evaluator.bind].
  rewrite IH. reflexivity.
Qed.

Lemma qsum_zeros (n : nat) : (qsum (repeat 0%Q n) == 0)%Q.
Proof.
  induction n as [|n IH]; [reflexivity|].
  cbn [repeat qsum fold_right]. fold (qsum (repeat 0%Q n)). rewrite IH.
  reflexivity.
Qed.

Lemma np_mean_zeros (n : nat) : (np_mean (repeat 0%Q n) == 0)%Q.
Proof.
  unfold np_mean. rewrite qsum_zeros. unfold Qdiv. apply Qmult_0_l.
Qed.

(** X16. [_evaluate_single_rewrite] reads the attribute
    [bias_reduction_score], which a [RewriteResult] does not have: with
    the rewriter of this repository every test case of
    [evaluate_rewrite_quality] ends in the handler, so every individual
    score and both averages are 0, one error line is printed for each
    case and the quality target is reported as missed.  (For an empty
    list of cases [np.mean] is not a number.) *)
Theorem evaluation_reports_zeros (test_cases : option (list text))
        (g : Rng) :
  test_cases <> Some [] ->
  let n := length (match test_cases with
                   | None => Evaluator.default_test_cases
                   | Some l => l
                   end) in
  exists m g',
    Evaluator.evaluate_rewrite_quality test_cases g
    = Returns (m, repeat missing_score_line n, g')
    /\ Evaluator.individual_scores m = repeat 0%Q n
    /\ Evaluator.individual_bias_reductions m = repeat (Evaluator.VNum 0) n
    /\ (Evaluator.average_quality_score m == 0)%Q
    /\ (Evaluator.average_bias_reduction m == 0)%Q
    /\ Evaluator.meets_quality_target m = false.
Proof.
  intros _. cbv zeta. unfold Evaluator.evaluate_rewrite_quality.
  set (cases := match test_cases with
                | None => Evaluator.default_test_cases
                | Some l => l
                end).
  destruct (evaluate_loop cases [] [] [] g) as (g' & ->).
  cbn [app]. rewrite numbers_zeros. cbn [Evaluator.bind].
  eexists; exists g'; split; [reflexivity|].
  cbn [Evaluator.individual_scores Evaluator.individual_bias_reductions
       Evaluator.average_quality_score Evaluator.average_bias_reduction
       Evaluator.meets_quality_target].
  repeat split; try apply np_mean_zeros.
  destruct (Qle_bool 4 (np_mean (repeat 0%Q (length cases)) / 100 * 5)) eqn:E;
    [|reflexivity].
  apply Qle_bool_iff in E. rewrite np_mean_zeros in E.
  exfalso; revert E; vm_compute; intros E; apply E; reflexivity.
Qed.

Lemma evaluation_reports_zeros_witness :
  @None (list text) <> Some []
  /\ exists m g',
       Evaluator.evaluate_rewrite_quality None fixed_rng
       = Returns (m, repeat missing_score_line 5, g')
       /\ Evaluator.meets_quality_target m = false.
Proof.
  split; [discriminate|].
  destruct (evaluation_reports_zeros None fixed_rng ltac:(discriminate))
    as (m & g' & E & _ & _ & _ & _ & H).
  exists m, g'; split; [exact E | exact H].
Defined.

End EvaluatorFacts.

Section EvaluatorRubric.

Lemma kept_share_range (k m : nat) :
  k <= m -> 0 < m -> (0 <= of_nat k / of_nat m * 20 <= 20)%Q.
Proof.
  intros Hk Hm.
  assert (Hq : (0 < of_nat m)%Q) by (apply of_nat_pos; exact Hm).
  assert (H0 : (0 <= of_nat k / of_nat m)%Q).
  { apply Qle_shift_div_l; [exact Hq|]. rewrite Qmult_0_l.
    apply of_nat_nonneg. }
  assert (H1 : (of_nat k / of_nat m <= 1)%Q).
  { apply Qle_shift_div_r; [exact Hq|]. rewrite Qmult_1_l.
    unfold of_nat, Qle, inject_Z; cbn [Qnum Qden]. lia. }
  lra.
Qed.

(** X17. For an object that has a text [rewritten_text] and a number
    [bias_reduction_score] that is not negative, [_evaluate_single_rewrite]
    returns five components, each at most 20, with the floors 10, 0, 10,
    0 and 10, and their sum as the overall quality, between 30 and 100. *)
Theorem evaluator_rubric_range (original : text) (obj : Evaluator.object)
        (rewritten : text) (score : Q) :
  obj (str "rewritten_text") = Returns (Evaluator.VText rewritten) ->
  obj (str "bias_reduction_score") = Returns (Evaluator.VNum score) ->
  (0 <= score)%Q ->
  exists m,
    Evaluator._evaluate_single_rewrite original obj = Returns m
    /\ (Evaluator.overall_quality m
        == Evaluator.narrative_preservation m
           + Evaluator.character_preservation m
           + Evaluator.readability m
           + Evaluator.bias_improvement m
           + Evaluator.length_appropriateness m)%Q
    /\ (10 <= Evaluator.narrative_preservation m <= 20)%Q
    /\ (0 <= Evaluator.character_preservation m <= 20)%Q
    /\ (10 <= Evaluator.readability m <= 20)%Q
    /\ (Evaluator.bias_improvement m == qmin 20 (score / 5))%Q
    /\ (10 <= Evaluator.length_appropriateness m <= 20)%Q
    /\ (30 <= Evaluator.overall_quality m <= 100)%Q.
Proof.
  intros Ht Hs Hpos.
  unfold Evaluator._evaluate_single_rewrite.
  rewrite Ht. cbn [Evaluator.bind Evaluator.as_text].
  rewrite Hs. cbn [Evaluator.bind Evaluator.as_number].
  eexists; split; [reflexivity|].
  cbn [Evaluator.overall_quality Evaluator.narrative_preservation
       Evaluator.character_preservation Evaluator.readability
       Evaluator.bias_improvement Evaluator.length_appropriateness].
  set (narrative := if abs_diff _ _ <=? 1 then _ else _).
  set (character := match dedup (findall false cap_word original) with
                    | [] => _ | _ => _ end).
  set (readable := if _ && _ then 20%Q else 10%Q).
  set (appropriateness := if _ && _ then 20%Q else _).
  assert (Hn : (10 <= narrative <= 20)%Q).
  { unfold narrative.
    repeat match goal with |- context [if ?b then _ else _] => destruct b end;
      split; discriminate. }
  assert (Hc : (0 <= character <= 20)%Q).
  { unfold character.
    destruct (dedup (findall false cap_word original)) as [|n ns] eqn:E;
      [split; discriminate|].
    apply kept_share_range; [apply filter_length_le | cbn; lia]. }
  assert (Hr : (10 <= readable <= 20)%Q).
  { unfold readable. destruct (_ && _); split; discriminate. }
  assert (Ha : (10 <= appropriateness <= 20)%Q).
  { unfold appropriateness.
    repeat match goal with |- context [if ?b then _ else _] => destruct b end;
      split; discriminate. }
  assert (Hb : (0 <= qmin 20 (score / 5) <= 20)%Q).
  { destruct (qmin_cases 20 (score / 5)) as [[H ->]|[H ->]];
      [split; discriminate|].
    split; [|lra].
    apply Qle_shift_div_l; [reflexivity | lra]. }
  assert (Hsum : (qsum [narrative; character; readable; qmin 20 (score / 5);
                        appropriateness]
                  == narrative + character + readable + qmin 20 (score / 5)
                     + appropriateness)%Q).
  { unfold qsum; cbn [fold_right]. ring. }
  repeat split; try tauto; try reflexivity; try exact Hsum;
    rewrite Hsum; lra.
Qed.

Lemma evaluator_rubric_witness :
  scored_object (str "Meera works") 50 (str "rewritten_text")
  = Returns (Evaluator.VText (str "Meera works"))
  /\ scored_object (str "Meera works") 50 (str "bias_reduction_score")
     = Returns (Evaluator.VNum 50)
  /\ (0 <= 50)%Q
  /\ exists m,
       Evaluator._evaluate_single_rewrite
         (str "Meera waits") (scored_object (str "Meera works") 50)
       = Returns m
       /\ (30 <= Evaluator.overall_quality m <= 100)%Q.
Proof.
  assert (H0 : (0 <= 50)%Q) by discriminate.
  split; [reflexivity|]. split; [reflexivity|]. split; [exact H0|].
  destruct (evaluator_rubric_range (str "Meera waits")
              (scored_object (str "Meera works") 50) (str "Meera works") 50
              eq_refl eq_refl H0) as (m & E & H).
  exists m; split; [exact E | apply H].
Defined.

End EvaluatorRubric.
